(** * Billing-System storage core: Snowflake identifiers, B+Tree index,
      LRU cache, record codec and customer repository.

    A shallow embedding of [src/core/snowflake.hpp], [src/core/bplus_tree.hpp],
    [src/core/lru_cache.hpp] and [src/repository/customer_repository.hpp],
    followed by the properties proved about them. *)

From Stdlib Require Import ZArith Lia String Strings.Byte.
From stdpp Require Import gmap list sorting.
Local Open Scope Z_scope.

Inductive exn : Type :=
| invalid_argument (what : string)
| runtime_error (what : string).

Definition wrap64 (z : Z) : Z := (z + 2 ^ 63) mod 2 ^ 64 - 2 ^ 63.

Module SnowflakeGenerator.

Definition EPOCH : Z := 1704067200000.
Definition WORKER_BITS : Z := 10.
Definition SEQ_BITS : Z := 12.
Definition MAX_WORKER : Z := wrap64 (wrap64 (Z.shiftl 1 WORKER_BITS) - 1).
Definition MAX_SEQ : Z := wrap64 (wrap64 (Z.shiftl 1 SEQ_BITS) - 1).
Definition WORKER_SHIFT : Z := SEQ_BITS.
Definition TS_SHIFT : Z := wrap64 (WORKER_BITS + SEQ_BITS).

Record t : Type := mk {
  worker_id_ : Z;
  sequence_ : Z;
  last_ts_ : Z
}.

Definition new (worker_id : Z) : exn + t :=
  if (worker_id <? 0) || (worker_id >? MAX_WORKER)
  then inl (invalid_argument "Worker ID out of range [0, 1023]")
  else inr {| worker_id_ := worker_id; sequence_ := 0; last_ts_ := -1 |}.

Definition pack (ts worker_id sequence : Z) : Z :=
  Z.lor (Z.lor (wrap64 (Z.shiftl (wrap64 (ts - EPOCH)) TS_SHIFT))
               (wrap64 (Z.shiftl worker_id WORKER_SHIFT)))
        sequence.

Section Clock.
Variable current_ms : nat -> Z.

Fixpoint spin (fuel : nat) (reads : nat) (last_ts : Z) : option (Z * nat) :=
  match fuel with
  | O => None
  | S fuel' =>
      let ts := current_ms reads in
      if ts <=? last_ts then spin fuel' (S reads) last_ts
      else Some (ts, S reads)
  end.

Definition next (fuel : nat) (g : t) (reads : nat) : option (Z * t * nat) :=
  let ts := current_ms reads in
  let reads := S reads in
  if ts =? last_ts_ g then
    let sequence := Z.land (wrap64 (sequence_ g + 1)) MAX_SEQ in
    if sequence =? 0 then
      match spin fuel reads (last_ts_ g) with
      | None => None
      | Some (ts, reads) =>
          Some (pack ts (worker_id_ g) sequence,
                {| worker_id_ := worker_id_ g; sequence_ := sequence; last_ts_ := ts |},
                reads)
      end
    else
      Some (pack ts (worker_id_ g) sequence,
            {| worker_id_ := worker_id_ g; sequence_ := sequence; last_ts_ := ts |},
            reads)
  else
    let sequence := 0 in
    Some (pack ts (worker_id_ g) sequence,
          {| worker_id_ := worker_id_ g; sequence_ := sequence; last_ts_ := ts |},
          reads).
End Clock.

Record DecodedID : Type := mkDecoded {
  timestamp_ms : Z;
  worker_id : Z;
  sequence : Z
}.

Definition decode (id : Z) : DecodedID :=
  {| timestamp_ms := wrap64 (Z.shiftr id TS_SHIFT + EPOCH);
     worker_id := Z.land (Z.shiftr id WORKER_SHIFT) MAX_WORKER;
     sequence := Z.land id MAX_SEQ |}.

End SnowflakeGenerator.

(** ** [src/core/lru_cache.hpp] *)

(** [std::size_t] counters wrap modulo 2^64. *)
Definition wrap_size (z : Z) : Z := z mod 2 ^ 64.

Module LRUCache.
Section LRUCache.
Context {Key : Type} `{Countable Key} {Value : Type}.

(** A [std::list] node keeps its identity while it is spliced, so an
    iterator is modelled as the identity of the node it points to; every
    [emplace_front] creates a node with a fresh identity. *)
Definition ListIter : Type := nat.

Record t : Type := mk {
  capacity_ : nat;
  list_ : list (ListIter * (Key * Value));
  map_ : gmap Key ListIter;
  evict_cb_ : bool;
  hits_ : Z;
  misses_ : Z;
  fresh_ : ListIter
}.

Definition new (capacity : nat) : exn + t :=
  if (capacity =? 0)%nat
  then inl (invalid_argument "LRU capacity must be > 0")
  else inr {| capacity_ := capacity; list_ := []; map_ := ∅;
              evict_cb_ := false; hits_ := 0; misses_ := 0; fresh_ := 0%nat |}.

(** The node an iterator points to. *)
Fixpoint deref (l : list (ListIter * (Key * Value))) (it : ListIter)
  : option (Key * Value) :=
  match l with
  | [] => None
  | (i, kv) :: l' => if (i =? it)%nat then Some kv else deref l' it
  end.

(** [list_.erase(it)] *)
Fixpoint erase (l : list (ListIter * (Key * Value))) (it : ListIter)
  : list (ListIter * (Key * Value)) :=
  match l with
  | [] => []
  | (i, kv) :: l' => if (i =? it)%nat then l' else (i, kv) :: erase l' it
  end.

(** [list_.splice(list_.begin(), list_, it)] *)
Definition splice_front (l : list (ListIter * (Key * Value))) (it : ListIter)
  : list (ListIter * (Key * Value)) :=
  match deref l it with
  | Some kv => (it, kv) :: erase l it
  | None => l
  end.

(** [it->second = value] *)
Fixpoint assign (l : list (ListIter * (Key * Value))) (it : ListIter) (value : Value)
  : list (ListIter * (Key * Value)) :=
  match l with
  | [] => []
  | (i, (k, v)) :: l' =>
      if (i =? it)%nat then (i, (k, value)) :: l' else (i, (k, v)) :: assign l' it value
  end.

Definition get (c : t) (key : Key) : option Value * t :=
  match map_ c !! key with
  | None =>
      (None,
       {| capacity_ := capacity_ c; list_ := list_ c; map_ := map_ c;
          evict_cb_ := evict_cb_ c; hits_ := hits_ c;
          misses_ := wrap_size (misses_ c + 1); fresh_ := fresh_ c |})
  | Some it =>
      let l := splice_front (list_ c) it in
      (snd <$> deref l it,
       {| capacity_ := capacity_ c; list_ := l; map_ := map_ c;
          evict_cb_ := evict_cb_ c; hits_ := wrap_size (hits_ c + 1);
          misses_ := misses_ c; fresh_ := fresh_ c |})
  end.

(** [put] returns the cache and the calls it made to the eviction callback. *)
Definition put (c : t) (key : Key) (value : Value) : t * list (Key * Value) :=
  match map_ c !! key with
  | Some it =>
      ({| capacity_ := capacity_ c;
          list_ := splice_front (assign (list_ c) it value) it;
          map_ := map_ c; evict_cb_ := evict_cb_ c; hits_ := hits_ c;
          misses_ := misses_ c; fresh_ := fresh_ c |}, [])
  | None =>
      let '(l, m, calls) :=
        if (length (list_ c) =? capacity_ c)%nat then
          match last (list_ c) with
          | Some (_, (k, v)) =>
              (removelast (list_ c), delete k (map_ c),
               if evict_cb_ c then [(k, v)] else [])
          | None => (list_ c, map_ c, [])
          end
        else (list_ c, map_ c, []) in
      ({| capacity_ := capacity_ c;
          list_ := (fresh_ c, (key, value)) :: l;
          map_ := <[key := fresh_ c]> m;
          evict_cb_ := evict_cb_ c; hits_ := hits_ c; misses_ := misses_ c;
          fresh_ := S (fresh_ c) |}, calls)
  end.

Definition evict (c : t) (key : Key) : bool * t :=
  match map_ c !! key with
  | None => (false, c)
  | Some it =>
      (true,
       {| capacity_ := capacity_ c; list_ := erase (list_ c) it;
          map_ := delete key (map_ c); evict_cb_ := evict_cb_ c;
          hits_ := hits_ c; misses_ := misses_ c; fresh_ := fresh_ c |})
  end.

Definition contains (c : t) (key : Key) : bool :=
  bool_decide (is_Some (map_ c !! key)).

Definition set_evict_callback (c : t) : t :=
  {| capacity_ := capacity_ c; list_ := list_ c; map_ := map_ c;
     evict_cb_ := true; hits_ := hits_ c; misses_ := misses_ c;
     fresh_ := fresh_ c |}.

Definition size (c : t) : nat := length (list_ c).
Definition capacity (c : t) : nat := capacity_ c.
Definition hits (c : t) : Z := hits_ c.
Definition misses (c : t) : Z := misses_ c.

Definition clear (c : t) : t :=
  {| capacity_ := capacity_ c; list_ := []; map_ := ∅;
     evict_cb_ := evict_cb_ c; hits_ := hits_ c; misses_ := misses_ c;
     fresh_ := fresh_ c |}.

End LRUCache.
Arguments t : clear implicits.
Arguments t Key {_ _} Value.
End LRUCache.

(** ** [src/core/bplus_tree.hpp] *)

Module BPlusTree.
Set Warnings "-register-all".
Section BPlusTree.
Context {Value : Type}.

(** The template parameter [Order]. *)
Variable Order : nat.

Definition MAX_KEYS : nat := Order - 1.
Definition MIN_KEYS : nat := (Order - 1) / 2.

(** A node owns its children, so the tree is an inductive value.  The
    arrays [keys]/[values] of a leaf hold [num_keys] live slots and are
    modelled as the list of those slots; an internal node has its [num_keys]
    keys and its child pointers.  [next_leaf] is the one pointer that is not
    an ownership edge: a leaf carries the address it was allocated at, and
    [next_leaf] holds the address of another leaf (or [None] for null). *)
Inductive Node : Type :=
| Leaf (addr : nat) (slots : list (Z * Value)) (next_leaf : option nat)
| Internal (keys : list Z) (children : list Node).

Record t : Type := mk {
  root_ : Node;
  size_ : nat;
  (** next address handed out by [new Node(true)] *)
  heap_ : nat
}.


(** [BPlusTree<Key, Value, Order>()]: allocates an empty leaf.  The
    constructor looks at no parameter and has no failing path. *)
Definition new (Order : nat) : exn + t :=
  inr {| root_ := Leaf 0 [] None; size_ := 0; heap_ := 1 |}.

Fixpoint upper_bound_idx (keys : list Z) (key : Z) : nat :=
  match keys with
  | [] => 0
  | k :: keys' => if key >=? k then S (upper_bound_idx keys' key) else 0
  end%nat.

Fixpoint lower_bound_idx (keys : list Z) (key : Z) : nat :=
  match keys with
  | [] => 0
  | k :: keys' => if key >? k then S (lower_bound_idx keys' key) else 0
  end%nat.

(** The loop [for i < num_keys: if keys[i] == key return values[i]]. *)
Fixpoint find_slot (slots : list (Z * Value)) (key : Z) : option Value :=
  match slots with
  | [] => None
  | (k, v) :: slots' => if k =? key then Some v else find_slot slots' key
  end.

(** [children !! i] is [None] only in a node with fewer than [num_keys + 1]
    children, which no operation builds; the functions below then return
    their empty result. *)
Fixpoint search_node (node : Node) (key : Z) : option Value :=
  match node with
  | Leaf _ slots _ => find_slot slots key
  | Internal keys children =>
      match ((λ c, search_node c key) <$> children) !! upper_bound_idx keys key with
      | Some r => r
      | None => None
      end
  end.

Definition search (tr : t) (key : Z) : option Value := search_node (root_ tr) key.

(** The leaf stored at address [a]. *)
Fixpoint leaf_at (node : Node) (a : nat) : option Node :=
  match node with
  | Leaf addr _ _ => if (addr =? a)%nat then Some node else None
  | Internal _ children =>
      (fix first (l : list (option Node)) : option Node :=
         match l with
         | [] => None
         | Some n :: _ => Some n
         | None :: l' => first l'
         end) ((λ c, leaf_at c a) <$> children)
  end.

(** Descent of [range]: [node = node->children[lower_bound_idx(node, lo)]]. *)
Fixpoint descend_lower (node : Node) (lo : Z) : option Node :=
  match node with
  | Leaf _ _ _ => Some node
  | Internal keys children =>
      match ((λ c, descend_lower c lo) <$> children) !! lower_bound_idx keys lo with
      | Some r => r
      | None => None
      end
  end.

(** The inner loop of [range] on one leaf; the flag tells that a key above
    [hi] was met, where [range] returns. *)
Fixpoint range_scan (slots : list (Z * Value)) (lo hi : Z) (result : list (Z * Value))
  : list (Z * Value) * bool :=
  match slots with
  | [] => (result, false)
  | (k, v) :: slots' =>
      if k >? hi then (result, true)
      else range_scan slots' lo hi (if k >=? lo then result ++ [(k, v)] else result)
  end.

(** The loop [while (node)] of [range]; [None] when the fuel runs out or a
    pointer leads nowhere. *)
Fixpoint range_walk (fuel : nat) (root : Node) (node : option Node) (lo hi : Z)
  (result : list (Z * Value)) : option (list (Z * Value)) :=
  match node with
  | None => Some result
  | Some (Leaf _ slots next_leaf) =>
      match range_scan slots lo hi result with
      | (result', true) => Some result'
      | (result', false) =>
          match fuel with
          | O => None
          | S fuel' =>
              match next_leaf with
              | None => Some result'
              | Some a =>
                  match leaf_at root a with
                  | Some n => range_walk fuel' root (Some n) lo hi result'
                  | None => None
                  end
              end
          end
      end
  | Some (Internal _ _) => None
  end.

Definition range (fuel : nat) (tr : t) (lo hi : Z) : option (list (Z * Value)) :=
  match descend_lower (root_ tr) lo with
  | Some n => range_walk fuel (root_ tr) (Some n) lo hi []
  | None => None
  end.

(** The loop of [update] on the leaf. *)
Fixpoint update_slots (slots : list (Z * Value)) (key : Z) (value : Value)
  : list (Z * Value) * bool :=
  match slots with
  | [] => ([], false)
  | (k, v) :: slots' =>
      if k =? key then ((k, value) :: slots', true)
      else let '(s, b) := update_slots slots' key value in ((k, v) :: s, b)
  end.

Fixpoint update_node (node : Node) (key : Z) (value : Value) : Node * bool :=
  match node with
  | Leaf a slots next_leaf =>
      let '(s, b) := update_slots slots key value in (Leaf a s next_leaf, b)
  | Internal keys children =>
      let i := upper_bound_idx keys key in
      match ((λ c, update_node c key value) <$> children) !! i with
      | Some (c', b) => (Internal keys (<[i := c']> children), b)
      | None => (node, false)
      end
  end.

Definition update (tr : t) (key : Z) (value : Value) : bool * t :=
  let '(r, b) := update_node (root_ tr) key value in
  (b, {| root_ := r; size_ := size_ tr; heap_ := heap_ tr |}).

(** The leaf branch of [remove_recursive]: drop the first slot whose key is
    [key] and shift the rest left. *)
Fixpoint remove_slot (slots : list (Z * Value)) (key : Z) : list (Z * Value) * bool :=
  match slots with
  | [] => ([], false)
  | (k, v) :: slots' =>
      if k =? key then (slots', true)
      else let '(s, b) := remove_slot slots' key in ((k, v) :: s, b)
  end.

Fixpoint remove_recursive (node : Node) (key : Z) : Node * bool :=
  match node with
  | Leaf a slots next_leaf =>
      let '(s, b) := remove_slot slots key in (Leaf a s next_leaf, b)
  | Internal keys children =>
      let i := upper_bound_idx keys key in
      match ((λ c, remove_recursive c key) <$> children) !! i with
      | Some (c', b) => (Internal keys (<[i := c']> children), b)
      | None => (node, false)
      end
  end.

Definition remove (tr : t) (key : Z) : bool * t :=
  let '(r, removed) := remove_recursive (root_ tr) key in
  if removed then
    let r' :=
      match r with
      | Internal [] (c :: _) => c
      | _ => r
      end in
    (true, {| root_ := r'; size_ := pred (size_ tr); heap_ := heap_ tr |})
  else (false, {| root_ := r; size_ := size_ tr; heap_ := heap_ tr |}).

(** [InsertResult]: [None] is [{nullptr, {}, false}], [Some (sibling, key)]
    is [{sibling, key, true}]. *)
Definition InsertResult : Type := option (Node * Z).

(** [split_leaf]: the slots from [Order / 2] on move to a new leaf at the
    next free address, which is linked in after [leaf]. *)
Definition split_leaf (leaf : Node) (heap : nat) : Node * InsertResult * nat :=
  match leaf with
  | Leaf a slots next_leaf =>
      let mid := (Order / 2)%nat in
      let sibling_slots := take (length slots - mid) (drop mid slots) in
      let sibling := Leaf heap sibling_slots next_leaf in
      (Leaf a (take mid slots) (Some heap),
       Some (sibling, default 0 (head (sibling_slots.*1))),
       S heap)
  | Internal _ _ => (leaf, None, heap)
  end.

(** [split_internal]: the key at [num_keys / 2] moves up, the keys and
    children to its right move to a new node. *)
Definition split_internal (node : Node) (heap : nat) : Node * InsertResult * nat :=
  match node with
  | Internal keys children =>
      let mid := (length keys / 2)%nat in
      let pkey := default 0 (keys !! mid) in
      let n := (length keys - mid - 1)%nat in
      let sibling := Internal (take n (drop (S mid) keys))
                              (take (S n) (drop (S mid) children)) in
      (Internal (take mid keys) (take (S mid) children), Some (sibling, pkey), heap)
  | Leaf _ _ _ => (node, None, heap)
  end.

Fixpoint insert_recursive (node : Node) (key : Z) (value : Value) (heap : nat)
  : Node * InsertResult * nat :=
  match node with
  | Leaf a slots next_leaf =>
      let pos := lower_bound_idx (slots.*1) key in
      let slots' := take pos slots ++ (key, value) :: drop pos slots in
      if (length slots' <? Order)%nat then (Leaf a slots' next_leaf, None, heap)
      else split_leaf (Leaf a slots' next_leaf) heap
  | Internal keys children =>
      let i := upper_bound_idx keys key in
      match ((λ c, insert_recursive c key value heap) <$> children) !! i with
      | None => (node, None, heap)
      | Some (c', None, heap') => (Internal keys (<[i := c']> children), None, heap')
      | Some (c', Some (new_child, pkey), heap') =>
          let keys' := take i keys ++ pkey :: drop i keys in
          let children' :=
            take (S i) (<[i := c']> children) ++ new_child :: drop (S i) children in
          if (length keys' <? Order)%nat then (Internal keys' children', None, heap')
          else split_internal (Internal keys' children') heap'
      end
  end.

Definition insert (tr : t) (key : Z) (value : Value) : t :=
  match insert_recursive (root_ tr) key value (heap_ tr) with
  | (r, Some (new_child, promoted_key), heap') =>
      {| root_ := Internal [promoted_key] [r; new_child];
         size_ := S (size_ tr); heap_ := heap' |}
  | (r, None, heap') =>
      {| root_ := r; size_ := S (size_ tr); heap_ := heap' |}
  end.

(** Descent of [for_each]: [node = node->children[0]]. *)
Fixpoint leftmost (node : Node) : option Node :=
  match node with
  | Leaf _ _ _ => Some node
  | Internal _ children =>
      match children with
      | c :: _ => leftmost c
      | [] => None
      end
  end.

(** [for_each]: the calls made to [fn], in order. *)
Fixpoint for_each_walk (fuel : nat) (root : Node) (node : option Node)
  (calls : list (Z * Value)) : option (list (Z * Value)) :=
  match node with
  | None => Some calls
  | Some (Leaf _ slots next_leaf) =>
      match fuel with
      | O => None
      | S fuel' =>
          match next_leaf with
          | None => Some (calls ++ slots)
          | Some a =>
              match leaf_at root a with
              | Some n => for_each_walk fuel' root (Some n) (calls ++ slots)
              | None => None
              end
          end
      end
  | Some (Internal _ _) => None
  end.

Definition for_each (fuel : nat) (tr : t) : option (list (Z * Value)) :=
  match leftmost (root_ tr) with
  | Some n => for_each_walk fuel (root_ tr) (Some n) []
  | None => None
  end.

Definition size (tr : t) : nat := size_ tr.
Definition empty (tr : t) : bool := (size_ tr =? 0)%nat.

End BPlusTree.
Arguments Node : clear implicits.
Arguments t : clear implicits.
Arguments InsertResult : clear implicits.
End BPlusTree.

(** ** [src/models/customer.hpp] *)

Inductive CustomerTier : Type := BRONZE | SILVER | GOLD | ENTERPRISE.
Inductive CustomerStatus : Type := ACTIVE | SUSPENDED | CLOSED.

#[export] Instance byte_eq_dec : EqDecision byte := Byte.byte_eq_dec.
#[export] Instance CustomerTier_eq_dec : EqDecision CustomerTier.
Proof. solve_decision. Defined.
#[export] Instance CustomerStatus_eq_dec : EqDecision CustomerStatus.
Proof. solve_decision. Defined.

(** [std::string] is a byte sequence.  A [double] is carried as its 64-bit
    object representation; the repository only copies it.  [std::time_t] is
    a 64-bit signed integer. *)
Record Customer : Type := mkCustomer {
  id : Z;
  name : list byte;
  email : list byte;
  phone : list byte;
  address : list byte;
  country : list byte;
  state : list byte;
  tier : CustomerTier;
  status : CustomerStatus;
  credit_score : Z;
  credit_limit : Z;
  current_balance : Z;
  total_spent : Z;
  created_at : Z;
  updated_at : Z
}.

(** ** The binary record format of [src/repository/customer_repository.hpp] *)

Module Codec.

Definition byte_of_Z (z : Z) : byte :=
  default x00 (Byte.of_N (Z.to_N (z mod 256))).
Definition Z_of_byte (b : byte) : Z := Z.of_N (Byte.to_N b).

(** The [n]-byte little-endian object representation of an integer
    (two's complement for a negative one), as [f.write(&x, sizeof x)] emits
    it on the x86-64 hosts the system runs on. *)
Fixpoint encode_le (n : nat) (z : Z) : list byte :=
  match n with
  | O => []
  | S n' => byte_of_Z z :: encode_le n' (z / 256)
  end.

Fixpoint decode_le (bs : list byte) : Z :=
  match bs with
  | [] => 0
  | b :: bs' => Z_of_byte b + 256 * decode_le bs'
  end.

Definition to_signed (n : nat) (u : Z) : Z :=
  if u <? 2 ^ (8 * Z.of_nat n - 1) then u else u - 2 ^ (8 * Z.of_nat n).

Definition tier_to_Z (t : CustomerTier) : Z :=
  match t with BRONZE => 0 | SILVER => 1 | GOLD => 2 | ENTERPRISE => 3 end.
Definition status_to_Z (s : CustomerStatus) : Z :=
  match s with ACTIVE => 0 | SUSPENDED => 1 | CLOSED => 2 end.

(** An integer read into an enum that names no enumerator is outside the
    model ([None]). *)
Definition tier_of_Z (z : Z) : option CustomerTier :=
  if z =? 0 then Some BRONZE else if z =? 1 then Some SILVER
  else if z =? 2 then Some GOLD else if z =? 3 then Some ENTERPRISE else None.
Definition status_of_Z (z : Z) : option CustomerStatus :=
  if z =? 0 then Some ACTIVE else if z =? 1 then Some SUSPENDED
  else if z =? 2 then Some CLOSED else None.

(** An input stream is the bytes still to be read.  A read past the end
    leaves the C++ variables unset; the model stops there ([None]). *)
Definition reader (A : Type) : Type := list byte → option (A * list byte).

Definition ret {A} (x : A) : reader A := λ f, Some (x, f).
Definition bind {A B} (m : reader A) (k : A → reader B) : reader B :=
  λ f, match m f with
       | Some (x, f') => k x f'
       | None => None
       end.

Notation "'let*' x ':=' m 'in' k" := (bind m (λ x, k))
  (at level 10, x name, m at level 100, k at level 200).

Definition read_bytes (n : nat) : reader (list byte) :=
  λ f, if (length f <? n)%nat then None else Some (take n f, drop n f).

Definition read_unsigned (n : nat) : reader Z :=
  let* bs := read_bytes n in ret (decode_le bs).
Definition read_signed (n : nat) : reader Z :=
  let* bs := read_bytes n in ret (to_signed n (decode_le bs)).

Definition write_string (s : list byte) : list byte :=
  encode_le 8 (Z.of_nat (length s)) ++ s.

Definition read_string : reader (list byte) :=
  let* len := read_unsigned 8 in read_bytes (Z.to_nat len).

Definition write_customer (c : Customer) : list byte :=
  encode_le 8 (id c)
  ++ write_string (name c)
  ++ write_string (email c)
  ++ write_string (phone c)
  ++ write_string (address c)
  ++ write_string (country c)
  ++ write_string (state c)
  ++ encode_le 4 (tier_to_Z (tier c))
  ++ encode_le 4 (status_to_Z (status c))
  ++ encode_le 4 (credit_score c)
  ++ encode_le 8 (credit_limit c)
  ++ encode_le 8 (current_balance c)
  ++ encode_le 8 (total_spent c)
  ++ encode_le 8 (created_at c)
  ++ encode_le 8 (updated_at c).

Definition read_enum {A} (of_Z : Z → option A) : reader A :=
  let* z := read_signed 4 in
  match of_Z z with
  | Some x => ret x
  | None => λ _, None
  end.

Definition read_customer : reader Customer :=
  let* c_id := read_signed 8 in
  let* c_name := read_string in
  let* c_email := read_string in
  let* c_phone := read_string in
  let* c_address := read_string in
  let* c_country := read_string in
  let* c_state := read_string in
  let* c_tier := read_enum tier_of_Z in
  let* c_status := read_enum status_of_Z in
  let* c_credit_score := read_signed 4 in
  let* c_credit_limit := read_unsigned 8 in
  let* c_current_balance := read_unsigned 8 in
  let* c_total_spent := read_unsigned 8 in
  let* c_created_at := read_signed 8 in
  let* c_updated_at := read_signed 8 in
  ret {| id := c_id; name := c_name; email := c_email; phone := c_phone;
         address := c_address; country := c_country; state := c_state;
         tier := c_tier; status := c_status; credit_score := c_credit_score;
         credit_limit := c_credit_limit; current_balance := c_current_balance;
         total_spent := c_total_spent; created_at := c_created_at;
         updated_at := c_updated_at |}.

End Codec.

(** ** [CustomerRepository] *)

Module CustomerRepository.
Import Codec.

(** The data directory: the bytes of [customers.bin] when the file exists,
    and whether it can be opened for writing. *)
Record Disk : Type := mkDisk {
  file : option (list byte);
  writable : bool
}.

Record t : Type := mk {
  store_ : gmap Z Customer;
  index_ : BPlusTree.t Z;
  cache_ : LRUCache.t Z Customer
}.

Section Repository.

(** The order in which [std::unordered_map] hands out its elements is not
    specified; it is a parameter. *)
Variable iteration : gmap Z Customer → list (Z * Customer).

Definition flush (r : t) (d : Disk) : Disk * option exn :=
  if writable d then
    ({| file := Some (encode_le 8 (Z.of_nat (size (store_ r)))
                      ++ concat ((λ e, write_customer e.2) <$> iteration (store_ r)));
        writable := writable d |}, None)
  else (d, Some (runtime_error "Cannot open customer data file for writing")).

Fixpoint load_records (count : nat) (r : t) : reader t :=
  match count with
  | O => ret r
  | S count' =>
      let* c := read_customer in
      load_records count'
        {| store_ := <[id c := c]> (store_ r);
           index_ := BPlusTree.insert 4 (index_ r) (id c) (id c);
           cache_ := cache_ r |}
  end.

(** [count] starts as 0 and [f.read] stores the bytes it gets into it. *)
Definition load_all (r : t) (d : Disk) : option t :=
  match file d with
  | None => Some r
  | Some f =>
      match load_records (Z.to_nat (decode_le (take 8 f))) r (drop 8 f) with
      | Some (r', _) => Some r'
      | None => None
      end
  end.

Definition new (d : Disk) : option t :=
  match BPlusTree.new 4, LRUCache.new 256 with
  | inr index, inr cache =>
      load_all {| store_ := ∅; index_ := index; cache_ := cache |} d
  | _, _ => None
  end.

Definition save (r : t) (d : Disk) (customer : Customer) : t * Disk * option exn :=
  let r' := {| store_ := <[id customer := customer]> (store_ r);
               index_ := BPlusTree.insert 4 (index_ r) (id customer) (id customer);
               cache_ := (LRUCache.put (cache_ r) (id customer) customer).1 |} in
  let '(d', e) := flush r' d in (r', d', e).

Definition find_by_id (r : t) (i : Z) : option Customer * t :=
  match LRUCache.get (cache_ r) i with
  | (Some c, cache) =>
      (Some c, {| store_ := store_ r; index_ := index_ r; cache_ := cache |})
  | (None, cache) =>
      match store_ r !! i with
      | None => (None, {| store_ := store_ r; index_ := index_ r; cache_ := cache |})
      | Some c =>
          (Some c, {| store_ := store_ r; index_ := index_ r;
                      cache_ := (LRUCache.put cache i c).1 |})
      end
  end.

Definition find_by_email (r : t) (e : list byte) : option Customer :=
  snd <$> head (filter (λ kc, email kc.2 = e) (iteration (store_ r))).

Definition update (r : t) (d : Disk) (customer : Customer)
  : bool * t * Disk * option exn :=
  match store_ r !! id customer with
  | None => (false, r, d, None)
  | Some _ =>
      let r' := {| store_ := <[id customer := customer]> (store_ r);
                   index_ := (BPlusTree.update (index_ r) (id customer) (id customer)).2;
                   cache_ := (LRUCache.put (cache_ r) (id customer) customer).1 |} in
      let '(d', e) := flush r' d in (true, r', d', e)
  end.

Definition remove (r : t) (d : Disk) (i : Z) : bool * t * Disk * option exn :=
  match store_ r !! i with
  | None => (false, r, d, None)
  | Some _ =>
      let r' := {| store_ := delete i (store_ r);
                   index_ := (BPlusTree.remove (index_ r) i).2;
                   cache_ := (LRUCache.evict (cache_ r) i).2 |} in
      let '(d', e) := flush r' d in (true, r', d', e)
  end.

Definition find_all (r : t) : list Customer := snd <$> iteration (store_ r).

Definition find_range (fuel : nat) (r : t) (lo hi : Z) : option (list Customer) :=
  match BPlusTree.range fuel (index_ r) lo hi with
  | Some ids => Some (omap (λ e, store_ r !! e.1) ids)
  | None => None
  end.

Definition find_by_tier (r : t) (tr : CustomerTier) : list Customer :=
  filter (λ c, tier c = tr) (snd <$> iteration (store_ r)).

Definition count (r : t) : nat := size (store_ r).

End Repository.
End CustomerRepository.

(** ** [src/service/customer_service.hpp] *)

Module CustomerCreateRequest.
Record t : Type := mk {
  name : list byte;
  email : list byte;
  phone : list byte;
  address : list byte;
  country : list byte;
  state : list byte
}.
End CustomerCreateRequest.

Module CustomerService.
Import CustomerRepository.

(** What a call leaves behind: the repository the service refers to and the
    data directory. *)
Definition World : Type := (CustomerRepository.t * Disk)%type.

Definition is_empty (s : list byte) : bool :=
  match s with [] => true | _ => false end.

Section Service.
Variable iteration : gmap Z Customer → list (Z * Customer).

(** The millisecond clock read by [core::generate_id]. *)
Variable current_ms : nat → Z.

(** The arithmetic on [double] is not interpreted: the credit limit of a
    score and a tier, the tier of an amount spent, the sum of two amounts
    and the test [payment_amount > 1000] are parameters, over the 64-bit
    representations the records carry. *)
Variable compute_credit_limit : Z → CustomerTier → Z.
Variable compute_tier : Z → CustomerTier.
Variable add_double : Z → Z → Z.
Variable above_1000 : Z → bool.

(** [create]: [g] and [reads] are the state of the process-wide generator
    behind [core::generate_id] and of its clock when the call is made, [now]
    is what [std::time(nullptr)] returns.  [None] stands for a call whose
    wait for the next millisecond has not ended within [fuel] readings. *)
Definition create (fuel : nat) (g : SnowflakeGenerator.t) (reads : nat)
  (w : World) (req : CustomerCreateRequest.t) (now : Z)
  : option ((exn + Customer) * World * SnowflakeGenerator.t * nat) :=
  if is_empty (CustomerCreateRequest.name req)
     || is_empty (CustomerCreateRequest.email req)
  then Some (inl (invalid_argument "Name and email are required"), w, g, reads)
  else
    match find_by_email iteration w.1 (CustomerCreateRequest.email req) with
    | Some _ =>
        Some (inl (runtime_error
                     ("Email already registered: "
                      ++ string_of_list_byte (CustomerCreateRequest.email req))),
              w, g, reads)
    | None =>
        match SnowflakeGenerator.next current_ms fuel g reads with
        | None => None
        | Some (new_id, g', reads') =>
            let c := {| id := new_id;
                        name := CustomerCreateRequest.name req;
                        email := CustomerCreateRequest.email req;
                        phone := CustomerCreateRequest.phone req;
                        address := CustomerCreateRequest.address req;
                        country := CustomerCreateRequest.country req;
                        state := CustomerCreateRequest.state req;
                        tier := BRONZE;
                        status := ACTIVE;
                        credit_score := 650;
                        credit_limit := compute_credit_limit 650 BRONZE;
                        current_balance := 0;
                        total_spent := 0;
                        created_at := now;
                        updated_at := now |} in
            let '(r', d', e) := save iteration w.1 w.2 c in
            Some (match e with Some x => inl x | None => inr c end, (r', d'), g', reads')
        end
    end.

Definition get (w : World) (i : Z) : option Customer * World :=
  let '(o, r') := find_by_id w.1 i in (o, (r', w.2)).

Definition get_by_email (w : World) (e : list byte) : option Customer :=
  find_by_email iteration w.1 e.

Definition list_all (w : World) : list Customer := find_all iteration w.1.

Definition list_by_tier (w : World) (tr : CustomerTier) : list Customer :=
  find_by_tier iteration w.1 tr.

(** The calls below share one shape: look the record up, change some
    fields of the copy, and hand the copy to [update]. *)
Definition modify (w : World) (i : Z) (change : Customer → Customer)
  : bool * World * option exn :=
  match find_by_id w.1 i with
  | (None, r') => (false, (r', w.2), None)
  | (Some c, r') =>
      let '(b, r'', d', e) := update iteration r' w.2 (change c) in (b, (r'', d'), e)
  end.

Definition update_profile (w : World) (i : Z) (new_name new_phone new_address : list byte)
  (now : Z) : bool * World * option exn :=
  modify w i (λ c,
    {| id := id c; name := new_name; email := email c; phone := new_phone;
       address := new_address; country := country c; state := state c;
       tier := tier c; status := status c; credit_score := credit_score c;
       credit_limit := credit_limit c; current_balance := current_balance c;
       total_spent := total_spent c; created_at := created_at c;
       updated_at := now |}).

(** [c.credit_score + delta] is an [int] addition; the model keeps the
    mathematical sum, which is the C++ value whenever the sum is an [int]. *)
Definition recalculate_credit (w : World) (i : Z) (payment_amount : Z) (on_time : bool)
  (now : Z) : bool * World * option exn :=
  modify w i (λ c,
    let delta := if on_time then 5 else -15 in
    let delta := if above_1000 payment_amount
                 then delta + (if on_time then 3 else -5) else delta in
    let score := Z.max 300 (Z.min 850 (credit_score c + delta)) in
    let spent := add_double (total_spent c) payment_amount in
    let new_tier := compute_tier spent in
    {| id := id c; name := name c; email := email c; phone := phone c;
       address := address c; country := country c; state := state c;
       tier := new_tier; status := status c; credit_score := score;
       credit_limit := compute_credit_limit score new_tier;
       current_balance := current_balance c;
       total_spent := spent; created_at := created_at c;
       updated_at := now |}).

Definition set_status (s : CustomerStatus) (now : Z) (c : Customer) : Customer :=
  {| id := id c; name := name c; email := email c; phone := phone c;
     address := address c; country := country c; state := state c;
     tier := tier c; status := s; credit_score := credit_score c;
     credit_limit := credit_limit c; current_balance := current_balance c;
     total_spent := total_spent c; created_at := created_at c;
     updated_at := now |}.

Definition suspend (w : World) (i : Z) (now : Z) : bool * World * option exn :=
  modify w i (set_status SUSPENDED now).

Definition activate (w : World) (i : Z) (now : Z) : bool * World * option exn :=
  modify w i (set_status ACTIVE now).

Definition remove (w : World) (i : Z) : bool * World * option exn :=
  let '(b, r', d', e) := CustomerRepository.remove iteration w.1 w.2 i in (b, (r', d'), e).

Definition count (w : World) : nat := CustomerRepository.count w.1.

End Service.
End CustomerService.

Lemma wrap64_id z : - 2 ^ 63 <= z < 2 ^ 63 -> wrap64 z = z.
Proof. intros H. unfold wrap64. rewrite Z.mod_small; lia. Qed.

Lemma wrap64_range z : - 2 ^ 63 <= wrap64 z < 2 ^ 63.
Proof.
  unfold wrap64. pose proof (Z.mod_pos_bound (z + 2 ^ 63) (2 ^ 64)). lia.
Qed.

Lemma wrap64_multiple z k :
  0 <= k <= 64 -> exists a, wrap64 (z * 2 ^ k) = a * 2 ^ k.
Proof.
  intros Hk. unfold wrap64.
  exists (z - 2 ^ (64 - k) * ((z * 2 ^ k + 2 ^ 63) / 2 ^ 64)).
  rewrite Z.mod_eq by lia.
  replace (2 ^ 64) with (2 ^ (64 - k) * 2 ^ k) at 1
    by (rewrite <- Z.pow_add_r by lia; f_equal; lia).
  ring.
Qed.

Lemma lor_disjoint_add a low k :
  0 <= k -> 0 <= low < 2 ^ k -> Z.lor (a * 2 ^ k) low = a * 2 ^ k + low.
Proof.
  intros Hk Hlow.
  assert (Hland : Z.land (a * 2 ^ k) low = 0).
  { apply Z.bits_inj'. intros n Hn. rewrite Z.land_spec, Z.bits_0.
    destruct (Z.lt_ge_cases n k) as [Hlt | Hge].
    - rewrite Z.mul_pow2_bits_low by lia. reflexivity.
    - rewrite <- (Z.mod_small low (2 ^ k)) by lia.
      rewrite Z.mod_pow2_bits_high by lia. apply andb_false_r. }
  rewrite <- Z.lxor_lor by assumption.
  symmetry. apply Z.add_nocarry_lxor. assumption.
Qed.

Module SnowflakeFacts.
Import SnowflakeGenerator.

Definition wf (g : t) : Prop :=
  0 <= worker_id_ g <= 1023 /\ 0 <= sequence_ g <= 4095.

Definition in_window (ts : Z) : Prop := - 2 ^ 41 <= ts - EPOCH < 2 ^ 41.

Lemma new_wf w g : new w = inr g -> wf g /\ worker_id_ g = w.
Proof.
  unfold new, wf. change MAX_WORKER with 1023.
  destruct (Z.ltb_spec w 0), (Z.gtb_spec w 1023); simpl; try discriminate.
  intros [= <-]. simpl. lia.
Qed.

Lemma pack_sum ts w s :
  0 <= w <= 1023 -> 0 <= s <= 4095 ->
  exists a, pack ts w s = a * 2 ^ 22 + w * 2 ^ 12 + s
            /\ (in_window ts -> a = ts - EPOCH).
Proof.
  intros Hw Hs. unfold pack.
  change TS_SHIFT with 22. change WORKER_SHIFT with 12.
  rewrite !Z.shiftl_mul_pow2 by lia.
  rewrite (wrap64_id (w * 2 ^ 12)) by lia.
  destruct (wrap64_multiple (wrap64 (ts - EPOCH)) 22) as [a Ha]; [lia |].
  exists a. split.
  - rewrite Ha.
    replace (Z.lor (a * 2 ^ 22) (w * 2 ^ 12)) with (a * 2 ^ 22 + w * 2 ^ 12)
      by (symmetry; apply lor_disjoint_add; lia).
    replace (a * 2 ^ 22 + w * 2 ^ 12) with ((a * 2 ^ 10 + w) * 2 ^ 12) by ring.
    apply lor_disjoint_add; lia.
  - unfold in_window. intros Hwin.
    rewrite (wrap64_id (ts - EPOCH)) in Ha by lia.
    rewrite wrap64_id in Ha by lia. lia.
Qed.

Lemma pack_window ts w s :
  in_window ts -> 0 <= w <= 1023 -> 0 <= s <= 4095 ->
  pack ts w s = (ts - EPOCH) * 2 ^ 22 + w * 2 ^ 12 + s.
Proof.
  intros Hwin Hw Hs. destruct (pack_sum ts w s Hw Hs) as (a & -> & Ha).
  rewrite Ha by assumption. reflexivity.
Qed.

Lemma decode_sum a w s :
  0 <= w <= 1023 -> 0 <= s <= 4095 ->
  Z.shiftr (a * 2 ^ 22 + w * 2 ^ 12 + s) TS_SHIFT = a
  /\ worker_id (decode (a * 2 ^ 22 + w * 2 ^ 12 + s)) = w
  /\ sequence (decode (a * 2 ^ 22 + w * 2 ^ 12 + s)) = s.
Proof.
  intros Hw Hs. unfold decode; simpl.
  change TS_SHIFT with 22. change WORKER_SHIFT with 12.
  change MAX_WORKER with (Z.ones 10). change MAX_SEQ with (Z.ones 12).
  rewrite !Z.land_ones, !Z.shiftr_div_pow2 by lia.
  repeat split.
  - symmetry. apply (Z.div_unique _ _ a (w * 2 ^ 12 + s)); lia.
  - replace ((a * 2 ^ 22 + w * 2 ^ 12 + s) / 2 ^ 12) with (a * 2 ^ 10 + w)
      by (apply (Z.div_unique _ _ _ s); lia).
    symmetry. apply (Z.mod_unique _ _ a w); lia.
  - symmetry. apply (Z.mod_unique _ _ (a * 2 ^ 10 + w) s); lia.
Qed.

Section Clock.
Variable current_ms : nat -> Z.
Hypothesis clock_mono : forall i j, (i <= j)%nat -> current_ms i <= current_ms j.

Lemma spin_spec fuel reads last ts reads' :
  spin current_ms fuel reads last = Some (ts, reads') ->
  last < ts /\ exists m, reads' = S m /\ (reads <= m)%nat /\ ts = current_ms m.
Proof.
  revert reads. induction fuel as [| fuel IH]; intros reads; simpl; [discriminate |].
  destruct (Z.leb_spec (current_ms reads) last) as [Hle | Hgt].
  - intros H. apply IH in H as (Hlt & m & -> & Hm & ->).
    split; [assumption |]. exists m. repeat split; lia.
  - intros [= <- <-]. split; [lia |]. exists reads. repeat split; lia.
Qed.

Lemma spin_total reads last m :
  (reads <= m)%nat -> last < current_ms m ->
  forall fuel, (m - reads < fuel)%nat -> is_Some (spin current_ms fuel reads last).
Proof.
  intros Hm Hlast fuel. revert reads Hm.
  induction fuel as [| fuel IH]; intros reads Hm Hfuel; [lia |]. simpl.
  destruct (Z.leb_spec (current_ms reads) last) as [Hle | Hgt]; [| eauto].
  assert (reads <> m) by (intros ->; lia).
  apply IH; lia.
Qed.

Lemma land_seq s :
  0 <= s <= 4095 ->
  Z.land (wrap64 (s + 1)) MAX_SEQ = (s + 1) mod 4096.
Proof.
  intros Hs. rewrite wrap64_id by lia.
  change MAX_SEQ with (Z.ones 12). rewrite Z.land_ones by lia. reflexivity.
Qed.

Lemma next_spec fuel g reads id g' reads' :
  wf g ->
  next current_ms fuel g reads = Some (id, g', reads') ->
  wf g' /\ worker_id_ g' = worker_id_ g
  /\ id = pack (last_ts_ g') (worker_id_ g') (sequence_ g')
  /\ (exists m, reads' = S m /\ (reads <= m)%nat /\ last_ts_ g' = current_ms m)
  /\ (last_ts_ g <= current_ms reads ->
      (last_ts_ g' = last_ts_ g /\ sequence_ g' = sequence_ g + 1)
      \/ last_ts_ g < last_ts_ g').
Proof.
  intros (Hw & Hs). unfold next, wf.
  destruct (Z.eqb_spec (current_ms reads) (last_ts_ g)) as [Heq | Hne].
  - rewrite land_seq by assumption.
    destruct (Z.eqb_spec ((sequence_ g + 1) mod 4096) 0) as [Hz | Hnz].
    + destruct (spin current_ms fuel (S reads) (last_ts_ g)) as [[ts r] |] eqn:Hspin;
        [| discriminate].
      apply spin_spec in Hspin as (Hlt & m & -> & Hm & ->).
      intros [= <- <- <-]. simpl. rewrite Hz.
      split; [lia |]. split; [reflexivity |]. split; [reflexivity |].
      split; [exists m; repeat split; lia | intros Hlast; right; lia].
    + intros [= <- <- <-]. simpl.
      assert (sequence_ g + 1 < 4096).
      { destruct (Z.eq_dec (sequence_ g) 4095) as [E | E]; [| lia].
        rewrite E in Hnz. exfalso. apply Hnz. reflexivity. }
      rewrite Z.mod_small by lia.
      split; [lia |]. split; [reflexivity |]. split; [reflexivity |].
      split; [exists reads; repeat split; lia | intros Hlast; left; lia].
  - intros [= <- <- <-]. simpl.
    split; [lia |]. split; [reflexivity |]. split; [reflexivity |].
    split; [exists reads; repeat split; lia | intros Hlast; right; lia].
Qed.

Lemma next_total fuel g reads m :
  (reads < m)%nat -> current_ms reads < current_ms m -> (m - reads <= fuel)%nat ->
  is_Some (next current_ms fuel g reads).
Proof.
  intros Hm Hadv Hfuel. unfold next.
  destruct (Z.eqb_spec (current_ms reads) (last_ts_ g)) as [Heq | Hne]; [| eauto].
  destruct (_ =? 0); [| eauto].
  destruct (spin_total (S reads) (last_ts_ g) m) with (fuel := fuel)
    as [[ts r] ->]; try lia; eauto.
Qed.
End Clock.

Inductive gen_state (current_ms : nat -> Z) (w : Z) : t -> nat -> Prop :=
| gen_new g reads : new w = inr g -> gen_state current_ms w g reads
| gen_next fuel g reads id g' reads' :
    gen_state current_ms w g reads ->
    next current_ms fuel g reads = Some (id, g', reads') ->
    gen_state current_ms w g' reads'.

Lemma gen_state_wf current_ms w g reads :
  gen_state current_ms w g reads -> wf g /\ worker_id_ g = w.
Proof.
  induction 1 as [g reads Hnew | fuel g reads id g' reads' _ [IHwf IHw] Hnext].
  - apply new_wf. assumption.
  - apply next_spec in Hnext as (Hwf' & Hw' & _); [| assumption].
    split; [assumption | congruence].
Qed.

(** C5 (as amended).  With a non-decreasing clock whose readings keep
    [ts - EPOCH] inside the signed 41-bit window, so that the shifted
    timestamp fits in an int64, two consecutive calls of [next] on one
    generator return strictly increasing identifiers; and a call returns as
    soon as the clock moves past the reading it started with. *)
Theorem next_strictly_increasing (current_ms : nat -> Z) (g : t) (reads : nat) :
  (forall i j, (i <= j)%nat -> current_ms i <= current_ms j) ->
  (forall i, in_window (current_ms i)) ->
  wf g ->
  (forall fuel1 fuel2 id1 g1 r1 id2 g2 r2,
      next current_ms fuel1 g reads = Some (id1, g1, r1) ->
      next current_ms fuel2 g1 r1 = Some (id2, g2, r2) ->
      id1 < id2)
  /\ (forall m, (reads < m)%nat -> current_ms reads < current_ms m ->
      exists id g' reads',
        next current_ms (m - reads) g reads = Some (id, g', reads') /\ wf g').
Proof.
  intros Hmono Hwin Hwf. split.
  - intros fuel1 fuel2 id1 g1 r1 id2 g2 r2 H1 H2.
    apply next_spec in H1 as (Hwf1 & Hw1 & -> & (m1 & -> & Hm1 & Hts1) & _);
      [| assumption].
    apply next_spec in H2 as (Hwf2 & Hw2 & -> & (m2 & -> & Hm2 & Hts2) & Hord);
      [| assumption].
    destruct Hwf1 as [Hwk1 Hsq1]. destruct Hwf2 as [Hwk2 Hsq2].
    rewrite !pack_window by (rewrite ?Hts1, ?Hts2; auto).
    rewrite Hw2.
    destruct Hord as [[Heq Hseq] | Hlt].
    + rewrite Hts1. apply Hmono. lia.
    + rewrite Heq, Hseq. lia.
    + lia.
  - intros m Hm Hadv.
    destruct (next_total current_ms (m - reads) g reads m Hm Hadv) as [[[id g'] r'] Hn];
      [lia |].
    exists id, g', r'. split; [assumption |].
    apply next_spec in Hn as (Hwf' & _); assumption.
Qed.

Definition saturating_clock (n : nat) : Z := EPOCH + Z.of_nat (Nat.min n 5).

Lemma next_strictly_increasing_witness :
  next saturating_clock 0 (mk 1 0 (-1)) 0 = Some (4096, mk 1 0 EPOCH, 1%nat)
  /\ next saturating_clock 0 (mk 1 0 EPOCH) 1 = Some (4198400, mk 1 0 (EPOCH + 1), 2%nat)
  /\ 4096 < 4198400.
Proof.
  assert (H1 : next saturating_clock 0 (mk 1 0 (-1)) 0
               = Some (4096, mk 1 0 EPOCH, 1%nat)) by (vm_compute; reflexivity).
  assert (H2 : next saturating_clock 0 (mk 1 0 EPOCH) 1
               = Some (4198400, mk 1 0 (EPOCH + 1), 2%nat)) by (vm_compute; reflexivity).
  split; [exact H1 |]. split; [exact H2 |].
  refine (proj1 (next_strictly_increasing saturating_clock (mk 1 0 (-1)) 0 _ _ _)
            _ _ _ _ _ _ _ _ H1 H2).
  - unfold saturating_clock. intros i j Hij. lia.
  - unfold saturating_clock, in_window. intros i. lia.
  - unfold wf. simpl. lia.
Defined.

Definition late_clock (n : nat) : Z := EPOCH + 2 ^ 41 - 1 + Z.of_nat n.

(** C5 (as stated) fails: the clock below is strictly increasing, but its
    second reading has [ts - EPOCH = 2^41], whose shift by 22 leaves the
    int64 range; the second identifier is negative and smaller than the
    first. *)
Lemma next_not_increasing_past_window :
  (forall i j, (i <= j)%nat -> late_clock i <= late_clock j)
  /\ exists g id1 g1 r1 id2 g2 r2,
      new 1 = inr g
      /\ next late_clock 0 g 0 = Some (id1, g1, r1)
      /\ next late_clock 0 g1 r1 = Some (id2, g2, r2)
      /\ id2 < id1.
Proof.
  split.
  - unfold late_clock. intros i j Hij. lia.
  - exists (mk 1 0 (-1)).
    exists 9223372036850585600, (mk 1 0 3903090455551), 1%nat.
    exists (-9223372036854771712), (mk 1 0 3903090455552), 2%nat.
    repeat split; vm_compute; reflexivity.
Qed.

(** C6.  [decode] inverts the packing done by [next]: inside the ranges
    [0 <= ts - EPOCH < 2^41], [0 <= w <= 1023], [0 <= s <= 4095] it returns
    exactly [(ts, w, s)]; and every identifier issued by a generator built
    with worker id [w] decodes to worker id [w], whatever the clock does. *)
Theorem decode_pack_inverse :
  (forall ts w s,
      0 <= ts - EPOCH < 2 ^ 41 -> 0 <= w <= 1023 -> 0 <= s <= 4095 ->
      pack ts w s
      = Z.lor (Z.lor (Z.shiftl (ts - EPOCH) 22) (Z.shiftl w 12)) s
      /\ decode (pack ts w s)
         = {| timestamp_ms := ts; worker_id := w; sequence := s |})
  /\ (forall current_ms w g reads fuel id g' reads',
        gen_state current_ms w g reads ->
        next current_ms fuel g reads = Some (id, g', reads') ->
        worker_id (decode id) = w).
Proof.
  split.
  - intros ts w s Hts Hw Hs. split.
    + unfold pack. change TS_SHIFT with 22. change WORKER_SHIFT with 12.
      rewrite (wrap64_id (ts - EPOCH)) by lia.
      rewrite !Z.shiftl_mul_pow2 by lia.
      rewrite !wrap64_id by lia. reflexivity.
    + rewrite pack_window by (unfold in_window; lia).
      destruct (decode_sum (ts - EPOCH) w s Hw Hs) as (Ht & Hwk & Hsq).
      unfold decode in *. simpl in *. rewrite Ht, Hwk, Hsq.
      f_equal. rewrite wrap64_id; unfold EPOCH in *; lia.
  - intros current_ms w g reads fuel id g' reads' Hst Hnext.
    apply gen_state_wf in Hst as [Hwf Hw].
    apply next_spec in Hnext as ([Hwk' Hsq'] & Hw' & -> & _); [| assumption].
    destruct (pack_sum (last_ts_ g') (worker_id_ g') (sequence_ g') Hwk' Hsq')
      as (a & -> & _).
    destruct (decode_sum a (worker_id_ g') (sequence_ g') Hwk' Hsq') as (_ & -> & _).
    congruence.
Qed.

Lemma decode_pack_inverse_witness :
  decode (pack (EPOCH + 5) 42 7)
  = {| timestamp_ms := EPOCH + 5; worker_id := 42; sequence := 7 |}.
Proof.
  apply (proj1 decode_pack_inverse (EPOCH + 5) 42 7); vm_compute; split; congruence.
Defined.

End SnowflakeFacts.

(** ** Facts about the LRU cache *)

Module LRUFacts.
Import LRUCache.
Local Open Scope nat_scope.

Section LRUFacts.
Context {Key : Type} `{Countable Key} {Value : Type}.
Implicit Types (l : list (ListIter * (Key * Value))) (c : t Key Value).

(** The operations a client can apply to a cache. *)
Inductive op : Type :=
| Get (key : Key)
| Put (key : Key) (value : Value)
| Evict (key : Key)
| SetEvictCallback
| Clear.

Definition step c (o : op) : t Key Value :=
  match o with
  | Get k => (get c k).2
  | Put k v => (put c k v).1
  | Evict k => (evict c k).2
  | SetEvictCallback => set_evict_callback c
  | Clear => clear c
  end.

Definition run c (ops : list op) : t Key Value := fold_left step ops c.

Definition touches (o : op) (k : Key) : bool :=
  match o with
  | Get k' | Put k' _ => bool_decide (k' = k)
  | Evict _ | SetEvictCallback | Clear => false
  end.

(** 1-based position in [ops] of the last [Get k] or [Put k _]; 0 if none. *)
Fixpoint last_touch (ops : list op) (k : Key) : nat :=
  match ops with
  | [] => 0
  | o :: ops' =>
      match last_touch ops' k with
      | 0 => if touches o k then 1 else 0
      | S r => S (S r)
      end
  end.

Definition ids l : list ListIter := l.*1.
Definition keys l : list Key := (λ e, e.2.1) <$> l.

Definition newer (ops : list op) (a b : ListIter * (Key * Value)) : Prop :=
  last_touch ops b.2.1 < last_touch ops a.2.1.

Record wf c : Prop := {
  wf_ids : NoDup (ids (list_ c));
  wf_map : ∀ k i, map_ c !! k = Some i ↔ ∃ v, (i, (k, v)) ∈ list_ c;
  wf_fresh : ∀ i, i ∈ ids (list_ c) → i < fresh_ c;
  wf_size : length (list_ c) ≤ capacity_ c;
  wf_capacity : 0 < capacity_ c
}.

Lemma deref_Some l it kv : deref l it = Some kv → (it, kv) ∈ l.
Proof.
  induction l as [| [i e] l IH]; simpl; [discriminate |].
  destruct (Nat.eqb_spec i it) as [-> | Hne].
  - intros [= ->]. left.
  - intros Hd. right. auto.
Qed.

Lemma deref_elem l it kv : NoDup (ids l) → (it, kv) ∈ l → deref l it = Some kv.
Proof.
  induction l as [| [i e] l IH]; simpl.
  - intros _ Hin. inversion Hin.
  - intros Hnd Hin. apply NoDup_cons in Hnd as [Hni Hnd].
    destruct (Nat.eqb_spec i it) as [-> | Hne].
    + apply elem_of_cons in Hin as [[= ->] | Hin]; [reflexivity |].
      exfalso. apply Hni. unfold ids. apply list_elem_of_fmap. exists (it, kv). auto.
    + apply elem_of_cons in Hin as [[= -> ->] | Hin]; [congruence | auto].
Qed.

Lemma erase_sublist l it : sublist (erase l it) l.
Proof.
  induction l as [| [i e] l IH]; simpl; [constructor |].
  destruct (i =? it); [apply sublist_cons | apply sublist_skip]; [reflexivity | exact IH].
Qed.

Lemma erase_perm l it kv : deref l it = Some kv → l ≡ₚ (it, kv) :: erase l it.
Proof.
  induction l as [| [i e] l IH]; simpl; [discriminate |].
  destruct (Nat.eqb_spec i it) as [-> | Hne].
  - intros [= ->]. reflexivity.
  - intros Hd. rewrite (IH Hd) at 1. apply Permutation_swap.
Qed.

Lemma erase_None l it : deref l it = None → erase l it = l.
Proof.
  induction l as [| [i e] l IH]; simpl; [reflexivity |].
  destruct (i =? it); [discriminate |]. intros Hd. f_equal. auto.
Qed.

Lemma erase_not_elem l it kv : NoDup (ids l) → (it, kv) ∉ erase l it.
Proof.
  intros Hnd Hin.
  destruct (deref l it) as [kv' |] eqn:Hd.
  - pose proof (erase_perm l it kv' Hd) as Hp.
    assert (Hnd' : NoDup (ids ((it, kv') :: erase l it))).
    { unfold ids. rewrite <- Hp. exact Hnd. }
    unfold ids in Hnd'. rewrite fmap_cons in Hnd'. apply NoDup_cons in Hnd' as [Hni _].
    apply Hni. apply list_elem_of_fmap. exists (it, kv). auto.
  - rewrite erase_None in Hin by assumption.
    apply (deref_elem l it kv Hnd) in Hin. congruence.
Qed.

Lemma erase_elem l it j kv :
  NoDup (ids l) → (j, kv) ∈ erase l it ↔ (j, kv) ∈ l ∧ j ≠ it.
Proof.
  intros Hnd. split.
  - intros Hin. split.
    + eapply elem_of_sublist; [exact Hin | apply erase_sublist].
    + intros ->. eapply erase_not_elem; eauto.
  - intros [Hin Hne].
    destruct (deref l it) as [kv' |] eqn:Hd.
    + rewrite (erase_perm l it kv' Hd) in Hin.
      apply elem_of_cons in Hin as [[= -> ->] | Hin]; [congruence | assumption].
    + rewrite erase_None by assumption. assumption.
Qed.

Lemma erase_elem_ex l it j k :
  NoDup (ids l) →
  (∃ v, (j, (k, v)) ∈ erase l it) ↔ (∃ v, (j, (k, v)) ∈ l ∧ j ≠ it).
Proof. intros Hnd. setoid_rewrite (erase_elem l it j _ Hnd). reflexivity. Qed.

Lemma erase_length l it kv : deref l it = Some kv → S (length (erase l it)) = length l.
Proof. intros Hd. rewrite (erase_perm l it kv Hd) at 2. reflexivity. Qed.

Lemma ids_assign l it v : ids (assign l it v) = ids l.
Proof.
  unfold ids. induction l as [| [i [k w]] l IH]; simpl; [reflexivity |].
  destruct (i =? it); simpl; [reflexivity | f_equal; exact IH].
Qed.

Lemma keys_assign l it v : keys (assign l it v) = keys l.
Proof.
  unfold keys. induction l as [| [i [k w]] l IH]; simpl; [reflexivity |].
  destruct (i =? it); simpl; [reflexivity | f_equal; exact IH].
Qed.

Lemma length_assign l it v : length (assign l it v) = length l.
Proof.
  rewrite <- (length_fmap fst (assign l it v)), <- (length_fmap fst l).
  f_equal. apply ids_assign.
Qed.

Lemma deref_assign l it k v v' :
  deref l it = Some (k, v) → deref (assign l it v') it = Some (k, v').
Proof.
  induction l as [| [i [k0 w]] l IH]; simpl; [discriminate |].
  destruct (Nat.eqb_spec i it) as [-> | Hne]; simpl.
  - intros [= -> ->]. rewrite Nat.eqb_refl. reflexivity.
  - intros Hd. destruct (Nat.eqb_spec i it); [congruence | auto].
Qed.

Lemma deref_assign_ne l it j v' : j ≠ it → deref (assign l it v') j = deref l j.
Proof.
  intros Hne. induction l as [| [i [k0 w]] l IH]; simpl; [reflexivity |].
  destruct (Nat.eqb_spec i it) as [-> | Hne']; simpl.
  - destruct (Nat.eqb_spec it j); [congruence | reflexivity].
  - destruct (i =? j); [reflexivity | exact IH].
Qed.

Lemma elem_assign l it j k v v' :
  NoDup (ids l) →
  (j, (k, v)) ∈ assign l it v' ↔
  (j = it ∧ v = v' ∧ ∃ w, (it, (k, w)) ∈ l) ∨ (j ≠ it ∧ (j, (k, v)) ∈ l).
Proof.
  intros Hnd.
  assert (Hnd' : NoDup (ids (assign l it v'))) by (rewrite ids_assign; exact Hnd).
  split.
  - intros Hin. apply (deref_elem _ _ _ Hnd') in Hin.
    destruct (decide (j = it)) as [-> | Hne].
    + left. destruct (deref l it) as [[k0 w] |] eqn:Hd.
      * rewrite (deref_assign l it k0 w v' Hd) in Hin. injection Hin as -> ->.
        repeat split. exists w. apply deref_Some. exact Hd.
      * exfalso. apply deref_Some in Hin.
        assert (it ∈ ids l).
        { rewrite <- (ids_assign l it v'). apply list_elem_of_fmap. eexists; split; [| exact Hin]. reflexivity. }
        apply list_elem_of_fmap in H0 as ([i e] & -> & He). simpl in Hd.
        rewrite (deref_elem l i e Hnd He) in Hd. discriminate.
    + right. split; [assumption |]. rewrite deref_assign_ne in Hin by assumption.
      apply deref_Some. exact Hin.
  - intros [(-> & -> & w & Hin) | (Hne & Hin)]; apply deref_Some.
    + apply (deref_assign l it k w). apply deref_elem; assumption.
    + rewrite deref_assign_ne by assumption. apply deref_elem; assumption.
Qed.

Lemma elem_same_id l i e e' : NoDup (ids l) → (i, e) ∈ l → (i, e') ∈ l → e = e'.
Proof.
  intros Hnd H1 H2. apply (deref_elem l i e Hnd) in H1.
  apply (deref_elem l i e' Hnd) in H2. congruence.
Qed.

Lemma wf_same_key c i j k v v' :
  wf c → (i, (k, v)) ∈ list_ c → (j, (k, v')) ∈ list_ c → i = j.
Proof.
  intros Hwf H1 H2.
  assert (map_ c !! k = Some i) by (apply (wf_map c Hwf); eauto).
  assert (map_ c !! k = Some j) by (apply (wf_map c Hwf); eauto).
  congruence.
Qed.

Lemma wf_new cap c : new cap = inr c → wf c ∧ capacity_ c = cap ∧ list_ c = [].
Proof.
  unfold new. destruct (Nat.eqb_spec cap 0) as [-> | Hne]; [discriminate |].
  intros [= <-]. simpl. repeat split; simpl; try lia.
  - constructor.
  - rewrite lookup_empty. discriminate.
  - intros [v Hv]. inversion Hv.
  - intros i Hi. inversion Hi.
Qed.

Lemma wf_perm c c' :
  list_ c' ≡ₚ list_ c → map_ c' = map_ c → fresh_ c' = fresh_ c →
  capacity_ c' = capacity_ c → wf c → wf c'.
Proof.
  intros Hl Hm Hf Hc [Hids Hmap Hfresh Hsize Hcap].
  split; rewrite ?Hm, ?Hf, ?Hc.
  - unfold ids. rewrite Hl. exact Hids.
  - intros k i. rewrite Hmap. setoid_rewrite Hl. reflexivity.
  - intros i. unfold ids. rewrite Hl. apply Hfresh.
  - rewrite Hl. exact Hsize.
  - exact Hcap.
Qed.

Lemma wf_assign c c' it v :
  list_ c' = assign (list_ c) it v → map_ c' = map_ c → fresh_ c' = fresh_ c →
  capacity_ c' = capacity_ c → wf c → wf c'.
Proof.
  intros Hl Hm Hf Hc [Hids Hmap Hfresh Hsize Hcap].
  split; rewrite ?Hl, ?Hm, ?Hf, ?Hc, ?ids_assign, ?length_assign; try assumption.
  intros k i. rewrite Hmap. split.
  - intros [w Hw]. destruct (decide (i = it)) as [-> | Hne].
    + exists v. apply elem_assign; [assumption |]. left. eauto.
    + exists w. apply elem_assign; [assumption |]. right. eauto.
  - intros [w Hw]. apply elem_assign in Hw; [| assumption].
    destruct Hw as [(-> & -> & w' & Hw') | (_ & Hw)]; eauto.
Qed.

Lemma splice_front_hit l it kv :
  deref l it = Some kv → splice_front l it = (it, kv) :: erase l it.
Proof. unfold splice_front. intros ->. reflexivity. Qed.

Lemma splice_front_perm l it : splice_front l it ≡ₚ l.
Proof.
  unfold splice_front. destruct (deref l it) as [kv |] eqn:Hd; [| reflexivity].
  symmetry. apply erase_perm. exact Hd.
Qed.

Lemma wf_lookup c k it :
  wf c → map_ c !! k = Some it → ∃ v, deref (list_ c) it = Some (k, v).
Proof.
  intros Hwf Hm. apply (wf_map c Hwf) in Hm as [v Hv].
  exists v. apply deref_elem; [apply (wf_ids c Hwf) | exact Hv].
Qed.

Lemma wf_get c k : wf c → wf (get c k).2.
Proof.
  intros Hwf. unfold get. destruct (map_ c !! k) as [it |] eqn:Hm; simpl.
  - eapply wf_perm; [| | | | exact Hwf]; simpl; try reflexivity.
    apply splice_front_perm.
  - eapply wf_perm; [| | | | exact Hwf]; reflexivity.
Qed.

Lemma wf_evict c k : wf c → wf (evict c k).2.
Proof.
  intros Hwf. unfold evict. destruct (map_ c !! k) as [it |] eqn:Hm; simpl; [| exact Hwf].
  pose proof Hwf as [Hids Hmap Hfresh Hsize Hcap].
  destruct (wf_lookup c k it Hwf Hm) as [v Hd]. pose proof (deref_Some _ _ _ Hd) as Hin.
  split; simpl.
  - unfold ids. eapply sublist_NoDup; [exact Hids | apply fmap_sublist, erase_sublist].
  - intros k' i. rewrite erase_elem_ex by assumption. split.
    + intros Hl. apply lookup_delete_Some in Hl as [Hne Hl].
      apply Hmap in Hl as [w Hw]. exists w. split; [assumption |].
      intros ->. pose proof (elem_same_id _ _ _ _ Hids Hin Hw). congruence.
    + intros (w & Hw & Hne). apply lookup_delete_Some. split.
      * intros <-. apply Hne. eapply wf_same_key; eauto.
      * apply Hmap. eauto.
  - intros i Hi. apply Hfresh. unfold ids in *.
    eapply elem_of_sublist; [exact Hi |]. apply fmap_sublist, erase_sublist.
  - pose proof (erase_length _ _ _ Hd). lia.
  - exact Hcap.
Qed.

Lemma erase_assign l it v : erase (assign l it v) it = erase l it.
Proof.
  induction l as [| [i [k w]] l IH]; simpl; [reflexivity |].
  destruct (Nat.eqb_spec i it) as [-> | Hne]; simpl.
  - rewrite Nat.eqb_refl. reflexivity.
  - destruct (Nat.eqb_spec i it); [congruence |]. f_equal. exact IH.
Qed.

(** [put] of a key that is cached: the node gets the new value and moves to
    the front; nothing is evicted. *)
Lemma put_cached c k v it :
  wf c → map_ c !! k = Some it →
  list_ (put c k v).1 = (it, (k, v)) :: erase (list_ c) it
  ∧ map_ (put c k v).1 = map_ c
  ∧ fresh_ (put c k v).1 = fresh_ c
  ∧ capacity_ (put c k v).1 = capacity_ c
  ∧ (put c k v).2 = [].
Proof.
  intros Hwf Hm. destruct (wf_lookup c k it Hwf Hm) as [v0 Hd].
  unfold put. rewrite Hm. simpl.
  rewrite (splice_front_hit _ it (k, v)) by (eapply deref_assign; exact Hd).
  rewrite erase_assign. repeat split.
Qed.

(** [put] of a new key below capacity: a new node at the front. *)
Lemma put_new_room c k v :
  map_ c !! k = None → length (list_ c) ≠ capacity_ c →
  put c k v
  = ({| capacity_ := capacity_ c; list_ := (fresh_ c, (k, v)) :: list_ c;
        map_ := <[k := fresh_ c]> (map_ c); evict_cb_ := evict_cb_ c;
        hits_ := hits_ c; misses_ := misses_ c; fresh_ := S (fresh_ c) |}, []).
Proof.
  intros Hm Hlen. unfold put. rewrite Hm.
  destruct (Nat.eqb_spec (length (list_ c)) (capacity_ c)); [congruence | reflexivity].
Qed.

(** [put] of a new key at capacity: the back node is dropped first, and the
    callback, when set, is called once with its key and value. *)
Lemma put_new_full c k v rest j lk lv :
  map_ c !! k = None → length (list_ c) = capacity_ c →
  list_ c = rest ++ [(j, (lk, lv))] →
  put c k v
  = ({| capacity_ := capacity_ c; list_ := (fresh_ c, (k, v)) :: rest;
        map_ := <[k := fresh_ c]> (delete lk (map_ c)); evict_cb_ := evict_cb_ c;
        hits_ := hits_ c; misses_ := misses_ c; fresh_ := S (fresh_ c) |},
     if evict_cb_ c then [(lk, lv)] else []).
Proof.
  intros Hm Hlen Hl. unfold put. rewrite Hm.
  destruct (Nat.eqb_spec (length (list_ c)) (capacity_ c)); [| congruence].
  rewrite Hl, last_snoc, removelast_last. reflexivity.
Qed.

Lemma wf_nonempty c :
  wf c → length (list_ c) = capacity_ c →
  ∃ rest j lk lv, list_ c = rest ++ [(j, (lk, lv))].
Proof.
  intros Hwf Hlen. pose proof (wf_capacity c Hwf) as Hcap.
  destruct (last (list_ c)) as [[j [lk lv]] |] eqn:Hlast.
  - apply last_Some in Hlast as [rest ->]. eauto.
  - apply last_None in Hlast. rewrite Hlast in Hlen. simpl in Hlen. lia.
Qed.

Lemma wf_cons c c' k v :
  wf c → map_ c !! k = None → length (list_ c) < capacity_ c →
  list_ c' = (fresh_ c, (k, v)) :: list_ c →
  map_ c' = <[k := fresh_ c]> (map_ c) →
  fresh_ c' = S (fresh_ c) → capacity_ c' = capacity_ c → wf c'.
Proof.
  intros [Hids Hmap Hfresh Hsize Hcap] Hm Hlen Hl Hm' Hf Hc.
  split; rewrite ?Hl, ?Hm', ?Hf, ?Hc; simpl; try lia.
  - apply NoDup_cons. split; [| exact Hids].
    intros Hin. apply Hfresh in Hin. lia.
  - intros k' i. split.
    + intros Hlk. apply lookup_insert_Some in Hlk as [[<- <-] | [Hne Hlk]].
      * exists v. left.
      * apply Hmap in Hlk as [w Hw]. exists w. right. exact Hw.
    + intros [w Hw]. apply lookup_insert_Some.
      apply elem_of_cons in Hw as [[= -> -> ->] | Hw]; [left; done |].
      right. split; [| apply Hmap; eauto].
      intros <-. assert (map_ c !! k = Some i) by (apply Hmap; eauto). congruence.
  - intros i Hi. apply elem_of_cons in Hi as [-> | Hi]; [lia |].
    apply Hfresh in Hi. lia.
Qed.

Lemma wf_drop_last c c' rest j lk lv :
  wf c → list_ c = rest ++ [(j, (lk, lv))] →
  list_ c' = rest → map_ c' = delete lk (map_ c) →
  fresh_ c' = fresh_ c → capacity_ c' = capacity_ c →
  wf c' ∧ length (list_ c') < capacity_ c'.
Proof.
  intros Hwf Hl Hl' Hm' Hf Hc.
  pose proof Hwf as [Hids Hmap Hfresh Hsize Hcap].
  assert (Hsub : sublist rest (list_ c)).
  { rewrite Hl. apply sublist_inserts_r. reflexivity. }
  assert (Hlast : (j, (lk, lv)) ∈ list_ c).
  { rewrite Hl. apply elem_of_app. right. left. }
  assert (Hj : ∀ e, (j, e) ∉ rest).
  { intros e He. rewrite Hl in Hids. unfold ids in Hids.
    rewrite fmap_app in Hids. apply NoDup_app in Hids as (_ & Hdisj & _).
    apply (Hdisj j); [apply list_elem_of_fmap; exists (j, e); auto | left]. }
  split; [split |]; rewrite ?Hl', ?Hm', ?Hf, ?Hc.
  - unfold ids. eapply sublist_NoDup; [exact Hids | apply fmap_sublist, Hsub].
  - intros k i. split.
    + intros Hlk. apply lookup_delete_Some in Hlk as [Hne Hlk].
      apply Hmap in Hlk as [w Hw]. exists w. rewrite Hl in Hw.
      apply elem_of_app in Hw as [Hw | Hw]; [exact Hw |].
      apply list_elem_of_singleton in Hw. congruence.
    + intros [w Hw]. assert (Hw' : (i, (k, w)) ∈ list_ c).
      { eapply elem_of_sublist; eauto. }
      apply lookup_delete_Some. split; [| apply Hmap; eauto].
      intros <-. assert (i = j) by (eapply wf_same_key; eauto). subst i.
      eapply Hj; eauto.
  - intros i Hi. apply Hfresh. unfold ids in *.
    eapply elem_of_sublist; [exact Hi | apply fmap_sublist, Hsub].
  - apply sublist_length in Hsub. lia.
  - exact Hcap.
  - rewrite Hl in Hsize. rewrite length_app in Hsize. simpl in Hsize. lia.
Qed.

Lemma wf_put c k v : wf c → wf (put c k v).1.
Proof.
  intros Hwf. destruct (map_ c !! k) as [it |] eqn:Hm.
  - destruct (put_cached c k v it Hwf Hm) as (Hl & Hm' & Hf & Hc & _).
    destruct (wf_lookup c k it Hwf Hm) as [v0 Hd].
    set (c1 := {| capacity_ := capacity_ c; list_ := assign (list_ c) it v;
                  map_ := map_ c; evict_cb_ := evict_cb_ c; hits_ := hits_ c;
                  misses_ := misses_ c; fresh_ := fresh_ c |}).
    assert (Hwf1 : wf c1) by (eapply wf_assign; [| | | | exact Hwf]; reflexivity).
    eapply (wf_perm c1); [| exact Hm' | exact Hf | exact Hc | exact Hwf1].
    rewrite Hl. simpl. rewrite <- erase_assign with (v := v).
    symmetry. apply erase_perm. eapply deref_assign. exact Hd.
  - destruct (decide (length (list_ c) = capacity_ c)) as [Hfull | Hroom].
    + destruct (wf_nonempty c Hwf Hfull) as (rest & j & lk & lv & Hl).
      rewrite (put_new_full c k v rest j lk lv Hm Hfull Hl). simpl.
      set (c1 := {| capacity_ := capacity_ c; list_ := rest;
                    map_ := delete lk (map_ c); evict_cb_ := evict_cb_ c;
                    hits_ := hits_ c; misses_ := misses_ c; fresh_ := fresh_ c |}).
      destruct (wf_drop_last c c1 rest j lk lv Hwf Hl) as [Hwf1 Hlt]; try reflexivity.
      eapply (wf_cons c1); try reflexivity; try assumption.
      simpl. apply lookup_delete_None. right. exact Hm.
    + rewrite (put_new_room c k v Hm Hroom). simpl.
      pose proof (wf_size c Hwf).
      eapply (wf_cons c); try reflexivity; try assumption. lia.
Qed.

(** *** Recency order *)

Lemma last_touch_snoc ops o k :
  last_touch (ops ++ [o]) k = if touches o k then S (length ops) else last_touch ops k.
Proof.
  induction ops as [| a ops IH]; simpl.
  - destruct (touches o k); reflexivity.
  - rewrite IH. destruct (touches o k); [reflexivity |].
    destruct (last_touch ops k); reflexivity.
Qed.

Lemma last_touch_le ops k : last_touch ops k ≤ length ops.
Proof.
  induction ops as [| a ops IH]; simpl; [lia |].
  destruct (last_touch ops k); [destruct (touches a k) |]; lia.
Qed.

Lemma StronglySorted_sublist {A} (R : relation A) (l1 l2 : list A) :
  sublist l1 l2 → StronglySorted R l2 → StronglySorted R l1.
Proof.
  induction 1 as [| x l1 l2 Hsub IH | x l1 l2 Hsub IH]; intros Hs.
  - constructor.
  - apply StronglySorted_cons in Hs as [Hall Hs].
    apply StronglySorted_cons. split; [| auto].
    rewrite Forall_forall in *. intros y Hy. apply Hall.
    eapply elem_of_sublist; eauto.
  - apply StronglySorted_cons in Hs as [_ Hs]. auto.
Qed.

Lemma sorted_untouched ops o l :
  (∀ e, e ∈ l → touches o e.2.1 = false) →
  StronglySorted (newer ops) l → StronglySorted (newer (ops ++ [o])) l.
Proof.
  intros Hun Hs. induction Hs as [| e l Hs IH Hall]; [constructor |].
  constructor.
  - apply IH. intros e' He'. apply Hun. right. exact He'.
  - rewrite Forall_forall in *. intros e' He'. unfold newer.
    rewrite !last_touch_snoc, (Hun e), (Hun e') by (try left; right; assumption).
    apply Hall. exact He'.
Qed.

Lemma sorted_touch_front ops o l i k v :
  touches o k = true →
  (∀ e, e ∈ l → touches o e.2.1 = false) →
  StronglySorted (newer ops) l →
  StronglySorted (newer (ops ++ [o])) ((i, (k, v)) :: l).
Proof.
  intros Hk Hun Hs. constructor; [apply sorted_untouched; assumption |].
  rewrite Forall_forall. intros e He. unfold newer. simpl.
  rewrite !last_touch_snoc, Hk, (Hun e He).
  pose proof (last_touch_le ops e.2.1). lia.
Qed.

Lemma wf_no_key c k e : wf c → map_ c !! k = None → e ∈ list_ c → e.2.1 ≠ k.
Proof.
  intros Hwf Hm He Hk. destruct e as [i [k' v]]. simpl in Hk. subst k'.
  assert (map_ c !! k = Some i) by (apply (wf_map c Hwf); eauto). congruence.
Qed.

Lemma wf_erase_no_key c k it e :
  wf c → map_ c !! k = Some it → e ∈ erase (list_ c) it → e.2.1 ≠ k.
Proof.
  intros Hwf Hm He Hk. destruct e as [i [k' v]]. simpl in Hk. subst k'.
  apply erase_elem in He as [He Hne]; [| apply (wf_ids c Hwf)].
  assert (map_ c !! k = Some i) by (apply (wf_map c Hwf); eauto). congruence.
Qed.

Lemma step_sorted ops c o :
  wf c → StronglySorted (newer ops) (list_ c) →
  StronglySorted (newer (ops ++ [o])) (list_ (step c o)).
Proof.
  intros Hwf Hs. destruct o as [k | k v | k | |]; simpl;
    [| | | apply sorted_untouched; [intros; reflexivity | exact Hs] | constructor].
  - unfold get. destruct (map_ c !! k) as [it |] eqn:Hm; simpl.
    + destruct (wf_lookup c k it Hwf Hm) as [v Hd].
      rewrite (splice_front_hit _ _ _ Hd).
      apply sorted_touch_front.
      * simpl. apply bool_decide_eq_true. reflexivity.
      * intros e He. simpl. apply bool_decide_eq_false.
        intros Heq. eapply wf_erase_no_key; eauto.
      * eapply StronglySorted_sublist; [apply erase_sublist | exact Hs].
    + apply sorted_untouched; [| exact Hs].
      intros e He. simpl. apply bool_decide_eq_false.
      intros Heq. eapply wf_no_key; eauto.
  - destruct (map_ c !! k) as [it |] eqn:Hm.
    + destruct (put_cached c k v it Hwf Hm) as (-> & _).
      apply sorted_touch_front.
      * simpl. apply bool_decide_eq_true. reflexivity.
      * intros e He. simpl. apply bool_decide_eq_false.
        intros Heq. eapply wf_erase_no_key; eauto.
      * eapply StronglySorted_sublist; [apply erase_sublist | exact Hs].
    + destruct (decide (length (list_ c) = capacity_ c)) as [Hfull | Hroom].
      * destruct (wf_nonempty c Hwf Hfull) as (rest & j & lk & lv & Hl).
        rewrite (put_new_full c k v rest j lk lv Hm Hfull Hl). simpl.
        assert (Hsub : sublist rest (list_ c)).
        { rewrite Hl. apply sublist_inserts_r. reflexivity. }
        apply sorted_touch_front.
        -- simpl. apply bool_decide_eq_true. reflexivity.
        -- intros e He. simpl. apply bool_decide_eq_false.
           intros Heq. eapply (wf_no_key c k e); eauto.
           eapply elem_of_sublist; eauto.
        -- eapply StronglySorted_sublist; eauto.
      * rewrite (put_new_room c k v Hm Hroom). simpl.
        apply sorted_touch_front.
        -- simpl. apply bool_decide_eq_true. reflexivity.
        -- intros e He. simpl. apply bool_decide_eq_false.
           intros Heq. eapply (wf_no_key c k e); eauto.
        -- exact Hs.
  - apply sorted_untouched; [intros; reflexivity |].
    unfold evict. destruct (map_ c !! k) as [it |]; simpl; [| exact Hs].
    eapply StronglySorted_sublist; [apply erase_sublist | exact Hs].
Qed.

Lemma wf_clear c : wf c → wf (clear c).
Proof.
  intros [Hids Hmap Hfresh Hsize Hcap]. split; simpl; try lia.
  - constructor.
  - intros k i. rewrite lookup_empty. split; [discriminate |].
    intros [v Hv]. inversion Hv.
  - intros i Hi. inversion Hi.
Qed.

Lemma step_wf c o : wf c → wf (step c o).
Proof.
  destruct o; simpl; auto using wf_get, wf_put, wf_evict, wf_clear.
  intros Hwf. eapply wf_perm; [| | | | exact Hwf]; reflexivity.
Qed.

Lemma step_capacity c o : capacity_ (step c o) = capacity_ c.
Proof.
  destruct o as [k | k v | k | |]; simpl; [| | | reflexivity | reflexivity].
  - unfold get. destruct (map_ c !! k); reflexivity.
  - unfold put. destruct (map_ c !! k); [reflexivity |].
    destruct (length (list_ c) =? capacity_ c); [| reflexivity].
    destruct (last (list_ c)) as [[? [? ?]] |]; reflexivity.
  - unfold evict. destruct (map_ c !! k); reflexivity.
Qed.

Lemma run_snoc c ops o : run c (ops ++ [o]) = step (run c ops) o.
Proof. unfold run. rewrite fold_left_app. reflexivity. Qed.

Lemma run_invariant cap c0 ops :
  new cap = inr c0 →
  wf (run c0 ops) ∧ capacity_ (run c0 ops) = cap
  ∧ StronglySorted (newer ops) (list_ (run c0 ops)).
Proof.
  intros Hnew. destruct (wf_new cap c0 Hnew) as (Hwf0 & Hcap0 & Hl0).
  induction ops as [| o ops IH] using rev_ind.
  - simpl. rewrite Hl0. split; [exact Hwf0 |]. split; [exact Hcap0 | constructor].
  - destruct IH as (Hwf & Hcap & Hs). rewrite run_snoc.
    split; [| split].
    + apply step_wf. exact Hwf.
    + rewrite step_capacity. exact Hcap.
    + apply step_sorted; assumption.
Qed.

Lemma contains_spec c k : wf c → contains c k = true ↔ k ∈ keys (list_ c).
Proof.
  intros Hwf. unfold contains. rewrite bool_decide_eq_true. unfold keys. split.
  - intros [i Hi]. apply (wf_map c Hwf) in Hi as [v Hv].
    apply list_elem_of_fmap. exists (i, (k, v)). auto.
  - intros Hk. apply list_elem_of_fmap in Hk as ([i [k' v]] & -> & He).
    exists i. apply (wf_map c Hwf). eauto.
Qed.

Lemma contains_false c k : contains c k = false ↔ map_ c !! k = None.
Proof.
  unfold contains. rewrite bool_decide_eq_false, <- eq_None_not_Some. reflexivity.
Qed.

Lemma full_put_spec cap c0 ops k v :
  new cap = inr c0 →
  contains (run c0 ops) k = false → size (run c0 ops) = cap →
  ∃ rest j lk lv,
    list_ (run c0 ops) = rest ++ [(j, (lk, lv))]
    ∧ list_ (put (run c0 ops) k v).1 = (fresh_ (run c0 ops), (k, v)) :: rest
    ∧ (put (run c0 ops) k v).2 = (if evict_cb_ (run c0 ops) then [(lk, lv)] else [])
    ∧ size (put (run c0 ops) k v).1 = cap
    ∧ (∀ k', contains (run c0 ops) k' = true → last_touch ops lk ≤ last_touch ops k')
    ∧ (∀ k', contains (put (run c0 ops) k v).1 k' = true
             ↔ k' = k ∨ (k' ≠ lk ∧ contains (run c0 ops) k' = true)).
Proof.
  intros Hnew Hk Hsize.
  destruct (run_invariant cap c0 ops Hnew) as (Hwf & Hcap & Hs).
  set (c := run c0 ops) in *.
  apply contains_false in Hk. unfold size in Hsize.
  assert (Hfull : length (list_ c) = capacity_ c) by lia.
  destruct (wf_nonempty c Hwf Hfull) as (rest & j & lk & lv & Hl).
  exists rest, j, lk, lv.
  pose proof (wf_put c k v Hwf) as Hwf'.
  rewrite (put_new_full c k v rest j lk lv Hk Hfull Hl) in *. simpl in *.
  split; [exact Hl |]. split; [reflexivity |]. split; [reflexivity |].
  rewrite Hl in Hs. apply StronglySorted_app in Hs as (Hlt & _ & _).
  split; [| split].
  - unfold size. simpl. rewrite Hl, length_app in Hsize. simpl in Hsize. lia.
  - intros k' Hk'. apply contains_spec in Hk'; [| exact Hwf].
    unfold keys in Hk'. rewrite Hl, fmap_app in Hk'.
    apply elem_of_app in Hk' as [Hk' | Hk'].
    + apply list_elem_of_fmap in Hk' as (e & -> & He).
      specialize (Hlt e (j, (lk, lv)) He). unfold newer in Hlt. simpl in Hlt.
      assert ((j, (lk, lv)) ∈ [(j, (lk, lv))]) as Hin by left.
      specialize (Hlt Hin). lia.
    + simpl in Hk'. apply list_elem_of_singleton in Hk'. subst k'. lia.
  - intros k'. rewrite (contains_spec _ k' Hwf'), (contains_spec c k' Hwf).
    unfold keys. simpl. rewrite Hl, fmap_app. simpl.
    rewrite elem_of_cons, elem_of_app, list_elem_of_singleton.
    split.
    + intros [-> | Hin]; [left; reflexivity | right].
      split; [| left; exact Hin].
      apply list_elem_of_fmap in Hin as (e & -> & He).
      specialize (Hlt e (j, (lk, lv)) He). unfold newer in Hlt. simpl in Hlt.
      intros Heq. rewrite Heq in Hlt.
      assert ((j, (lk, lv)) ∈ [(j, (lk, lv))]) as Hin by left.
      specialize (Hlt Hin). lia.
    + intros [-> | [Hne [Hin | ->]]]; [left; reflexivity | right; exact Hin | congruence].
Qed.

(** *** What the cache holds for a key *)

(** The value cached for [k], read without touching recency or counters. *)
Definition peek c (k : Key) : option Value :=
  match map_ c !! k with
  | Some it => snd <$> deref (list_ c) it
  | None => None
  end.

Lemma peek_elem c k v : wf c → peek c k = Some v ↔ ∃ i, (i, (k, v)) ∈ list_ c.
Proof.
  intros Hwf. unfold peek. split.
  - destruct (map_ c !! k) as [it |] eqn:Hm; [| discriminate].
    destruct (wf_lookup c k it Hwf Hm) as [v0 Hd]. rewrite Hd. simpl.
    intros [= <-]. exists it. apply deref_Some. exact Hd.
  - intros [i Hi].
    assert (Hm : map_ c !! k = Some i) by (apply (wf_map c Hwf); eauto).
    rewrite Hm, (deref_elem _ _ _ (wf_ids c Hwf) Hi). reflexivity.
Qed.

Lemma peek_None c k : wf c → peek c k = None ↔ map_ c !! k = None.
Proof.
  intros Hwf. unfold peek. destruct (map_ c !! k) as [it |] eqn:Hm; [| tauto].
  destruct (wf_lookup c k it Hwf Hm) as [v0 Hd]. rewrite Hd. simpl.
  split; discriminate.
Qed.

Lemma contains_peek c k : wf c → contains c k = true ↔ is_Some (peek c k).
Proof.
  intros Hwf. unfold contains. rewrite bool_decide_eq_true.
  rewrite <- !not_eq_None_Some, (peek_None c k Hwf). reflexivity.
Qed.

(** [get] returns the cached value and changes no cached value. *)
Lemma get_peek c k :
  wf c → (get c k).1 = peek c k ∧ ∀ k', peek (get c k).2 k' = peek c k'.
Proof.
  intros Hwf. unfold get, peek at 1.
  destruct (map_ c !! k) as [it |] eqn:Hm; [| split; reflexivity].
  destruct (wf_lookup c k it Hwf Hm) as [v Hd].
  rewrite (splice_front_hit _ _ _ Hd). cbn [fst snd].
  assert (Hnd : NoDup (ids ((it, (k, v)) :: erase (list_ c) it))).
  { unfold ids. rewrite <- (erase_perm _ _ _ Hd). apply (wf_ids c Hwf). }
  split.
  - rewrite Hd. erewrite deref_elem; [reflexivity | exact Hnd | left].
  - intros k'. unfold peek. cbn [map_ list_].
    destruct (map_ c !! k') as [it' |] eqn:Hm'; [| reflexivity].
    destruct (wf_lookup c k' it' Hwf Hm') as [v' Hd']. rewrite Hd'.
    erewrite deref_elem; [reflexivity | exact Hnd |].
    rewrite <- (erase_perm _ _ _ Hd). apply deref_Some. exact Hd'.
Qed.

(** After [put k v] the cache holds [v] for [k]; any other key it holds was
    held before with the same value. *)
Lemma put_peek c k v :
  wf c →
  peek (put c k v).1 k = Some v
  ∧ ∀ k' v', k' ≠ k → peek (put c k v).1 k' = Some v' → peek c k' = Some v'.
Proof.
  intros Hwf. pose proof (wf_put c k v Hwf) as Hwf'.
  rewrite (peek_elem _ k v Hwf').
  assert (Hin : ∃ l', list_ (put c k v).1 = (match map_ c !! k with
                                              | Some it => it | None => fresh_ c end,
                                             (k, v)) :: l'
                      ∧ ∀ e, e ∈ l' → e ∈ list_ c).
  { destruct (map_ c !! k) as [it |] eqn:Hm.
    - destruct (put_cached c k v it Hwf Hm) as (-> & _). eexists. split; [reflexivity |].
      intros e He. eapply elem_of_sublist; [exact He | apply erase_sublist].
    - destruct (decide (length (list_ c) = capacity_ c)) as [Hfull | Hroom].
      + destruct (wf_nonempty c Hwf Hfull) as (rest & j & lk & lv & Hl).
        rewrite (put_new_full c k v rest j lk lv Hm Hfull Hl). simpl.
        eexists. split; [reflexivity |]. intros e He. rewrite Hl.
        apply elem_of_app. left. exact He.
      + rewrite (put_new_room c k v Hm Hroom). simpl.
        eexists. split; [reflexivity |]. auto. }
  destruct Hin as (l' & Hl' & Hsub). split.
  - eexists. rewrite Hl'. left.
  - intros k' v' Hne Hp. apply (peek_elem _ k' v' Hwf') in Hp as [i Hi].
    rewrite Hl' in Hi. apply elem_of_cons in Hi as [[= _ -> _] | Hi]; [congruence |].
    apply (peek_elem c k' v' Hwf). eauto.
Qed.

(** After [evict k] the cache holds nothing for [k], and what it holds for
    another key it held before. *)
Lemma evict_peek c k :
  wf c →
  peek (evict c k).2 k = None
  ∧ ∀ k' v', peek (evict c k).2 k' = Some v' → peek c k' = Some v'.
Proof.
  intros Hwf. pose proof (wf_evict c k Hwf) as Hwf'. split.
  - apply (peek_None _ k Hwf'). unfold evict.
    destruct (map_ c !! k) as [it |] eqn:Hm; simpl; [apply lookup_delete_eq | exact Hm].
  - intros k' v' Hp. apply (peek_elem _ k' v' Hwf') in Hp as [i Hi].
    apply (peek_elem c k' v' Hwf). exists i. revert Hi. unfold evict.
    destruct (map_ c !! k) as [it |]; simpl; [| auto].
    intros Hi. eapply elem_of_sublist; [exact Hi | apply erase_sublist].
Qed.

End LRUFacts.

Arguments op : clear implicits.

(** The scenario of the LRU unit test, on integer keys and values. *)
Definition eviction_scenario : list (op Z Z) :=
  [Put 1%Z 1%Z; Put 2%Z 2%Z; Put 3%Z 3%Z; Get 1%Z; Put 4%Z 4%Z].

(** C4.  A cache built with capacity [cap] never holds more than [cap]
    entries, whatever [get]/[put]/[evict] calls follow.  A [put] of a key
    that is not cached, when the cache is full, drops exactly the back node
    of the list, and that node is the entry whose last [get] or [put] is the
    oldest among all cached keys; every other entry stays.  With capacity 3,
    after put 1, put 2, put 3, get 1, put 4 key 2 is gone and keys 1, 3, 4
    remain. *)
Theorem lru_capacity_and_eviction_order :
  (∀ (Key : Type) `{Countable Key} (Value : Type)
     (cap : nat) (c0 : t Key Value) (ops : list (op Key Value)),
      new cap = inr c0 →
      size (run c0 ops) ≤ cap
      ∧ ∀ k v,
          contains (run c0 ops) k = false → size (run c0 ops) = cap →
          ∃ rest j lk lv,
            list_ (run c0 ops) = rest ++ [(j, (lk, lv))]
            ∧ list_ (put (run c0 ops) k v).1 = (fresh_ (run c0 ops), (k, v)) :: rest
            ∧ (put (run c0 ops) k v).2
              = (if evict_cb_ (run c0 ops) then [(lk, lv)] else [])
            ∧ size (put (run c0 ops) k v).1 = cap
            ∧ (∀ k', contains (run c0 ops) k' = true →
                     last_touch ops lk ≤ last_touch ops k')
            ∧ (∀ k', contains (put (run c0 ops) k v).1 k' = true
                     ↔ k' = k ∨ (k' ≠ lk ∧ contains (run c0 ops) k' = true)))
  ∧ (∀ c0 : t Z Z,
      new 3 = inr c0 →
      contains (run c0 eviction_scenario) 2%Z = false
      ∧ keys (list_ (run c0 eviction_scenario)) = [4%Z; 1%Z; 3%Z]
      ∧ contains (run c0 eviction_scenario) 1%Z = true
      ∧ contains (run c0 eviction_scenario) 3%Z = true
      ∧ contains (run c0 eviction_scenario) 4%Z = true).
Proof.
  split.
  - intros Key ? ? Value cap c0 ops Hnew. split.
    + destruct (run_invariant cap c0 ops Hnew) as (Hwf & Hcap & _).
      pose proof (wf_size _ Hwf). unfold size. lia.
    + intros k v. apply full_put_spec. exact Hnew.
  - intros c0 [= <-]. repeat split; vm_compute; reflexivity.
Qed.

Lemma lru_capacity_and_eviction_order_witness :
  new (Key := Z) (Value := Z) 3 = inr (mk 3 [] ∅ false 0%Z 0%Z 0)
  ∧ contains (run (mk 3 [] ∅ false 0%Z 0%Z 0) eviction_scenario) 2%Z = false.
Proof.
  split; [reflexivity |].
  exact (proj1 (proj2 lru_capacity_and_eviction_order _ eq_refl)).
Defined.
End LRUFacts.

(** ** Facts about the B+Tree *)

Module BPlusTreeFacts.
Import BPlusTree.

Section Views.
Context {Value : Type}.
Implicit Types (n c : Node Value) (cs : list (Node Value)) (ks : list Z).
Implicit Types (s : list (Z * Value)).

Lemma Node_ind' (P : Node Value → Prop) :
  (∀ a s nx, P (Leaf a s nx)) →
  (∀ ks cs, Forall P cs → P (Internal ks cs)) →
  ∀ n, P n.
Proof.
  intros HL HI. fix IH 1. intros [a s nx | ks cs]; [apply HL | apply HI].
  induction cs as [| c cs IHcs]; constructor; [apply IH | exact IHcs].
Qed.

(** A leaf as it sits in memory: address, slots, [next_leaf]. *)
Local Abbreviation LeafCell := (nat * list (Z * Value) * option nat)%type.
Definition cell_addr (l : LeafCell) : nat := l.1.1.
Definition cell_slots (l : LeafCell) : list (Z * Value) := l.1.2.
Definition cell_next (l : LeafCell) : option nat := l.2.

(** The leaves of a subtree, left to right. *)
Fixpoint leaves n : list LeafCell :=
  match n with
  | Leaf a s nx => [(a, s, nx)]
  | Internal _ cs => concat (leaves <$> cs)
  end.

Definition leaf_slots (L : list LeafCell) : list (Z * Value) :=
  concat (cell_slots <$> L).

(** The key/value pairs of a subtree, left to right. *)
Definition entries n : list (Z * Value) := leaf_slots (leaves n).

Definition children_leaves cs : list LeafCell := concat (leaves <$> cs).
Definition children_entries cs : list (Z * Value) := leaf_slots (children_leaves cs).

(** [chain_from p L q]: following [next_leaf] from pointer [p] visits the
    cells of [L] in order and ends with pointer [q]. *)
Fixpoint chain_from (p : option nat) (L : list LeafCell) (q : option nat) : Prop :=
  match L with
  | [] => p = q
  | l :: L' => p = Some (cell_addr l) ∧ chain_from (cell_next l) L' q
  end.

Definition above (lo : option Z) (k : Z) : Prop :=
  match lo with Some l => l ≤ k | None => True end.
Definition below (hi : option Z) (k : Z) : Prop :=
  match hi with Some h => k < h | None => True end.
Definition under (hi : option Z) (k : Z) : Prop :=
  match hi with Some h => k ≤ h | None => True end.

(** The search-tree invariant between bounds: leaf keys strictly increase
    and lie in [lo, hi); the i-th child of an internal node lies between
    the separators around it. *)
Inductive ok : option Z → option Z → Node Value → Prop :=
| ok_leaf lo hi a s nx :
    StronglySorted Z.lt (s.*1) →
    Forall (λ k, above lo k ∧ below hi k) (s.*1) →
    ok lo hi (Leaf a s nx)
| ok_internal lo hi ks cs :
    ok_children lo hi ks cs → ok lo hi (Internal ks cs)
with ok_children : option Z → option Z → list Z → list (Node Value) → Prop :=
| okc_last lo hi c :
    ok lo hi c → ok_children lo hi [] [c]
| okc_cons lo hi k ks c cs :
    ok lo (Some k) c → above lo k → under hi k →
    ok_children (Some k) hi ks cs →
    ok_children lo hi (k :: ks) (c :: cs).

Scheme ok_mut := Minimality for ok Sort Prop
  with ok_children_mut := Minimality for ok_children Sort Prop.
Combined Scheme ok_mutind from ok_mut, ok_children_mut.

Ltac fold_children_leaves :=
  repeat match goal with
         | |- context [concat (leaves <$> ?x)] =>
             change (concat (leaves <$> x)) with (children_leaves x)
         end.

Lemma leaf_slots_app (L1 L2 : list LeafCell) :
  leaf_slots (L1 ++ L2) = leaf_slots L1 ++ leaf_slots L2.
Proof. unfold leaf_slots. rewrite fmap_app, concat_app. reflexivity. Qed.

Lemma leaf_slots_cons (l : LeafCell) (L : list LeafCell) :
  leaf_slots (l :: L) = cell_slots l ++ leaf_slots L.
Proof. reflexivity. Qed.

Lemma children_leaves_app cs1 cs2 :
  children_leaves (cs1 ++ cs2) = children_leaves cs1 ++ children_leaves cs2.
Proof. unfold children_leaves. rewrite fmap_app, concat_app. reflexivity. Qed.

Lemma children_leaves_cons c cs :
  children_leaves (c :: cs) = leaves c ++ children_leaves cs.
Proof. reflexivity. Qed.

Lemma children_entries_app cs1 cs2 :
  children_entries (cs1 ++ cs2) = children_entries cs1 ++ children_entries cs2.
Proof. unfold children_entries. rewrite children_leaves_app, leaf_slots_app. reflexivity. Qed.

Lemma children_entries_cons c cs :
  children_entries (c :: cs) = entries c ++ children_entries cs.
Proof.
  unfold children_entries, entries. rewrite children_leaves_cons, leaf_slots_app.
  reflexivity.
Qed.

Lemma chain_from_app p L1 L2 q :
  chain_from p (L1 ++ L2) q ↔ ∃ m, chain_from p L1 m ∧ chain_from m L2 q.
Proof.
  revert p. induction L1 as [| l L1 IH]; intros p; simpl.
  - split; [intros Hc; exists p; auto | intros (m & -> & Hc); exact Hc].
  - rewrite IH. split.
    + intros (Hp & m & H1 & H2). exists m. auto.
    + intros (m & (Hp & H1) & H2). split; [exact Hp |]. exists m. auto.
Qed.

Lemma above_trans lo k k' : above lo k → k ≤ k' → above lo k'.
Proof. destruct lo; simpl; lia. Qed.

Lemma below_under hi k : below hi k → under hi k.
Proof. destruct hi; simpl; lia. Qed.

Lemma below_trans hi k k' : under hi k → k' < k → below hi k'.
Proof. destruct hi; simpl; lia. Qed.

Lemma ok_children_length lo hi ks cs :
  ok_children lo hi ks cs → length cs = S (length ks).
Proof. induction 1; simpl; congruence. Qed.

(** Every key of a subtree lies between the bounds of the subtree. *)
Lemma ok_bounds_mut :
  (∀ lo hi n, ok lo hi n →
     Forall (λ e, above lo e.1 ∧ below hi e.1) (entries n))
  ∧ (∀ lo hi ks cs, ok_children lo hi ks cs →
     Forall (λ e, above lo e.1 ∧ below hi e.1) (children_entries cs)).
Proof.
  apply ok_mutind.
  - intros lo hi a s nx _ Hb. unfold entries, leaf_slots. simpl.
    rewrite app_nil_r. rewrite Forall_fmap in Hb. exact Hb.
  - intros lo hi ks cs _ IH. exact IH.
  - intros lo hi c _ IH. rewrite children_entries_cons.
    unfold children_entries at 1. simpl. rewrite app_nil_r. exact IH.
  - intros lo hi k ks c cs _ IHc Hlo Hhi _ IHcs.
    rewrite children_entries_cons. apply Forall_app. split.
    + eapply Forall_impl; [exact IHc |]. simpl. intros e [H1 H2].
      split; [exact H1 |]. eapply below_trans; eauto.
    + eapply Forall_impl; [exact IHcs |]. simpl. intros e [H1 H2].
      split; [| exact H2]. eapply above_trans; eauto.
Qed.

Lemma ok_bounds lo hi n :
  ok lo hi n → Forall (λ e, above lo e.1 ∧ below hi e.1) (entries n).
Proof. apply ok_bounds_mut. Qed.

Lemma ok_children_bounds lo hi ks cs :
  ok_children lo hi ks cs →
  Forall (λ e, above lo e.1 ∧ below hi e.1) (children_entries cs).
Proof. apply ok_bounds_mut. Qed.

(** The keys of a subtree strictly increase from left to right. *)
Lemma ok_sorted_mut :
  (∀ lo hi n, ok lo hi n → StronglySorted Z.lt (entries n).*1)
  ∧ (∀ lo hi ks cs, ok_children lo hi ks cs →
     StronglySorted Z.lt (children_entries cs).*1).
Proof.
  apply ok_mutind.
  - intros lo hi a s nx Hs _. unfold entries, leaf_slots. simpl.
    rewrite app_nil_r. exact Hs.
  - intros lo hi ks cs _ IH. exact IH.
  - intros lo hi c _ IH. rewrite children_entries_cons.
    unfold children_entries at 1. simpl. rewrite app_nil_r. exact IH.
  - intros lo hi k ks c cs Hc IHc Hlo Hhi Hcs IHcs.
    rewrite children_entries_cons, fmap_app. apply StronglySorted_app_2; [| assumption..].
    intros x1 x2 H1 H2.
    apply list_elem_of_fmap in H1 as (e1 & -> & H1).
    apply list_elem_of_fmap in H2 as (e2 & -> & H2).
    pose proof (ok_bounds _ _ _ Hc) as Hb1.
    pose proof (ok_children_bounds _ _ _ _ Hcs) as Hb2.
    rewrite Forall_forall in Hb1, Hb2.
    destruct (Hb1 e1 H1) as [_ Hlt]. destruct (Hb2 e2 H2) as [Hge _].
    simpl in *. lia.
Qed.

Lemma ok_sorted lo hi n : ok lo hi n → StronglySorted Z.lt (entries n).*1.
Proof. apply ok_sorted_mut. Qed.

Lemma under_trans hi k k' : under hi k → k' ≤ k → under hi k'.
Proof. destruct hi; simpl; lia. Qed.

(** The child an upper-bound descent for [key] enters, with the bounds it
    lives between, what lies left and right of it, and how the node is
    rebuilt around a replaced or split child. *)
Lemma focus_upper lo hi ks cs key :
  ok_children lo hi ks cs → above lo key → below hi key →
  ∃ cs1 c cs2 ks1 ks2 lo' hi',
    cs = cs1 ++ c :: cs2 ∧ ks = ks1 ++ ks2
    ∧ length cs1 = upper_bound_idx ks key ∧ length ks1 = upper_bound_idx ks key
    ∧ ok lo' hi' c ∧ above lo' key ∧ below hi' key
    ∧ Forall (λ e, e.1 < key) (children_entries cs1)
    ∧ Forall (λ e, key < e.1) (children_entries cs2)
    ∧ (∀ c', ok lo' hi' c' → ok_children lo hi ks (cs1 ++ c' :: cs2))
    ∧ (∀ c1 c2 pk,
          ok lo' (Some pk) c1 → ok (Some pk) hi' c2 → above lo' pk → under hi' pk →
          ok_children lo hi (ks1 ++ pk :: ks2) (cs1 ++ c1 :: c2 :: cs2)).
Proof.
  induction 1 as [lo hi c Hc | lo hi k ks c cs Hc Hlo Hhi Hcs IH]; intros Hab Hbe.
  - exists [], c, [], [], [], lo, hi. simpl.
    split_and!; try done.
    + intros c' Hc'. constructor. exact Hc'.
    + intros c1 c2 pk H1 H2 Hl Hu. constructor; [assumption.. |].
      constructor. exact H2.
  - simpl. destruct (Z.geb_spec key k) as [Hge | Hlt].
    + destruct IH as (cs1 & c0 & cs2 & ks1 & ks2 & lo' & hi' & -> & -> & Hl1 & Hl2
                      & Hc0 & Hab' & Hbe' & Hleft & Hright & Hrep & Hsplit);
        [simpl; lia | exact Hbe |].
      exists (c :: cs1), c0, cs2, (k :: ks1), ks2, lo', hi'. simpl.
      split_and!; try done; try congruence.
      * rewrite children_entries_cons. apply Forall_app. split; [| exact Hleft].
        eapply Forall_impl; [apply (ok_bounds _ _ _ Hc) |].
        simpl. intros e [_ He]. lia.
      * intros c' Hc'. constructor; auto.
      * intros c1 c2 pk H1 H2 Hl Hu. constructor; auto.
    + exists [], c, cs, [], (k :: ks), lo, (Some k). simpl.
      split_and!; try done.
      * eapply Forall_impl; [apply (ok_children_bounds _ _ _ _ Hcs) |].
        simpl. intros e [He _]. lia.
      * intros c' Hc'. constructor; auto.
      * intros c1 c2 pk H1 H2 Hl Hu. simpl in Hu.
        constructor; [assumption | assumption | eapply under_trans; eauto |].
        constructor; [assumption | simpl; lia | assumption | assumption].
Qed.

(** The child a lower-bound descent for [key] enters: everything to its
    left is smaller than [key]. *)
Lemma focus_lower lo hi ks cs key :
  ok_children lo hi ks cs →
  ∃ cs1 c cs2 lo' hi',
    cs = cs1 ++ c :: cs2 ∧ length cs1 = lower_bound_idx ks key
    ∧ ok lo' hi' c
    ∧ Forall (λ e, e.1 < key) (children_entries cs1).
Proof.
  induction 1 as [lo hi c Hc | lo hi k ks c cs Hc Hlo Hhi Hcs IH].
  - exists [], c, [], lo, hi. simpl. split_and!; try done.
  - simpl. destruct (Z.gtb_spec key k) as [Hgt | Hle].
    + destruct IH as (cs1 & c0 & cs2 & lo' & hi' & -> & Hl1 & Hc0 & Hleft).
      exists (c :: cs1), c0, cs2, lo', hi'. simpl.
      split_and!; try done; try congruence.
      rewrite children_entries_cons. apply Forall_app. split; [| exact Hleft].
      eapply Forall_impl; [apply (ok_bounds _ _ _ Hc) |].
      simpl. intros e [_ He]. lia.
    + exists [], c, cs, lo, (Some k). simpl. split_and!; try done.
Qed.

Lemma lookup_middle {A} (l1 l2 : list A) (x : A) i :
  length l1 = i → (l1 ++ x :: l2) !! i = Some x.
Proof. intros <-. apply list_lookup_middle. reflexivity. Qed.

Lemma insert_middle {A} (l1 l2 : list A) (x y : A) i :
  length l1 = i → <[i := y]> (l1 ++ x :: l2) = l1 ++ y :: l2.
Proof.
  intros <-. rewrite insert_app_r_alt by lia.
  rewrite Nat.sub_diag. reflexivity.
Qed.

Lemma take_middle {A} (l1 l2 : list A) i : length l1 = i → take i (l1 ++ l2) = l1.
Proof. intros <-. apply take_app_length. Qed.

Lemma drop_middle {A} (l1 l2 : list A) i : length l1 = i → drop i (l1 ++ l2) = l2.
Proof. intros <-. apply drop_app_length. Qed.

Lemma take_S_middle {A} (l1 l2 : list A) (x : A) i :
  length l1 = i → take (S i) (l1 ++ x :: l2) = l1 ++ [x].
Proof.
  intros <-. rewrite (cons_middle x l1 l2), app_assoc.
  apply take_middle. rewrite length_app. simpl. lia.
Qed.

Lemma drop_S_middle {A} (l1 l2 : list A) (x : A) i :
  length l1 = i → drop (S i) (l1 ++ x :: l2) = l2.
Proof.
  intros <-. rewrite (cons_middle x l1 l2), app_assoc.
  apply drop_middle. rewrite length_app. simpl. lia.
Qed.


Lemma StronglySorted_sublist_lt (l1 l2 : list Z) :
  sublist l1 l2 → StronglySorted Z.lt l2 → StronglySorted Z.lt l1.
Proof.
  induction 1 as [| x l1 l2 Hsub IH | x l1 l2 Hsub IH]; intros Hs.
  - constructor.
  - apply StronglySorted_cons in Hs as [Hall Hs].
    apply StronglySorted_cons. split; [| auto].
    rewrite Forall_forall in *. intros y Hy. apply Hall.
    eapply elem_of_sublist; eauto.
  - apply StronglySorted_cons in Hs as [_ Hs]. auto.
Qed.

Lemma Forall_sublist {A} (P : A → Prop) (l1 l2 : list A) :
  sublist l1 l2 → Forall P l2 → Forall P l1.
Proof.
  intros Hsub. rewrite !Forall_forall. intros H x Hx. apply H.
  eapply elem_of_sublist; eauto.
Qed.

(** *** Slot-array operations on concatenations *)

Lemma Forall_lt_ne (E : list (Z * Value)) key :
  Forall (λ e, e.1 < key) E → Forall (λ e, e.1 ≠ key) E.
Proof. intros H. eapply Forall_impl; [exact H |]. simpl. intros e He. lia. Qed.

Lemma Forall_gt_ne (E : list (Z * Value)) key :
  Forall (λ e, key < e.1) E → Forall (λ e, e.1 ≠ key) E.
Proof. intros H. eapply Forall_impl; [exact H |]. simpl. intros e He. lia. Qed.

Lemma find_slot_absent (E : list (Z * Value)) key :
  Forall (λ e, e.1 ≠ key) E → find_slot E key = None.
Proof.
  induction 1 as [| [k v] E Hk _ IH]; simpl; [reflexivity |].
  destruct (Z.eqb_spec k key); [contradiction | exact IH].
Qed.

Lemma find_slot_app_l (E1 E : list (Z * Value)) key :
  Forall (λ e, e.1 ≠ key) E1 → find_slot (E1 ++ E) key = find_slot E key.
Proof.
  induction 1 as [| [k v] E1 Hk _ IH]; simpl; [reflexivity |].
  destruct (Z.eqb_spec k key); [contradiction | exact IH].
Qed.

Lemma find_slot_app_r (E E2 : list (Z * Value)) key :
  Forall (λ e, e.1 ≠ key) E2 → find_slot (E ++ E2) key = find_slot E key.
Proof.
  intros H2. induction E as [| [k v] E IH]; simpl.
  - apply find_slot_absent. exact H2.
  - destruct (k =? key); [reflexivity | exact IH].
Qed.

Lemma find_slot_middle (E1 E E2 : list (Z * Value)) key :
  Forall (λ e, e.1 < key) E1 → Forall (λ e, key < e.1) E2 →
  find_slot (E1 ++ E ++ E2) key = find_slot E key.
Proof.
  intros H1 H2. rewrite find_slot_app_l by (apply Forall_lt_ne; exact H1).
  apply find_slot_app_r, Forall_gt_ne, H2.
Qed.

Lemma find_slot_elem (E : list (Z * Value)) key v :
  find_slot E key = Some v → (key, v) ∈ E.
Proof.
  induction E as [| [k w] E IH]; simpl; [discriminate |].
  destruct (Z.eqb_spec k key) as [-> | Hne].
  - intros [= ->]. left.
  - intros Hf. right. auto.
Qed.

Lemma list_to_map_find_slot (E : list (Z * Value)) key :
  (list_to_map E : gmap Z Value) !! key = find_slot E key.
Proof.
  induction E as [| [k v] E IH]; simpl; [apply lookup_empty |].
  destruct (Z.eqb_spec k key) as [-> | Hne].
  - apply lookup_insert_eq.
  - rewrite lookup_insert_ne by assumption. exact IH.
Qed.

Lemma entries_leaf a s nx : entries (Leaf a s nx) = s.
Proof. unfold entries, leaf_slots. simpl. apply app_nil_r. Qed.

Lemma entries_internal ks cs : entries (Internal ks cs) = children_entries cs.
Proof. reflexivity. Qed.

Lemma children_entries_middle cs1 c cs2 :
  children_entries (cs1 ++ c :: cs2)
  = children_entries cs1 ++ entries c ++ children_entries cs2.
Proof. rewrite children_entries_app, children_entries_cons. reflexivity. Qed.

(** [search] looks at the one leaf the key can be in: it finds what a scan
    of all pairs, left to right, finds. *)
Lemma search_node_entries n :
  ∀ lo hi key, ok lo hi n → above lo key → below hi key →
  search_node n key = find_slot (entries n) key.
Proof.
  induction n as [a s nx | ks cs IH] using Node_ind'; intros lo hi key Hok Hab Hbe.
  - rewrite entries_leaf. reflexivity.
  - inversion Hok as [| ? ? ? ? Hcs]; subst.
    destruct (focus_upper _ _ _ _ key Hcs Hab Hbe)
      as (cs1 & c & cs2 & ks1 & ks2 & lo' & hi' & -> & -> & Hl1 & _
          & Hc & Hab' & Hbe' & Hleft & Hright & _).
    simpl. rewrite list_lookup_fmap, (lookup_middle _ _ _ _ Hl1). simpl.
    rewrite entries_internal, children_entries_middle.
    rewrite find_slot_middle by assumption.
    rewrite Forall_app, Forall_cons in IH. destruct IH as (_ & IHc & _).
    eapply IHc; eauto.
Qed.

(** *** Operations that rewrite the slots of one leaf: [update], [remove] *)

Definition skeleton (L : list LeafCell) : list (nat * option nat) :=
  (λ l, (cell_addr l, cell_next l)) <$> L.

Lemma skeleton_app (L1 L2 : list LeafCell) :
  skeleton (L1 ++ L2) = skeleton L1 ++ skeleton L2.
Proof. apply fmap_app. Qed.

(** [update_node] and [remove_recursive] share one shape: descend by
    [upper_bound_idx], then rewrite the slots of the leaf with [f]. *)
Fixpoint modify_node (f : list (Z * Value) → list (Z * Value) * bool)
  (n : Node Value) (key : Z) : Node Value * bool :=
  match n with
  | Leaf a s nx => let '(s', b) := f s in (Leaf a s' nx, b)
  | Internal ks cs =>
      let i := upper_bound_idx ks key in
      match ((λ c, modify_node f c key) <$> cs) !! i with
      | Some (c', b) => (Internal ks (<[i := c']> cs), b)
      | None => (n, false)
      end
  end.

Lemma update_node_modify n key value :
  update_node n key value = modify_node (λ s, update_slots s key value) n key.
Proof.
  induction n as [a s nx | ks cs IH] using Node_ind'; simpl; [reflexivity |].
  rewrite !list_lookup_fmap.
  destruct (cs !! upper_bound_idx ks key) as [c |] eqn:Hc; simpl; [| reflexivity].
  rewrite Forall_forall in IH. rewrite (IH c) by (eapply list_elem_of_lookup_2; eauto).
  reflexivity.
Qed.

Lemma remove_recursive_modify n key :
  remove_recursive n key = modify_node (λ s, remove_slot s key) n key.
Proof.
  induction n as [a s nx | ks cs IH] using Node_ind'; simpl; [reflexivity |].
  rewrite !list_lookup_fmap.
  destruct (cs !! upper_bound_idx ks key) as [c |] eqn:Hc; simpl; [| reflexivity].
  rewrite Forall_forall in IH. rewrite (IH c) by (eapply list_elem_of_lookup_2; eauto).
  reflexivity.
Qed.

(** What the generic lemma asks of the slot rewriter. *)
Record local_rewrite (f : list (Z * Value) → list (Z * Value) * bool) (key : Z)
  : Prop := {
  lr_keys : ∀ E, sublist (f E).1.*1 E.*1;
  lr_left : ∀ E1 E, Forall (λ e, e.1 ≠ key) E1 →
                    f (E1 ++ E) = (E1 ++ (f E).1, (f E).2);
  lr_right : ∀ E E2, Forall (λ e, e.1 ≠ key) E2 →
                     f (E ++ E2) = ((f E).1 ++ E2, (f E).2)
}.

Lemma modify_node_spec f key n :
  local_rewrite f key →
  ∀ lo hi, ok lo hi n → above lo key → below hi key →
  ok lo hi (modify_node f n key).1
  ∧ entries (modify_node f n key).1 = (f (entries n)).1
  ∧ (modify_node f n key).2 = (f (entries n)).2
  ∧ skeleton (leaves (modify_node f n key).1) = skeleton (leaves n).
Proof.
  intros Hf.
  induction n as [a s nx | ks cs IH] using Node_ind'; intros lo hi Hok Hab Hbe.
  - simpl. rewrite entries_leaf. destruct (f s) as [s' b] eqn:Hfs. simpl.
    rewrite entries_leaf. split_and!; try done.
    inversion Hok as [? ? ? ? ? Hs Hb |]; subst.
    pose proof (lr_keys f key Hf s) as Hsub. rewrite Hfs in Hsub. simpl in Hsub.
    constructor.
    + eapply StronglySorted_sublist_lt; eauto.
    + eapply Forall_sublist; eauto.
  - inversion Hok as [| ? ? ? ? Hcs]; subst.
    destruct (focus_upper _ _ _ _ key Hcs Hab Hbe)
      as (cs1 & c & cs2 & ks1 & ks2 & lo' & hi' & -> & -> & Hl1 & _
          & Hc & Hab' & Hbe' & Hleft & Hright & Hrep & _).
    rewrite Forall_app, Forall_cons in IH. destruct IH as (_ & IHc & _).
    destruct (IHc lo' hi' Hc Hab' Hbe') as (Hok' & Hent & Hflag & Hskel).
    simpl. rewrite list_lookup_fmap, (lookup_middle _ _ _ _ Hl1). simpl.
    destruct (modify_node f c key) as [c' b] eqn:Hm. simpl in *.
    rewrite (insert_middle _ _ _ _ _ Hl1).
    rewrite !entries_internal, !children_entries_middle.
    rewrite (lr_left f key Hf) by (apply Forall_lt_ne; exact Hleft).
    rewrite (lr_right f key Hf) by (apply Forall_gt_ne; exact Hright).
    simpl. rewrite Hent. split_and!; try done.
    + constructor. apply Hrep. exact Hok'.
    + fold_children_leaves.
      rewrite !children_leaves_app, !children_leaves_cons, !skeleton_app.
      rewrite Hskel. reflexivity.
Qed.

Lemma remove_slot_absent (E : list (Z * Value)) key :
  Forall (λ e, e.1 ≠ key) E → remove_slot E key = (E, false).
Proof.
  induction 1 as [| [k v] E Hk _ IH]; simpl; [reflexivity |].
  destruct (Z.eqb_spec k key); [contradiction |]. rewrite IH. reflexivity.
Qed.

Lemma remove_slot_local key : local_rewrite (λ s, remove_slot s key) key.
Proof.
  split.
  - intros E. induction E as [| [k v] E IH]; simpl; [constructor |].
    destruct (k =? key); simpl; [apply sublist_cons; reflexivity |].
    destruct (remove_slot E key) as [s b]. simpl in *. apply sublist_skip. exact IH.
  - intros E1 E. induction 1 as [| [k v] E1 Hk _ IH]; simpl.
    + destruct (remove_slot E key); reflexivity.
    + destruct (Z.eqb_spec k key); [contradiction |]. rewrite IH. reflexivity.
  - intros E E2 H2. induction E as [| [k v] E IH]; simpl.
    + apply remove_slot_absent. exact H2.
    + destruct (k =? key); simpl; [reflexivity |]. rewrite IH.
      destruct (remove_slot E key). reflexivity.
Qed.

Lemma update_slots_absent (E : list (Z * Value)) key value :
  Forall (λ e, e.1 ≠ key) E → update_slots E key value = (E, false).
Proof.
  induction 1 as [| [k v] E Hk _ IH]; simpl; [reflexivity |].
  destruct (Z.eqb_spec k key); [contradiction |]. rewrite IH. reflexivity.
Qed.

Lemma update_slots_keys (E : list (Z * Value)) key value :
  (update_slots E key value).1.*1 = E.*1.
Proof.
  induction E as [| [k v] E IH]; simpl; [reflexivity |].
  destruct (k =? key); simpl; [reflexivity |].
  destruct (update_slots E key value) as [s b]. simpl in *. f_equal. exact IH.
Qed.

Lemma update_slots_local key value : local_rewrite (λ s, update_slots s key value) key.
Proof.
  split.
  - intros E. rewrite update_slots_keys. reflexivity.
  - intros E1 E. induction 1 as [| [k v] E1 Hk _ IH]; simpl.
    + destruct (update_slots E key value); reflexivity.
    + destruct (Z.eqb_spec k key); [contradiction |]. rewrite IH. reflexivity.
  - intros E E2 H2. induction E as [| [k v] E IH]; simpl.
    + apply update_slots_absent. exact H2.
    + destruct (k =? key); simpl; [reflexivity |]. rewrite IH.
      destruct (update_slots E key value). reflexivity.
Qed.

(** *** Insertion *)

(** The leaf branch of [insert_recursive] before the overflow check. *)
Definition slots_insert (E : list (Z * Value)) (key : Z) (value : Value)
  : list (Z * Value) :=
  take (lower_bound_idx E.*1 key) E ++ (key, value) :: drop (lower_bound_idx E.*1 key) E.

Lemma lower_bound_idx_le ks key : (lower_bound_idx ks key ≤ length ks)%nat.
Proof.
  induction ks as [| k ks IH]; simpl; [lia |]. destruct (key >? k); simpl; lia.
Qed.

Lemma lower_bound_idx_app_l ks1 ks key :
  Forall (λ k, k < key) ks1 →
  lower_bound_idx (ks1 ++ ks) key = (length ks1 + lower_bound_idx ks key)%nat.
Proof.
  induction 1 as [| k ks1 Hk _ IH]; simpl; [reflexivity |].
  destruct (Z.gtb_spec key k); [| lia]. rewrite IH. reflexivity.
Qed.

Lemma lower_bound_idx_app_r ks ks2 key :
  Forall (λ k, key < k) ks2 →
  lower_bound_idx (ks ++ ks2) key = lower_bound_idx ks key.
Proof.
  intros H2. induction ks as [| k ks IH]; simpl.
  - destruct H2 as [| k2 ks2 Hk2 _]; simpl; [reflexivity |].
    destruct (Z.gtb_spec key k2); [lia | reflexivity].
  - destruct (key >? k); [f_equal; exact IH | reflexivity].
Qed.

Lemma slots_insert_middle (E1 E E2 : list (Z * Value)) key value :
  Forall (λ e, e.1 < key) E1 → Forall (λ e, key < e.1) E2 →
  slots_insert (E1 ++ E ++ E2) key value = E1 ++ slots_insert E key value ++ E2.
Proof.
  intros H1 H2. unfold slots_insert.
  rewrite !fmap_app.
  rewrite lower_bound_idx_app_l by (rewrite Forall_fmap; exact H1).
  rewrite lower_bound_idx_app_r by (rewrite Forall_fmap; exact H2).
  pose proof (lower_bound_idx_le E.*1 key) as Hle. rewrite length_fmap in Hle.
  rewrite length_fmap.
  rewrite take_app_add', drop_app_add' by reflexivity.
  rewrite take_app_le, drop_app_le by exact Hle.
  rewrite <- !app_assoc. reflexivity.
Qed.

Lemma slots_insert_keys (E : list (Z * Value)) key value :
  (slots_insert E key value).*1
  = take (lower_bound_idx E.*1 key) E.*1 ++ key :: drop (lower_bound_idx E.*1 key) E.*1.
Proof. unfold slots_insert. rewrite fmap_app, fmap_cons, fmap_take, fmap_drop. reflexivity. Qed.

Lemma sorted_insert ks key :
  StronglySorted Z.lt ks → key ∉ ks →
  StronglySorted Z.lt
    (take (lower_bound_idx ks key) ks ++ key :: drop (lower_bound_idx ks key) ks).
Proof.
  induction 1 as [| k ks Hs IH Hall]; intros Hni; simpl.
  - repeat constructor.
  - apply not_elem_of_cons in Hni as [Hne Hni].
    destruct (Z.gtb_spec key k) as [Hgt | Hle]; simpl.
    + constructor; [apply IH; exact Hni |].
      apply Forall_app. split; [apply Forall_take; exact Hall |].
      constructor; [lia | apply Forall_drop; exact Hall].
    + constructor; [constructor; assumption |].
      constructor; [lia |]. eapply Forall_impl; [exact Hall |]. simpl. lia.
Qed.

Lemma Forall_insert_at {A} (P : A → Prop) (l : list A) (x : A) i :
  Forall P l → P x → Forall P (take i l ++ x :: drop i l).
Proof.
  intros Hl Hx. apply Forall_app. split; [apply Forall_take; exact Hl |].
  constructor; [exact Hx | apply Forall_drop; exact Hl].
Qed.

Lemma ok_children_split lo hi ks cs :
  ok_children lo hi ks cs →
  ∀ m pk, ks !! m = Some pk →
  ok_children lo (Some pk) (take m ks) (take (S m) cs)
  ∧ ok_children (Some pk) hi (drop (S m) ks) (drop (S m) cs)
  ∧ above lo pk ∧ under hi pk.
Proof.
  induction 1 as [lo hi c Hc | lo hi k ks c cs Hc Hlo Hhi Hcs IH]; intros m pk Hm.
  - destruct m; discriminate.
  - destruct m as [| m]; simpl in Hm.
    + injection Hm as <-. simpl. rewrite take_0, !drop_0.
      split_and!; try done. constructor. exact Hc.
    + destruct (IH m pk Hm) as (Hl & Hr & Hab & Hun). simpl in Hab.
      simpl. split_and!; try done.
      * constructor; try done.
      * eapply above_trans; eauto.
Qed.

End Views.

Ltac fold_leaves :=
  repeat match goal with
         | |- context [concat (leaves <$> ?x)] =>
             change (concat (leaves <$> x)) with (children_leaves x)
         end.

Section Insertion.
Context {Value : Type}.
Variable Order : nat.
Local Abbreviation LeafCell := (nat * list (Z * Value) * option nat)%type.
Implicit Types (n c : Node Value) (cs : list (Node Value)) (ks : list Z).
Implicit Types (s : list (Z * Value)).

Definition res_leaves (res : InsertResult Value) : list (LeafCell) :=
  match res with
  | Some (sibling, _) => leaves sibling
  | None => []
  end.

(** What [insert_recursive] leaves behind at a node: with no split the node
    is within its old bounds; with a split the node and its new sibling sit
    on either side of the promoted key. *)
Definition res_ok (lo hi : option Z) n (res : InsertResult Value) : Prop :=
  match res with
  | None => ok lo hi n
  | Some (sibling, pk) =>
      ok lo (Some pk) n ∧ ok (Some pk) hi sibling ∧ above lo pk ∧ under hi pk
  end.

(** The effect on the leaf chain: one cell keeps its address and
    [next_leaf], or it is followed by a new cell at address [heap] that
    inherits its [next_leaf]. *)
Definition chain_step (K K' : list (nat * option nat)) (heap heap' : nat) : Prop :=
  ∃ K1 a nx K2,
    K = K1 ++ (a, nx) :: K2
    ∧ ((heap' = heap ∧ K' = K1 ++ (a, nx) :: K2)
       ∨ (heap' = S heap ∧ K' = K1 ++ (a, Some heap) :: (heap, nx) :: K2)).

Lemma chain_step_frame Ka Kb K K' heap heap' :
  chain_step K K' heap heap' → chain_step (Ka ++ K ++ Kb) (Ka ++ K' ++ Kb) heap heap'.
Proof.
  intros (K1 & a & nx & K2 & -> & Hcase).
  exists (Ka ++ K1), a, nx, (K2 ++ Kb). split.
  - rewrite <- !app_assoc. reflexivity.
  - destruct Hcase as [[-> ->] | [-> ->]]; [left | right];
      (split; [reflexivity |]); rewrite <- !app_assoc; reflexivity.
Qed.

Lemma split_internal_spec lo hi ks cs heap :
  ok_children lo hi ks cs → ks ≠ [] →
  ∃ l r pk,
    split_internal (Internal ks cs) heap = (l, Some (r, pk), heap)
    ∧ ok lo (Some pk) l ∧ ok (Some pk) hi r ∧ above lo pk ∧ under hi pk
    ∧ leaves l ++ leaves r = children_leaves cs.
Proof.
  intros Hcs Hne.
  pose proof (ok_children_length _ _ _ _ Hcs) as Hlen.
  assert (Hmid : (length ks / 2 < length ks)%nat).
  { apply Nat.div_lt; [| lia]. destruct ks; [congruence | simpl; lia]. }
  destruct (lookup_lt_is_Some_2 ks _ Hmid) as [pk Hpk].
  destruct (ok_children_split _ _ _ _ Hcs _ _ Hpk) as (Hl & Hr & Hab & Hun).
  eexists _, _, pk. unfold split_internal. rewrite Hpk. simpl.
  split; [reflexivity |].
  rewrite (take_ge (drop _ ks)) by (rewrite length_drop; lia).
  rewrite (take_ge (drop _ cs)) by (rewrite length_drop; lia).
  split_and!; try done; try (constructor; assumption).
  simpl. fold_leaves. rewrite <- children_leaves_app, take_drop. reflexivity.
Qed.

Lemma leaf_insert_spec lo hi a s nx key value heap n' res heap' :
  ok lo hi (Leaf a s nx) → above lo key → below hi key → key ∉ s.*1 →
  insert_recursive Order (Leaf a s nx) key value heap = (n', res, heap') →
  res_ok lo hi n' res
  ∧ leaf_slots (leaves n' ++ res_leaves res) = slots_insert s key value
  ∧ chain_step [(a, nx)] (skeleton (leaves n' ++ res_leaves res)) heap heap'.
Proof.
  intros Hok Hab Hbe Hni. inversion Hok as [? ? ? ? ? Hs Hb |]; subst.
  cbn [insert_recursive]. fold (slots_insert s key value).
  assert (Hs' : StronglySorted Z.lt (slots_insert s key value).*1).
  { rewrite slots_insert_keys. apply sorted_insert; assumption. }
  assert (Hb' : Forall (λ k, above lo k ∧ below hi k) (slots_insert s key value).*1).
  { rewrite slots_insert_keys. apply Forall_insert_at; auto. }
  assert (Hlen : (0 < length (slots_insert s key value))%nat).
  { unfold slots_insert. rewrite length_app. simpl. lia. }
  set (s' := slots_insert s key value) in *.
  destruct (Nat.ltb_spec (length s') Order) as [Hlt | Hge].
  - intros [= <- <- <-]. simpl. split_and!.
    + constructor; assumption.
    + unfold leaf_slots. simpl. rewrite !app_nil_r. reflexivity.
    + exists [], a, nx, []. split; [reflexivity |]. left. split; reflexivity.
  - unfold split_leaf. intros [= <- <- <-].
    change (Nat.divmod Order 1 0 1).1 with (Order / 2)%nat.
    set (mid := (Order / 2)%nat).
    assert (Hmid : (mid < length s')%nat).
    { unfold mid. clearbody s'.
      destruct (Nat.eq_dec Order 0%nat) as [Hz | Hnz]; [rewrite Hz; simpl; lia |].
      assert (Order / 2 < Order)%nat by (apply Nat.div_lt; lia). lia. }
    rewrite (take_ge (drop mid s')) by (rewrite length_drop; lia).
    destruct (drop mid s') as [| [pk pv] rest] eqn:Hdrop.
    { apply (f_equal length) in Hdrop. rewrite length_drop in Hdrop. simpl in Hdrop. lia. }
    assert (Hs'eq : s' = take mid s' ++ (pk, pv) :: rest).
    { rewrite <- Hdrop, take_drop. reflexivity. }
    rewrite Hs'eq, fmap_app, fmap_cons in Hs', Hb'. simpl in Hs', Hb'.
    apply StronglySorted_app in Hs' as (Hcross & Hsl & Hsr).
    apply Forall_app in Hb' as [Hbl Hbr].
    pose proof Hsr as Hsr'. apply StronglySorted_cons in Hsr' as [Hgt _].
    pose proof Hbr as Hbr'. apply Forall_cons in Hbr' as [[Hpklo Hpkhi] _].
    simpl. split_and!.
    + constructor; [exact Hsl |].
      rewrite Forall_forall in Hbl |- *. intros k Hk.
      split; [apply (Hbl k Hk) |]. simpl. apply Hcross; [exact Hk | left].
    + constructor; [exact Hsr |].
      constructor; [simpl; split; [lia | exact Hpkhi] |].
      rewrite Forall_forall in Hbr, Hgt |- *. intros k Hk.
      split; [simpl; specialize (Hgt k Hk); lia |].
      apply (Hbr k). right. exact Hk.
    + exact Hpklo.
    + apply below_under. exact Hpkhi.
    + unfold leaf_slots. simpl. rewrite app_nil_r. symmetry. exact Hs'eq.
    + exists [], a, nx, []. split; [reflexivity |]. right. split; reflexivity.
Qed.

Lemma insert_recursive_spec n :
  ∀ lo hi key value heap n' res heap',
  ok lo hi n → above lo key → below hi key → key ∉ (entries n).*1 →
  insert_recursive Order n key value heap = (n', res, heap') →
  res_ok lo hi n' res
  ∧ leaf_slots (leaves n' ++ res_leaves res) = slots_insert (entries n) key value
  ∧ chain_step (skeleton (leaves n)) (skeleton (leaves n' ++ res_leaves res)) heap heap'.
Proof.
  induction n as [a s nx | ks cs IH] using Node_ind';
    intros lo hi key value heap n' res heap' Hok Hab Hbe Hni Hins.
  - rewrite entries_leaf in *. eapply leaf_insert_spec; eauto.
  - inversion Hok as [| ? ? ? ? Hcs]; subst.
    destruct (focus_upper _ _ _ _ key Hcs Hab Hbe)
      as (cs1 & c & cs2 & ks1 & ks2 & lo' & hi' & -> & -> & Hl1 & Hl2
          & Hc & Hab' & Hbe' & Hleft & Hright & Hrep & Hsplit).
    rewrite Forall_app, Forall_cons in IH. destruct IH as (_ & IHc & _).
    rewrite entries_internal, children_entries_middle in Hni |- *.
    assert (Hnic : key ∉ (entries c).*1).
    { intros Hin. apply Hni. rewrite !fmap_app, !elem_of_app. auto. }
    cbn [insert_recursive] in Hins.
    rewrite list_lookup_fmap, (lookup_middle _ _ _ _ Hl1) in Hins.
    cbn [fmap option_fmap option_map] in Hins.
    destruct (insert_recursive Order c key value heap) as [[c' resc] heapc] eqn:Hic.
    destruct (IHc lo' hi' key value heap c' resc heapc Hc Hab' Hbe' Hnic Hic)
      as (Hres & Hent & Hchain).
    assert (Hshape : ∀ L',
      L' = children_leaves cs1 ++ (leaves c' ++ res_leaves resc) ++ children_leaves cs2 →
      leaf_slots L'
      = slots_insert (children_entries cs1 ++ entries c ++ children_entries cs2) key value
      ∧ chain_step (skeleton (leaves (Internal (ks1 ++ ks2) (cs1 ++ c :: cs2))))
                   (skeleton L') heap heapc).
    { intros L' ->. split.
      - rewrite slots_insert_middle by assumption.
        rewrite !leaf_slots_app, <- leaf_slots_app, Hent. reflexivity.
      - cbn [leaves]. fold_leaves.
        rewrite children_leaves_app, children_leaves_cons, !skeleton_app.
        rewrite <- (skeleton_app (leaves c') (res_leaves resc)).
        apply chain_step_frame. exact Hchain. }
    destruct resc as [[sib pk] |]; simpl in Hres.
    + rewrite (take_middle _ _ _ Hl2), (drop_middle _ _ _ Hl2) in Hins.
      rewrite (insert_middle _ _ _ _ _ Hl1), (take_S_middle _ _ _ _ Hl1),
        (drop_S_middle _ _ _ _ Hl1) in Hins.
      rewrite <- app_assoc in Hins.
      change ([c'] ++ sib :: cs2) with (c' :: sib :: cs2) in Hins.
      destruct Hres as (Hokc' & Hoks & Hpklo & Hpkhi).
      pose proof (Hsplit c' sib pk Hokc' Hoks Hpklo Hpkhi) as Hcs'.
      destruct (Nat.ltb_spec (length (ks1 ++ pk :: ks2)) Order) as [Hlt | Hge].
      * injection Hins as <- <- <-. simpl. split; [constructor; exact Hcs' |].
        apply Hshape. fold_leaves. rewrite app_nil_r.
        rewrite children_leaves_app, !children_leaves_cons.
        simpl. rewrite <- !app_assoc. reflexivity.
      * destruct (split_internal_spec lo hi _ _ heapc Hcs') as (l & r & pk' & Hsp & Hl & Hr
                                                               & Hlo' & Hhi' & Hlv).
        { destruct ks1; discriminate. }
        rewrite Hsp in Hins. injection Hins as <- <- <-. simpl.
        split; [split_and!; assumption |].
        apply Hshape. rewrite Hlv.
        rewrite children_leaves_app, !children_leaves_cons.
        simpl. rewrite <- !app_assoc. reflexivity.
    + rewrite (insert_middle _ _ _ _ _ Hl1) in Hins.
      injection Hins as <- <- <-. simpl. split; [constructor; apply Hrep; exact Hres |].
      apply Hshape. fold_leaves. rewrite !app_nil_r.
      rewrite children_leaves_app, !children_leaves_cons. reflexivity.
Qed.

End Insertion.

Section Trees.
Context {Value : Type}.
Variable Order : nat.
Local Abbreviation LeafCell := (nat * list (Z * Value) * option nat)%type.
Implicit Types (n c : Node Value) (cs : list (Node Value)) (ks : list Z).
Implicit Types (s E : list (Z * Value)) (tr : t Value).

(** *** Scans of the sorted pair list *)

Lemma find_slot_app E1 E2 key :
  find_slot (E1 ++ E2) key
  = match find_slot E1 key with Some v => Some v | None => find_slot E2 key end.
Proof.
  induction E1 as [| [k v] E1 IH]; simpl; [reflexivity |].
  destruct (k =? key); [reflexivity | exact IH].
Qed.

Lemma find_slot_None E key : find_slot E key = None ↔ key ∉ E.*1.
Proof.
  induction E as [| [k v] E IH]; simpl.
  - split; [intros _ Hin; inversion Hin | reflexivity].
  - rewrite not_elem_of_cons. destruct (Z.eqb_spec k key) as [-> | Hne].
    + split; [discriminate | intros [Hne _]; congruence].
    + rewrite IH. split; [intros Hni; split; [congruence | exact Hni] | intros [_ Hni]; exact Hni].
Qed.

Lemma sorted_NoDup (ks : list Z) : StronglySorted Z.lt ks → NoDup ks.
Proof.
  induction 1 as [| k ks Hs IH Hall]; constructor; [| exact IH].
  intros Hin. rewrite Forall_forall in Hall. specialize (Hall k Hin). lia.
Qed.

Lemma find_slot_insert E key value key' :
  key ∉ E.*1 →
  find_slot (slots_insert E key value) key'
  = if decide (key = key') then Some value else find_slot E key'.
Proof.
  intros Hni. unfold slots_insert.
  generalize (lower_bound_idx E.*1 key). intros p.
  rewrite <- (take_drop p E), fmap_app, not_elem_of_app in Hni.
  destruct Hni as [Hn1 Hn2].
  replace (find_slot E key') with (find_slot (take p E ++ drop p E) key')
    by (rewrite take_drop; reflexivity).
  rewrite !find_slot_app. simpl.
  destruct (decide (key = key')) as [<- | Hne].
  - apply find_slot_None in Hn1. rewrite Hn1, Z.eqb_refl. reflexivity.
  - destruct (Z.eqb_spec key key'); [contradiction | reflexivity].
Qed.

Lemma length_slots_insert E key value :
  length (slots_insert E key value) = S (length E).
Proof.
  unfold slots_insert. generalize (lower_bound_idx E.*1 key). intros p.
  rewrite length_app. simpl.
  pose proof (f_equal length (take_drop p E)) as HE. rewrite length_app in HE. lia.
Qed.

Definition found E key : bool :=
  match find_slot E key with Some _ => true | None => false end.

Lemma remove_slot_flag E key : (remove_slot E key).2 = found E key.
Proof.
  unfold found. induction E as [| [k v] E IH]; simpl; [reflexivity |].
  destruct (k =? key); simpl; [reflexivity |].
  destruct (remove_slot E key). exact IH.
Qed.

Lemma remove_slot_false E key : (remove_slot E key).2 = false → (remove_slot E key).1 = E.
Proof.
  induction E as [| [k v] E IH]; simpl; [reflexivity |].
  destruct (k =? key); simpl; [discriminate |].
  destruct (remove_slot E key) as [s b]. simpl in *. intros Hb. f_equal. auto.
Qed.

Lemma remove_slot_length E key :
  (remove_slot E key).2 = true → S (length (remove_slot E key).1) = length E.
Proof.
  induction E as [| [k v] E IH]; simpl; [discriminate |].
  destruct (k =? key); simpl; [reflexivity |].
  destruct (remove_slot E key) as [s b]. simpl in *. intros Hb. f_equal. auto.
Qed.

Lemma find_slot_remove E key key' :
  NoDup E.*1 →
  find_slot (remove_slot E key).1 key'
  = if decide (key = key') then None else find_slot E key'.
Proof.
  induction E as [| [k v] E IH]; simpl; intros Hnd.
  - destruct (decide (key = key')); reflexivity.
  - apply NoDup_cons in Hnd as [Hni Hnd]. specialize (IH Hnd).
    destruct (Z.eqb_spec k key) as [-> | Hne]; simpl.
    + destruct (decide (key = key')) as [<- | Hne'].
      * apply find_slot_None. exact Hni.
      * destruct (Z.eqb_spec key key'); [contradiction | reflexivity].
    + destruct (remove_slot E key) as [s b]. simpl in *.
      destruct (Z.eqb_spec k key') as [-> | Hne']; [| exact IH].
      destruct (decide (key = key')); [congruence | reflexivity].
Qed.

Lemma update_slots_flag E key value : (update_slots E key value).2 = found E key.
Proof.
  unfold found. induction E as [| [k v] E IH]; simpl; [reflexivity |].
  destruct (k =? key); simpl; [reflexivity |].
  destruct (update_slots E key value). exact IH.
Qed.

Lemma find_slot_update E key value key' :
  find_slot (update_slots E key value).1 key'
  = if decide (key = key') then (λ _, value) <$> find_slot E key else find_slot E key'.
Proof.
  induction E as [| [k v] E IH]; simpl.
  - destruct (decide (key = key')); reflexivity.
  - destruct (Z.eqb_spec k key) as [-> | Hne]; simpl.
    + destruct (decide (key = key')) as [<- | Hne'].
      * rewrite Z.eqb_refl. reflexivity.
      * destruct (Z.eqb_spec key key'); [contradiction | reflexivity].
    + destruct (update_slots E key value) as [s b]. simpl in *.
      destruct (Z.eqb_spec k key') as [-> | Hne']; [| exact IH].
      destruct (decide (key = key')); [congruence | reflexivity].
Qed.

Lemma length_update_slots E key value : length (update_slots E key value).1 = length E.
Proof.
  rewrite <- (length_fmap fst), update_slots_keys, length_fmap. reflexivity.
Qed.

(** *** The leaf chain *)

Fixpoint chain_sk (p : option nat) (K : list (nat * option nat)) (q : option nat) : Prop :=
  match K with
  | [] => p = q
  | (a, nx) :: K' => p = Some a ∧ chain_sk nx K' q
  end.

Lemma chain_from_sk p (L : list (LeafCell)) q :
  chain_from p L q ↔ chain_sk p (skeleton L) q.
Proof.
  revert p. induction L as [| [[a s] nx] L IH]; intros p; simpl; [reflexivity |].
  rewrite IH. reflexivity.
Qed.

Lemma chain_sk_app p K1 K2 q :
  chain_sk p (K1 ++ K2) q ↔ ∃ m, chain_sk p K1 m ∧ chain_sk m K2 q.
Proof.
  revert p. induction K1 as [| [a nx] K1 IH]; intros p; simpl.
  - split; [intros Hc; exists p; auto | intros (m & -> & Hc); exact Hc].
  - rewrite IH. split.
    + intros (Hp & m & H1 & H2). exists m. auto.
    + intros (m & (Hp & H1) & H2). split; [exact Hp |]. exists m. auto.
Qed.

Lemma chain_step_chain K K' heap heap' p q :
  chain_step K K' heap heap' → chain_sk p K q → chain_sk p K' q.
Proof.
  intros (K1 & a & nx & K2 & -> & Hcase) Hc.
  apply chain_sk_app in Hc as (m & H1 & H2). simpl in H2. destruct H2 as [-> H2].
  destruct Hcase as [[-> ->] | [-> ->]]; apply chain_sk_app; exists (Some a);
    (split; [exact H1 |]); simpl; auto.
Qed.

Lemma chain_step_addrs K K' heap heap' :
  chain_step K K' heap heap' →
  NoDup K.*1 → Forall (λ a, a < heap)%nat K.*1 →
  NoDup K'.*1 ∧ Forall (λ a, a < heap')%nat K'.*1.
Proof.
  intros (K1 & a & nx & K2 & -> & Hcase) Hnd Hlt.
  destruct Hcase as [[-> ->] | [-> ->]].
  - split; assumption.
  - rewrite fmap_app in *. simpl in *.
    rewrite Forall_app, Forall_cons in Hlt. destruct Hlt as (Hlt1 & Ha & Hlt2).
    split.
    + apply NoDup_app in Hnd as (Hn1 & Hdisj & Hn2).
      apply NoDup_cons in Hn2 as [Ha2 Hn2].
      apply NoDup_app. split_and!; [exact Hn1 | |].
      * intros x Hx Hin. apply elem_of_cons in Hin as [-> | Hin].
        { eapply Hdisj; [exact Hx | left]. }
        apply elem_of_cons in Hin as [-> | Hin].
        { rewrite Forall_forall in Hlt1. specialize (Hlt1 _ Hx). lia. }
        eapply Hdisj; [exact Hx | right; exact Hin].
      * apply NoDup_cons. split.
        { intros Hin. apply elem_of_cons in Hin as [-> | Hin]; [lia | contradiction]. }
        apply NoDup_cons. split; [| exact Hn2].
        intros Hin. rewrite Forall_forall in Hlt2. specialize (Hlt2 _ Hin). lia.
    + rewrite Forall_app, !Forall_cons. split_and!; try lia.
      * eapply Forall_impl; [exact Hlt1 |]. simpl. lia.
      * eapply Forall_impl; [exact Hlt2 |]. simpl. lia.
Qed.

(** *** Tree invariant *)

Record Inv tr : Prop := {
  inv_ok : ok None None (root_ tr);
  inv_chain : ∃ p, chain_from p (leaves (root_ tr)) None;
  inv_addrs : NoDup (skeleton (leaves (root_ tr))).*1;
  inv_heap : Forall (λ a, a < heap_ tr)%nat (skeleton (leaves (root_ tr))).*1;
  inv_size : size_ tr = length (entries (root_ tr))
}.

(** The finite map a tree stands for. *)
Definition contents tr : gmap Z Value := list_to_map (entries (root_ tr)).

Lemma contents_lookup tr key : contents tr !! key = find_slot (entries (root_ tr)) key.
Proof. apply list_to_map_find_slot. Qed.

Lemma Inv_new tr : new Order = inr tr → Inv tr ∧ contents tr = ∅.
Proof.
  intros [= <-]. split; [split; simpl |].
  - constructor; constructor.
  - exists (Some 0%nat). simpl. auto.
  - repeat constructor. intros Hin. inversion Hin.
  - repeat constructor.
  - reflexivity.
  - reflexivity.
Qed.

Lemma search_contents tr key : Inv tr → search tr key = contents tr !! key.
Proof.
  intros HI. rewrite contents_lookup. unfold search.
  eapply search_node_entries; [apply (inv_ok tr HI) | exact I | exact I].
Qed.

Lemma Inv_NoDup tr : Inv tr → NoDup (entries (root_ tr)).*1.
Proof. intros HI. eapply sorted_NoDup, ok_sorted, inv_ok, HI. Qed.

Lemma insert_spec tr key value :
  Inv tr → contents tr !! key = None →
  Inv (insert Order tr key value)
  ∧ contents (insert Order tr key value) = <[key := value]> (contents tr)
  ∧ size_ (insert Order tr key value) = S (size_ tr).
Proof.
  intros HI Hfresh. rewrite contents_lookup in Hfresh. apply find_slot_None in Hfresh.
  destruct HI as [Hok [p Hch] Hnd Hheap Hsize].
  unfold insert.
  destruct (insert_recursive Order (root_ tr) key value (heap_ tr)) as [[r res] heap'] eqn:Hins.
  destruct (insert_recursive_spec Order _ _ _ _ _ _ _ _ _ Hok I I Hfresh Hins)
    as (Hres & Hent & Hstep).
  assert (Hgoal : ∀ tr',
    ok None None (root_ tr') → leaves (root_ tr') = leaves r ++ res_leaves res →
    heap_ tr' = heap' → size_ tr' = S (size_ tr) →
    Inv tr' ∧ contents tr' = <[key := value]> (contents tr) ∧ size_ tr' = S (size_ tr)).
  { intros tr' Hok' Hlv Hh Hs.
    assert (Hent' : entries (root_ tr') = slots_insert (entries (root_ tr)) key value).
    { unfold entries at 1. rewrite Hlv. exact Hent. }
    rewrite <- Hlv in Hstep.
    destruct (chain_step_addrs _ _ _ _ Hstep Hnd Hheap) as [Hnd' Hheap'].
    split; [split |]; try assumption.
    - exists p. apply chain_from_sk. eapply chain_step_chain; [exact Hstep |].
      apply chain_from_sk. exact Hch.
    - rewrite Hh. exact Hheap'.
    - rewrite Hs, Hent', length_slots_insert, Hsize. reflexivity.
    - split; [| exact Hs]. apply map_eq. intros k.
      rewrite contents_lookup, Hent', find_slot_insert by exact Hfresh.
      rewrite lookup_insert, contents_lookup. reflexivity. }
  destruct res as [[sib pk] |]; simpl in Hres.
  - destruct Hres as (Hr & Hs & _ & _). apply Hgoal; simpl; try reflexivity.
    + constructor. constructor; [exact Hr | exact I | exact I |]. constructor. exact Hs.
    + rewrite app_nil_r. reflexivity.
  - apply Hgoal; simpl; try reflexivity; [exact Hres |]. rewrite app_nil_r. reflexivity.
Qed.

Lemma modify_node_unchanged (f : list (Z * Value) → list (Z * Value) * bool) key n :
  (∀ s, (f s).2 = false → (f s).1 = s) →
  (modify_node f n key).2 = false → (modify_node f n key).1 = n.
Proof.
  intros Hf. induction n as [a s nx | ks cs IH] using Node_ind'; simpl.
  - specialize (Hf s). destruct (f s) as [s' b]. simpl in *.
    intros Hb. rewrite (Hf Hb). reflexivity.
  - rewrite list_lookup_fmap.
    destruct (cs !! upper_bound_idx ks key) as [c |] eqn:Hc; simpl; [| reflexivity].
    rewrite Forall_forall in IH.
    specialize (IH c (list_elem_of_lookup_2 _ _ _ Hc)).
    destruct (modify_node f c key) as [c' b]. simpl in *.
    intros Hb. rewrite (IH Hb), list_insert_id by exact Hc. reflexivity.
Qed.

Lemma Inv_rewrite tr tr' :
  Inv tr →
  ok None None (root_ tr') →
  skeleton (leaves (root_ tr')) = skeleton (leaves (root_ tr)) →
  heap_ tr' = heap_ tr →
  size_ tr' = length (entries (root_ tr')) →
  Inv tr'.
Proof.
  intros [Hok [p Hch] Hnd Hheap Hsize] Hok' Hsk Hh Hs.
  split; rewrite ?Hsk, ?Hh; try assumption.
  exists p. apply chain_from_sk. rewrite Hsk. apply chain_from_sk. exact Hch.
Qed.

Lemma remove_spec tr key :
  Inv tr →
  Inv (remove tr key).2
  ∧ contents (remove tr key).2 = delete key (contents tr)
  ∧ (remove tr key).1 = found (entries (root_ tr)) key
  ∧ ((remove tr key).1 = true → S (size_ (remove tr key).2) = size_ tr)
  ∧ ((remove tr key).1 = false → (remove tr key).2 = tr).
Proof.
  intros HI. pose proof HI as [Hok _ _ _ Hsize].
  pose proof (Inv_NoDup tr HI) as Hnd.
  unfold remove. rewrite remove_recursive_modify.
  destruct (modify_node_spec _ key (root_ tr) (remove_slot_local key) None None Hok I I)
    as (Hok' & Hent & Hflag & Hsk).
  pose proof (modify_node_unchanged (λ s, remove_slot s key) key (root_ tr)
                (λ s, remove_slot_false s key)) as Hsame.
  destruct (modify_node (λ s, remove_slot s key) (root_ tr) key) as [r b].
  simpl in *. rewrite remove_slot_flag in Hflag. subst b.
  destruct (found (entries (root_ tr)) key) eqn:Hfound; simpl.
  - assert (Hlen : S (length (entries r)) = length (entries (root_ tr))).
    { rewrite Hent. apply remove_slot_length. rewrite remove_slot_flag. exact Hfound. }
    assert (Hr' : ∃ r', r' = match r with Internal [] (c :: _) => c | _ => r end
                        ∧ ok None None r' ∧ leaves r' = leaves r).
    { eexists. split; [reflexivity |].
      destruct r as [a s nx | [| k ks] [| c cs]]; try (split; [assumption | reflexivity]).
      inversion Hok' as [| ? ? ? ? Hcs]; subst. inversion Hcs; subst.
      split; [assumption |]. simpl. rewrite app_nil_r. reflexivity. }
    destruct Hr' as (r' & <- & Hokr' & Hlv).
    assert (Hent' : entries r' = entries r) by (unfold entries; rewrite Hlv; reflexivity).
    split_and!; try done.
    + eapply Inv_rewrite; [exact HI | exact Hokr' | | reflexivity |]; simpl.
      * rewrite Hlv. exact Hsk.
      * rewrite Hent', Hsize. lia.
    + apply map_eq. intros k. rewrite contents_lookup. simpl.
      rewrite Hent', Hent, find_slot_remove by exact Hnd.
      rewrite lookup_delete, contents_lookup. reflexivity.
    + intros _. rewrite Hsize. lia.
  - specialize (Hsame eq_refl). subst r. split_and!; try done.
    + eapply Inv_rewrite; [exact HI | exact Hok' | reflexivity | reflexivity | exact Hsize].
    + apply map_eq. intros k. rewrite contents_lookup. simpl.
      rewrite lookup_delete, contents_lookup.
      destruct (decide (key = k)) as [<- | Hne]; [| reflexivity].
      unfold found in Hfound. destruct (find_slot (entries (root_ tr)) key); congruence.
    + intros _. destruct tr; reflexivity.
Qed.

Lemma update_spec tr key value :
  Inv tr →
  Inv (update tr key value).2
  ∧ contents (update tr key value).2 = alter (λ _, value) key (contents tr)
  ∧ (update tr key value).1 = found (entries (root_ tr)) key
  ∧ size_ (update tr key value).2 = size_ tr.
Proof.
  intros HI. pose proof HI as [Hok _ _ _ Hsize].
  unfold update. rewrite update_node_modify.
  destruct (modify_node_spec _ key (root_ tr) (update_slots_local key value)
              None None Hok I I) as (Hok' & Hent & Hflag & Hsk).
  destruct (modify_node (λ s, update_slots s key value) (root_ tr) key) as [r b].
  simpl in *. rewrite update_slots_flag in Hflag. subst b.
  split_and!; try done.
  - eapply Inv_rewrite; [exact HI | exact Hok' | exact Hsk | reflexivity |]. simpl.
    rewrite Hent, length_update_slots. exact Hsize.
  - apply map_eq. intros k. rewrite contents_lookup. simpl.
    rewrite Hent, find_slot_update, lookup_alter, !contents_lookup. reflexivity.
Qed.

(** *** Range scans *)

Definition in_range (lo hi : Z) (e : Z * Value) : Prop := lo ≤ e.1 ≤ hi.

#[export] Instance in_range_dec lo hi e : Decision (in_range lo hi e).
Proof. unfold in_range. apply _. Defined.

Fixpoint find_cell (L : list (LeafCell)) (a : nat) : option (Node Value) :=
  match L with
  | [] => None
  | l :: L' =>
      if (cell_addr l =? a)%nat then Some (Leaf (cell_addr l) (cell_slots l) (cell_next l))
      else find_cell L' a
  end.

Lemma find_cell_app L1 L2 a :
  find_cell (L1 ++ L2) a
  = match find_cell L1 a with Some n => Some n | None => find_cell L2 a end.
Proof.
  induction L1 as [| l L1 IH]; simpl; [reflexivity |].
  destruct (cell_addr l =? a)%nat; [reflexivity | exact IH].
Qed.

Lemma leaf_at_find n a : leaf_at n a = find_cell (leaves n) a.
Proof.
  induction n as [ad s nx | ks cs IH] using Node_ind'; simpl.
  - unfold cell_addr, cell_slots, cell_next. simpl.
    destruct (ad =? a)%nat; reflexivity.
  - induction IH as [| c cs Hc _ IHcs]; simpl; [reflexivity |].
    rewrite find_cell_app, <- Hc. destruct (leaf_at c a); [reflexivity | exact IHcs].
Qed.

Lemma find_cell_absent L a : a ∉ (skeleton L).*1 → find_cell L a = None.
Proof.
  induction L as [| [[ad s] nx] L IH]; simpl; [reflexivity |].
  rewrite not_elem_of_cons. intros [Hne Hni]. unfold cell_addr in *. simpl in *.
  destruct (Nat.eqb_spec ad a) as [-> | ?]; [exfalso; apply Hne; reflexivity | auto].
Qed.

Lemma find_cell_middle (L1 : list (LeafCell)) a s nx (L2 : list (LeafCell)) :
  NoDup (skeleton (L1 ++ (a, s, nx) :: L2)).*1 →
  find_cell (L1 ++ (a, s, nx) :: L2) a = Some (Leaf a s nx).
Proof.
  rewrite skeleton_app, fmap_app. intros Hnd.
  apply NoDup_app in Hnd as (_ & Hdisj & _).
  rewrite find_cell_app, find_cell_absent.
  - simpl. unfold cell_addr. simpl. rewrite Nat.eqb_refl. reflexivity.
  - intros Hin. eapply Hdisj; [exact Hin | left].
Qed.

Lemma descend_lower_spec n :
  ∀ lo hi key, ok lo hi n →
  ∃ L1 a s nx L2,
    descend_lower n key = Some (Leaf a s nx)
    ∧ leaves n = L1 ++ (a, s, nx) :: L2
    ∧ Forall (λ e, e.1 < key) (leaf_slots L1).
Proof.
  induction n as [a s nx | ks cs IH] using Node_ind'; intros lo hi key Hok.
  - exists [], a, s, nx, []. split_and!; [reflexivity | reflexivity | constructor].
  - inversion Hok as [| ? ? ? ? Hcs]; subst.
    destruct (focus_lower _ _ _ _ key Hcs)
      as (cs1 & c & cs2 & lo' & hi' & -> & Hl1 & Hc & Hleft).
    rewrite Forall_app, Forall_cons in IH. destruct IH as (_ & IHc & _).
    destruct (IHc lo' hi' key Hc) as (L1 & a & s & nx & L2 & Hd & Hlv & Hlt).
    exists (children_leaves cs1 ++ L1), a, s, nx, (L2 ++ children_leaves cs2).
    split_and!.
    + simpl. rewrite list_lookup_fmap, (lookup_middle _ _ _ _ Hl1). exact Hd.
    + simpl. fold_leaves. rewrite children_leaves_app, children_leaves_cons, Hlv.
      rewrite <- !app_assoc. reflexivity.
    + rewrite leaf_slots_app. apply Forall_app. split; assumption.
Qed.

Lemma range_scan_app s1 s2 lo hi acc :
  range_scan (s1 ++ s2) lo hi acc
  = if (range_scan s1 lo hi acc).2 then ((range_scan s1 lo hi acc).1, true)
    else range_scan s2 lo hi (range_scan s1 lo hi acc).1.
Proof.
  revert acc. induction s1 as [| [k v] s1 IH]; intros acc; simpl; [reflexivity |].
  destruct (k >? hi); [reflexivity | apply IH].
Qed.

Lemma filter_out_of_range E lo hi :
  Forall (λ e, e.1 < lo ∨ hi < e.1) E → filter (in_range lo hi) E = [].
Proof.
  induction 1 as [| e E He _ IH]; [reflexivity |].
  rewrite filter_cons, decide_False by (unfold in_range; lia). exact IH.
Qed.

Lemma range_scan_sorted E lo hi acc :
  StronglySorted Z.lt E.*1 →
  (range_scan E lo hi acc).1 = acc ++ filter (in_range lo hi) E.
Proof.
  revert acc. induction E as [| [k v] E IH]; intros acc Hs.
  - simpl. rewrite app_nil_r. reflexivity.
  - rewrite fmap_cons in Hs. apply StronglySorted_cons in Hs as [Hall Hs].
    rewrite Forall_fmap in Hall. cbn [range_scan]. rewrite filter_cons.
    destruct (Z.gtb_spec k hi) as [Hgt | Hle].
    + rewrite decide_False by (unfold in_range; simpl; lia).
      rewrite filter_out_of_range; [rewrite app_nil_r; reflexivity |].
      eapply Forall_impl; [exact Hall |].
      simpl. intros e He. lia.
    + rewrite IH by exact Hs. destruct (Z.geb_spec k lo) as [Hge | Hlt].
      * rewrite decide_True by (unfold in_range; simpl; lia).
        rewrite <- app_assoc. reflexivity.
      * rewrite decide_False by (unfold in_range; simpl; lia). reflexivity.
Qed.

Lemma range_walk_spec root lo hi (L2 : list (LeafCell)) :
  ∀ a s nx fuel acc,
  chain_sk (Some a) (skeleton ((a, s, nx) :: L2)) None →
  (∀ l, l ∈ L2 →
     leaf_at root (cell_addr l) = Some (Leaf (cell_addr l) (cell_slots l) (cell_next l))) →
  (length L2 < fuel)%nat →
  range_walk fuel root (Some (Leaf a s nx)) lo hi acc
  = Some (range_scan (s ++ leaf_slots L2) lo hi acc).1.
Proof.
  induction L2 as [| l' L2 IH]; intros a s nx fuel acc Hch Hfind Hfuel;
    simpl in Hch; destruct Hch as [_ Hch].
  - subst nx. unfold leaf_slots. simpl. rewrite app_nil_r.
    destruct fuel as [| fuel]; [simpl in Hfuel; lia |]. simpl.
    destruct (range_scan s lo hi acc) as [r [|]]; reflexivity.
  - destruct Hch as [-> Hch].
    destruct fuel as [| fuel]; [simpl in Hfuel; lia |].
    rewrite leaf_slots_cons, range_scan_app. simpl.
    destruct (range_scan s lo hi acc) as [r [|]] eqn:Hscan; simpl; [reflexivity |].
    rewrite (Hfind l') by left.
    apply IH.
    + simpl. auto.
    + intros l Hl. apply Hfind. right. exact Hl.
    + simpl in Hfuel. lia.
Qed.

Lemma range_spec tr lo hi fuel :
  Inv tr → (length (leaves (root_ tr)) ≤ fuel)%nat →
  range fuel tr lo hi = Some (filter (in_range lo hi) (entries (root_ tr))).
Proof.
  intros [Hok [p Hch] Hnd Hheap Hsize] Hfuel.
  pose proof (ok_sorted _ _ _ Hok) as Hsorted.
  destruct (descend_lower_spec (root_ tr) None None lo Hok)
    as (L1 & a & s & nx & L2 & Hd & Hlv & Hlt).
  unfold range. rewrite Hd.
  assert (Hent : entries (root_ tr) = leaf_slots L1 ++ s ++ leaf_slots L2).
  { unfold entries. rewrite Hlv, leaf_slots_app, leaf_slots_cons. reflexivity. }
  rewrite Hent in Hsorted |- *.
  rewrite fmap_app in Hsorted. apply StronglySorted_app_1_r in Hsorted.
  rewrite Hlv in Hch, Hnd, Hfuel.
  rewrite (range_walk_spec (root_ tr) lo hi L2).
  - rewrite range_scan_sorted by exact Hsorted. simpl.
    rewrite (filter_app _ (leaf_slots L1)).
    rewrite (filter_out_of_range (leaf_slots L1)); [reflexivity |].
    eapply Forall_impl; [exact Hlt |]. simpl. intros e He. lia.
  - apply chain_from_sk in Hch. rewrite skeleton_app in Hch.
    apply chain_sk_app in Hch as (m & _ & Hch). simpl in Hch |- *.
    destruct Hch as [_ Hch]. auto.
  - intros [[a' s'] nx'] Hl. unfold cell_addr, cell_slots, cell_next. simpl.
    rewrite leaf_at_find, Hlv.
    apply list_elem_of_split in Hl as (La & Lb & ->).
    change (L1 ++ (a, s, nx) :: La ++ (a', s', nx') :: Lb)
      with (L1 ++ ((a, s, nx) :: La) ++ (a', s', nx') :: Lb) in Hnd |- *.
    rewrite app_assoc in Hnd |- *.
    apply find_cell_middle. exact Hnd.
  - rewrite length_app in Hfuel. simpl in Hfuel. lia.
Qed.

End Trees.

(** *** Sequences of operations *)

Inductive op (Value : Type) : Type :=
| Insert (key : Z) (value : Value)
| Update (key : Z) (value : Value)
| Remove (key : Z).
Arguments Insert {Value}.
Arguments Update {Value}.
Arguments Remove {Value}.

Section Runs.
Context {Value : Type}.
Variable Order : nat.

Definition step (tr : t Value) (o : op Value) : t Value :=
  match o with
  | Insert k v => insert Order tr k v
  | Update k v => (update tr k v).2
  | Remove k => (remove tr k).2
  end.

Definition run (tr : t Value) (ops : list (op Value)) : t Value :=
  fold_left step ops tr.

(** The finite map the operations describe. *)
Definition model_step (m : gmap Z Value) (o : op Value) : gmap Z Value :=
  match o with
  | Insert k v => <[k := v]> m
  | Update k v => alter (λ _, v) k m
  | Remove k => delete k m
  end.

Definition model (ops : list (op Value)) : gmap Z Value :=
  fold_left model_step ops ∅.

(** Every [Insert] uses a key that is not in the map at that time. *)
Fixpoint distinct_inserts (m : gmap Z Value) (ops : list (op Value)) : Prop :=
  match ops with
  | [] => True
  | o :: ops' =>
      match o with
      | Insert k _ => m !! k = None
      | _ => True
      end ∧ distinct_inserts (model_step m o) ops'
  end.

Lemma step_spec tr o :
  Inv tr →
  match o with Insert k _ => contents tr !! k = None | _ => True end →
  Inv (step tr o) ∧ contents (step tr o) = model_step (contents tr) o.
Proof.
  intros HI Hfresh. destruct o as [k v | k v | k]; simpl.
  - destruct (insert_spec Order tr k v HI Hfresh) as (H1 & H2 & _). auto.
  - destruct (update_spec tr k v HI) as (H1 & H2 & _). auto.
  - destruct (remove_spec tr k HI) as (H1 & H2 & _). auto.
Qed.

Lemma run_spec ops :
  ∀ tr, Inv tr → distinct_inserts (contents tr) ops →
  Inv (run tr ops) ∧ contents (run tr ops) = fold_left model_step ops (contents tr).
Proof.
  induction ops as [| o ops IH]; intros tr HI Hd; simpl.
  - auto.
  - destruct Hd as [Hfresh Hd].
    destruct (step_spec tr o HI Hfresh) as [HI' Hc'].
    rewrite <- Hc' in Hd |- *. apply IH; assumption.
Qed.

Lemma run_from_new t0 ops :
  new Order = inr t0 → distinct_inserts ∅ ops →
  Inv (run t0 ops) ∧ contents (run t0 ops) = model ops.
Proof.
  intros Hnew Hd. destruct (Inv_new Order t0 Hnew) as [HI Hc].
  unfold model. rewrite <- Hc in Hd |- *. apply run_spec; assumption.
Qed.

(** An operation that can change what is stored under [key]. *)
Definition rewrites (key : Z) (o : op Value) : Prop :=
  match o with
  | Insert _ _ => False
  | Update k _ | Remove k => k = key
  end.

Lemma model_keeps ops :
  ∀ m key v, m !! key = Some v → distinct_inserts m ops →
  Forall (λ o, ¬ rewrites key o) ops →
  fold_left model_step ops m !! key = Some v.
Proof.
  induction ops as [| o ops IH]; intros m key v Hm Hd Hno; simpl; [exact Hm |].
  destruct Hd as [Hfresh Hd]. apply Forall_cons in Hno as [Ho Hno].
  apply IH; try assumption.
  destruct o as [k w | k w | k]; simpl in *.
  - rewrite lookup_insert_ne; [exact Hm | congruence].
  - rewrite lookup_alter_ne; [exact Hm | exact Ho].
  - rewrite lookup_delete_ne; [exact Hm | exact Ho].
Qed.

Lemma distinct_inserts_app m ops1 ops2 :
  distinct_inserts m (ops1 ++ ops2) →
  distinct_inserts m ops1 ∧ distinct_inserts (fold_left model_step ops1 m) ops2.
Proof.
  revert m. induction ops1 as [| o ops1 IH]; intros m; simpl; [auto |].
  intros [Ho Hd]. destruct (IH _ Hd). auto.
Qed.

End Runs.

(** C2.  After any sequence of [insert] (of keys not in the tree),
    [update] and [remove] on a new tree, [search key] returns what the
    sequence leaves under [key]; in particular a pair inserted by the
    sequence is found under its key as long as no later [update] or [remove]
    names that key. *)
Theorem search_after_inserts (Value : Type) (Order : nat) (t0 : t Value)
  (ops : list (op Value)) :
  (2 ≤ Order)%nat → new Order = inr t0 → distinct_inserts ∅ ops →
  (∀ key, search (run Order t0 ops) key = model ops !! key)
  ∧ (∀ ops1 key value ops2,
       ops = ops1 ++ Insert key value :: ops2 →
       Forall (λ o, ¬ rewrites key o) ops2 →
       search (run Order t0 ops) key = Some value).
Proof.
  intros _ Hnew Hd. destruct (run_from_new Order t0 ops Hnew Hd) as [HI Hc].
  assert (Hsearch : ∀ key, search (run Order t0 ops) key = model ops !! key).
  { intros key. rewrite search_contents by exact HI. rewrite Hc. reflexivity. }
  split; [exact Hsearch |].
  intros ops1 key value ops2 -> Hno. rewrite Hsearch.
  unfold model in *. rewrite fold_left_app. simpl.
  apply distinct_inserts_app in Hd as [_ Hd]. simpl in Hd. destruct Hd as [_ Hd].
  apply model_keeps; [apply lookup_insert_eq | exact Hd | exact Hno].
Qed.

Lemma search_after_inserts_witness :
  new (Value := Z) 4 = inr (mk (Leaf 0 [] None) 0 1)
  ∧ search (run 4 (mk (Leaf 0 [] None) 0 1)
              [Insert 1 10; Insert 2 20; Insert 3 30; Insert 4 40; Remove 2]) 3
    = model [Insert 1 10; Insert 2 20; Insert 3 30; Insert 4 40; Remove 2] !! 3.
Proof.
  split; [reflexivity |].
  refine (proj1 (search_after_inserts Z 4 _ _ _ eq_refl _) 3).
  - lia.
  - simpl. repeat split; vm_compute; reflexivity.
Defined.

(** The keys 1..20 of the range unit test, each stored under itself. *)
Definition keys_1_20 : list (op Z) :=
  (λ i, Insert (Z.of_nat i) (Z.of_nat i)) <$> seq 1 20.

(** C3.  On a tree built by [insert] (of keys not in the tree), [update]
    and [remove], [range lo hi] returns, once the fuel covers the leaf
    chain, exactly the stored pairs with [lo <= key <= hi], in ascending key
    order.  For the keys 1..20, [range 5 10] is the six pairs 5..10. *)
Theorem range_correct :
  (∀ (Value : Type) (Order : nat) (t0 : t Value) (ops : list (op Value)) (lo hi : Z),
      (2 ≤ Order)%nat → new Order = inr t0 → distinct_inserts ∅ ops →
      ∃ l fuel0,
        (∀ fuel, (fuel0 ≤ fuel)%nat → range fuel (run Order t0 ops) lo hi = Some l)
        ∧ StronglySorted Z.lt l.*1
        ∧ ∀ k v, (k, v) ∈ l ↔ model ops !! k = Some v ∧ lo ≤ k ≤ hi)
  ∧ (∀ t0 : t Z,
      new 4 = inr t0 →
      range 20 (run 4 t0 keys_1_20) 5 10
      = Some [(5, 5); (6, 6); (7, 7); (8, 8); (9, 9); (10, 10)]).
Proof.
  split.
  - intros Value Order t0 ops lo hi _ Hnew Hd.
    destruct (run_from_new Order t0 ops Hnew Hd) as [HI Hc].
    set (tr := run Order t0 ops) in *.
    exists (filter (in_range lo hi) (entries (root_ tr))), (length (leaves (root_ tr))).
    split_and!.
    + intros fuel Hfuel. apply range_spec; assumption.
    + eapply StronglySorted_sublist_lt; [| apply (ok_sorted _ _ _ (inv_ok tr HI))].
      apply fmap_sublist, sublist_filter.
    + intros k v. rewrite list_elem_of_filter. unfold in_range. simpl.
      rewrite <- Hc. unfold contents.
      rewrite <- elem_of_list_to_map by (apply Inv_NoDup; exact HI). tauto.
  - intros t0 [= <-]. vm_compute. reflexivity.
Qed.

Lemma range_correct_witness :
  new (Value := Z) 4 = inr (mk (Leaf 0 [] None) 0 1)
  ∧ range 20 (run 4 (mk (Leaf 0 [] None) 0 1) keys_1_20) 5 10
    = Some [(5, 5); (6, 6); (7, 7); (8, 8); (9, 9); (10, 10)].
Proof.
  split; [reflexivity |].
  exact (proj2 range_correct _ eq_refl).
Defined.

(** C10.  On a tree built by [insert] (of keys not in the tree), [update]
    and [remove]: removing a stored key returns true, lowers [size] by one,
    makes [search] of that key empty and leaves [search] of every other key
    as it was; removing an absent key returns false and leaves the tree as
    it was. *)
Theorem remove_preserves_others (Value : Type) (Order : nat) (t0 : t Value)
  (ops : list (op Value)) (key : Z) :
  (2 ≤ Order)%nat → new Order = inr t0 → distinct_inserts ∅ ops →
  (is_Some (model ops !! key) →
     (remove (run Order t0 ops) key).1 = true
     ∧ S (size (remove (run Order t0 ops) key).2) = size (run Order t0 ops)
     ∧ search (remove (run Order t0 ops) key).2 key = None
     ∧ ∀ key', key' ≠ key →
         search (remove (run Order t0 ops) key).2 key' = search (run Order t0 ops) key'
         ∧ search (run Order t0 ops) key' = model ops !! key')
  ∧ (model ops !! key = None →
     (remove (run Order t0 ops) key).1 = false
     ∧ (remove (run Order t0 ops) key).2 = run Order t0 ops).
Proof.
  intros _ Hnew Hd. destruct (run_from_new Order t0 ops Hnew Hd) as [HI Hc].
  set (tr := run Order t0 ops) in *.
  destruct (remove_spec tr key HI) as (HI' & Hc' & Hflag & Hsize & Hsame).
  assert (Hfound : found (entries (root_ tr)) key
                   = match model ops !! key with Some _ => true | None => false end).
  { unfold found. rewrite <- Hc, contents_lookup. reflexivity. }
  rewrite Hfound in Hflag. split.
  - intros [v Hv]. rewrite Hv in Hflag. split_and!.
    + exact Hflag.
    + apply Hsize. exact Hflag.
    + rewrite search_contents, Hc' by exact HI'. apply lookup_delete_eq.
    + intros key' Hne. rewrite !search_contents, Hc', Hc by assumption.
      split; [apply lookup_delete_ne; congruence | reflexivity].
  - intros Hv. rewrite Hv in Hflag. split; [exact Hflag | apply Hsame; exact Hflag].
Qed.

Lemma remove_preserves_others_witness :
  new (Value := Z) 4 = inr (mk (Leaf 0 [] None) 0 1)
  ∧ (remove (run 4 (mk (Leaf 0 [] None) 0 1) keys_1_20) 7).1 = true.
Proof.
  split; [reflexivity |].
  refine (proj1 (proj1 (remove_preserves_others Z 4 _ keys_1_20 7 _ eq_refl _) _)).
  - lia.
  - vm_compute. repeat split.
  - vm_compute. eauto.
Defined.

End BPlusTreeFacts.

(** ** Facts about the record format *)

Module CodecFacts.
Import Codec.

Lemma Z_of_byte_of_Z z : Z_of_byte (byte_of_Z z) = z mod 256.
Proof.
  unfold Z_of_byte, byte_of_Z.
  pose proof (Z.mod_pos_bound z 256 ltac:(lia)) as Hb.
  destruct (Byte.of_N (Z.to_N (z mod 256))) as [b |] eqn:Hof; simpl.
  - apply Byte.to_of_N in Hof. rewrite Hof. lia.
  - apply Byte.of_N_None_iff in Hof. lia.
Qed.

Lemma Z_of_byte_range b : 0 ≤ Z_of_byte b < 256.
Proof. unfold Z_of_byte. pose proof (Byte.to_N_bounded b). lia. Qed.

Lemma length_encode_le n z : length (encode_le n z) = n.
Proof. revert z. induction n as [| n IH]; intros z; simpl; [reflexivity | f_equal; apply IH]. Qed.

Lemma decode_encode_le n z : decode_le (encode_le n z) = z mod 2 ^ (8 * Z.of_nat n).
Proof.
  revert z. induction n as [| n IH]; intros z.
  - simpl. rewrite Z.mod_1_r. reflexivity.
  - cbn [encode_le decode_le]. rewrite Z_of_byte_of_Z, IH.
    replace (2 ^ (8 * Z.of_nat (S n))) with (256 * 2 ^ (8 * Z.of_nat n)).
    + rewrite Z.rem_mul_r by lia. reflexivity.
    + replace (8 * Z.of_nat (S n)) with (8 + 8 * Z.of_nat n) by lia.
      rewrite Z.pow_add_r by lia. reflexivity.
Qed.

Lemma to_signed_mod n z :
  (0 < n)%nat →
  - 2 ^ (8 * Z.of_nat n - 1) ≤ z < 2 ^ (8 * Z.of_nat n - 1) →
  to_signed n (z mod 2 ^ (8 * Z.of_nat n)) = z.
Proof.
  intros Hn Hz. unfold to_signed.
  assert (Hpow : 2 ^ (8 * Z.of_nat n) = 2 * 2 ^ (8 * Z.of_nat n - 1)).
  { rewrite <- Z.pow_succ_r by lia. f_equal. lia. }
  assert (0 < 2 ^ (8 * Z.of_nat n - 1)) by (apply Z.pow_pos_nonneg; lia).
  destruct (Z_lt_le_dec z 0) as [Hneg | Hpos].
  - replace (z mod 2 ^ (8 * Z.of_nat n)) with (z + 2 ^ (8 * Z.of_nat n)).
    + destruct (Z.ltb_spec (z + 2 ^ (8 * Z.of_nat n)) (2 ^ (8 * Z.of_nat n - 1))); lia.
    + apply (Z.mod_unique _ _ (-1)); lia.
  - rewrite Z.mod_small by lia.
    destruct (Z.ltb_spec z (2 ^ (8 * Z.of_nat n - 1))); lia.
Qed.

Lemma bind_step {A B} (m : reader A) (k : A → reader B) f x f' :
  m f = Some (x, f') → bind m k f = k x f'.
Proof. unfold bind. intros ->. reflexivity. Qed.

Lemma read_bytes_app bs rest : read_bytes (length bs) (bs ++ rest) = Some (bs, rest).
Proof.
  unfold read_bytes. rewrite length_app.
  destruct (Nat.ltb_spec (length bs + length rest) (length bs)); [lia |].
  rewrite take_app_length, drop_app_length. reflexivity.
Qed.

Lemma read_unsigned_encode n z rest :
  0 ≤ z < 2 ^ (8 * Z.of_nat n) →
  read_unsigned n (encode_le n z ++ rest) = Some (z, rest).
Proof.
  intros Hz. unfold read_unsigned.
  rewrite (bind_step _ _ _ (encode_le n z) rest).
  - unfold ret. rewrite decode_encode_le, Z.mod_small by lia. reflexivity.
  - rewrite <- (length_encode_le n z) at 1. apply read_bytes_app.
Qed.

Lemma read_signed_encode n z rest :
  (0 < n)%nat →
  - 2 ^ (8 * Z.of_nat n - 1) ≤ z < 2 ^ (8 * Z.of_nat n - 1) →
  read_signed n (encode_le n z ++ rest) = Some (z, rest).
Proof.
  intros Hn Hz. unfold read_signed.
  rewrite (bind_step _ _ _ (encode_le n z) rest).
  - unfold ret. rewrite decode_encode_le, to_signed_mod by assumption. reflexivity.
  - rewrite <- (length_encode_le n z) at 1. apply read_bytes_app.
Qed.

Lemma read_string_write s rest :
  Z.of_nat (length s) < 2 ^ 64 →
  read_string (write_string s ++ rest) = Some (s, rest).
Proof.
  intros Hs. unfold read_string, write_string. rewrite <- app_assoc.
  rewrite (bind_step _ _ _ (Z.of_nat (length s)) (s ++ rest)).
  - rewrite Nat2Z.id. apply read_bytes_app.
  - apply read_unsigned_encode. change (8 * Z.of_nat 8) with 64. lia.
Qed.

Lemma read_tier_write t rest :
  read_enum tier_of_Z (encode_le 4 (tier_to_Z t) ++ rest) = Some (t, rest).
Proof.
  unfold read_enum. rewrite (bind_step _ _ _ (tier_to_Z t) rest).
  - destruct t; reflexivity.
  - apply read_signed_encode; [lia |]. change (8 * Z.of_nat 4 - 1) with 31.
    destruct t; simpl; lia.
Qed.

Lemma read_status_write s rest :
  read_enum status_of_Z (encode_le 4 (status_to_Z s) ++ rest) = Some (s, rest).
Proof.
  unfold read_enum. rewrite (bind_step _ _ _ (status_to_Z s) rest).
  - destruct s; reflexivity.
  - apply read_signed_encode; [lia |]. change (8 * Z.of_nat 4 - 1) with 31.
    destruct s; simpl; lia.
Qed.

(** The values the C++ field types can hold. *)
Record customer_wf (c : Customer) : Prop := {
  wf_id : - 2 ^ 63 ≤ id c < 2 ^ 63;
  wf_name : Z.of_nat (length (name c)) < 2 ^ 64;
  wf_email : Z.of_nat (length (email c)) < 2 ^ 64;
  wf_phone : Z.of_nat (length (phone c)) < 2 ^ 64;
  wf_address : Z.of_nat (length (address c)) < 2 ^ 64;
  wf_country : Z.of_nat (length (country c)) < 2 ^ 64;
  wf_state : Z.of_nat (length (state c)) < 2 ^ 64;
  wf_credit_score : - 2 ^ 31 ≤ credit_score c < 2 ^ 31;
  wf_credit_limit : 0 ≤ credit_limit c < 2 ^ 64;
  wf_current_balance : 0 ≤ current_balance c < 2 ^ 64;
  wf_total_spent : 0 ≤ total_spent c < 2 ^ 64;
  wf_created_at : - 2 ^ 63 ≤ created_at c < 2 ^ 63;
  wf_updated_at : - 2 ^ 63 ≤ updated_at c < 2 ^ 63
}.

Lemma read_write_customer c rest :
  customer_wf c → read_customer (write_customer c ++ rest) = Some (c, rest).
Proof.
  intros [].
  unfold write_customer, read_customer. rewrite <- !app_assoc.
  rewrite (bind_step _ _ _ (id c) _)
    by (apply read_signed_encode; [lia | change (8 * Z.of_nat 8 - 1) with 63; lia]).
  do 6 (erewrite bind_step by (apply read_string_write; assumption)).
  erewrite bind_step by apply read_tier_write.
  erewrite bind_step by apply read_status_write.
  erewrite bind_step
    by (apply read_signed_encode; [lia | change (8 * Z.of_nat 4 - 1) with 31; lia]).
  do 3 (erewrite bind_step
          by (apply read_unsigned_encode; change (8 * Z.of_nat 8) with 64; lia)).
  do 2 (erewrite bind_step
    by (apply read_signed_encode; [lia | change (8 * Z.of_nat 8 - 1) with 63; lia])).
  unfold ret. destruct c; reflexivity.
Qed.

End CodecFacts.

(** ** Facts about the customer repository *)

Module RepositoryFacts.
Import Codec CodecFacts CustomerRepository.

(** Every record sits under its own id and holds values of its field types. *)
Definition store_wf (m : gmap Z Customer) : Prop :=
  ∀ k c, m !! k = Some c → id c = k ∧ customer_wf c.

(** One iteration of the loop of [load_all]. *)
Definition load_one (r : t) (c : Customer) : t :=
  {| store_ := <[id c := c]> (store_ r);
     index_ := BPlusTree.insert 4 (index_ r) (id c) (id c);
     cache_ := cache_ r |}.

Lemma load_records_written cs :
  ∀ r rest, Forall customer_wf cs →
  load_records (length cs) r (concat (write_customer <$> cs) ++ rest)
  = Some (fold_left load_one cs r, rest).
Proof.
  induction cs as [| c cs IH]; intros r rest Hwf; [reflexivity |].
  apply Forall_cons in Hwf as [Hc Hcs].
  cbn [length load_records fmap list_fmap concat]. rewrite <- app_assoc.
  rewrite (bind_step _ _ _ c (concat (write_customer <$> cs) ++ rest))
    by (apply read_write_customer; exact Hc).
  apply IH. exact Hcs.
Qed.

Lemma load_records_cache n :
  ∀ r f r' f', load_records n r f = Some (r', f') → cache_ r' = cache_ r.
Proof.
  induction n as [| n IH]; intros r f r' f'; simpl.
  - unfold ret. intros [= <- _]. reflexivity.
  - unfold bind. destruct (read_customer f) as [[c f1] |]; [| discriminate].
    intros Hl. apply IH in Hl. exact Hl.
Qed.

Lemma fold_load_one_cache cs r : cache_ (fold_left load_one cs r) = cache_ r.
Proof. revert r. induction cs as [| c cs IH]; intros r; simpl; [reflexivity | rewrite IH; reflexivity]. Qed.

Lemma fold_load_one_store cs :
  ∀ r k, NoDup (id <$> cs) →
  store_ (fold_left load_one cs r) !! k
  = match (list_to_map ((λ c, (id c, c)) <$> cs) : gmap Z Customer) !! k with
    | Some c => Some c
    | None => store_ r !! k
    end.
Proof.
  induction cs as [| c cs IH]; intros r k Hnd; simpl.
  - rewrite lookup_empty. reflexivity.
  - apply NoDup_cons in Hnd as [Hni Hnd]. rewrite IH by exact Hnd. simpl.
    destruct (decide (id c = k)) as [<- | Hne].
    + rewrite !lookup_insert_eq.
      rewrite (not_elem_of_list_to_map_1 _ (id c)); [reflexivity |].
      rewrite <- list_fmap_compose. exact Hni.
    + rewrite !lookup_insert_ne by exact Hne. reflexivity.
Qed.

Section Iteration.
Variable iteration : gmap Z Customer → list (Z * Customer).
Hypothesis iteration_perm : ∀ m, iteration m ≡ₚ map_to_list m.

Lemma iteration_elem m k c : (k, c) ∈ iteration m ↔ m !! k = Some c.
Proof. rewrite iteration_perm. apply elem_of_map_to_list. Qed.

Lemma flush_then_load r d r0 :
  writable d = true → store_wf (store_ r) → Z.of_nat (size (store_ r)) < 2 ^ 64 →
  store_ r0 = ∅ →
  ∃ d' r2,
    flush iteration r d = (d', None)
    ∧ load_all r0 d' = Some r2
    ∧ store_ r2 = store_ r ∧ cache_ r2 = cache_ r0.
Proof.
  intros Hw Hwf Hsize Hr0. unfold flush. rewrite Hw.
  eexists _, _. split; [reflexivity |].
  unfold load_all. cbn [file].
  set (cs := (iteration (store_ r)).*2).
  assert (Hlen : length cs = size (store_ r)).
  { unfold cs. rewrite length_fmap, iteration_perm. apply length_map_to_list. }
  assert (Hbody : (λ e : Z * Customer, write_customer e.2) <$> iteration (store_ r)
                  = write_customer <$> cs).
  { unfold cs. rewrite <- list_fmap_compose. reflexivity. }
  rewrite Hbody.
  rewrite take_app_length' by (symmetry; apply length_encode_le).
  rewrite drop_app_length' by (symmetry; apply length_encode_le).
  rewrite decode_encode_le, Z.mod_small by (change (8 * Z.of_nat 8) with 64; lia).
  rewrite Nat2Z.id, <- Hlen.
  assert (Hcs : Forall customer_wf cs).
  { unfold cs. rewrite Forall_fmap, Forall_forall. intros [k c] Hin.
    apply iteration_elem in Hin. apply (Hwf k c Hin). }
  rewrite <- (app_nil_r (concat _)), (load_records_written cs r0 [] Hcs).
  split; [reflexivity |]. split; [| apply fold_load_one_cache].
  assert (Hpairs : (λ c, (id c, c)) <$> cs = iteration (store_ r)).
  { unfold cs. rewrite <- list_fmap_compose.
    transitivity ((λ e : Z * Customer, e) <$> iteration (store_ r));
      [| apply list_fmap_id].
    apply Forall_fmap_ext. rewrite Forall_forall. intros [k c] Hin. simpl.
    apply iteration_elem in Hin. destruct (Hwf k c Hin) as [-> _]. reflexivity. }
  subst cs. apply map_eq. intros k. rewrite fold_load_one_store.
  - rewrite Hpairs, Hr0, lookup_empty.
    rewrite (list_to_map_proper _ (map_to_list (store_ r))),
      list_to_map_to_list.
    + destruct (store_ r !! k); reflexivity.
    + rewrite iteration_perm. apply NoDup_fst_map_to_list.
    + apply iteration_perm.
  - replace (id <$> (iteration (store_ r)).*2) with ((iteration (store_ r)).*1).
    + rewrite iteration_perm. apply NoDup_fst_map_to_list.
    + rewrite <- list_fmap_compose. apply Forall_fmap_ext.
      rewrite Forall_forall. intros [k' c] Hin. simpl.
      apply iteration_elem in Hin. destruct (Hwf k' c Hin) as [-> _]. reflexivity.
Qed.

End Iteration.

Lemma store_wf_insert m c : store_wf m → customer_wf c → store_wf (<[id c := c]> m).
Proof.
  intros Hm Hc k c' Hl. apply lookup_insert_Some in Hl as [[<- <-] | [_ Hl]]; auto.
Qed.

Lemma store_wf_delete m k : store_wf m → store_wf (delete k m).
Proof. intros Hm k' c' Hl. apply lookup_delete_Some in Hl as [_ Hl]. auto. Qed.

Lemma size_insert_le (m : gmap Z Customer) k c : (size (<[k := c]> m) ≤ S (size m))%nat.
Proof.
  destruct (m !! k) eqn:Hk.
  - rewrite map_size_insert_Some by eauto. lia.
  - rewrite map_size_insert_None by exact Hk. lia.
Qed.

(** The repository a restart builds before it replays the file. *)
Definition blank : t :=
  {| store_ := ∅;
     index_ := BPlusTree.mk (BPlusTree.Leaf 0 [] None) 0 1;
     cache_ := LRUCache.mk 256 [] ∅ false 0 0 0%nat |}.

Lemma new_load d : new d = load_all blank d.
Proof. reflexivity. Qed.

Lemma find_by_id_cold r i :
  cache_ r = cache_ blank → (find_by_id r i).1 = store_ r !! i.
Proof.
  intros Hc. unfold find_by_id, LRUCache.get. rewrite Hc. simpl.
  rewrite lookup_empty. destruct (store_ r !! i); reflexivity.
Qed.

(** C1.  A record saved with [save] is found again, field for field, by
    [find_by_id] in the repository that a restart builds from the data file:
    [read_customer] undoes [write_customer], and replaying what [flush] wrote
    rebuilds the same map, whatever order the map is iterated in.  The
    records must hold values of their C++ field types, each under its own
    id, and the data file must be writable. *)
Theorem save_then_restart (iteration : gmap Z Customer → list (Z * Customer))
  (r : t) (d : Disk) (c : Customer) :
  (∀ m, iteration m ≡ₚ map_to_list m) →
  store_wf (store_ r) → customer_wf c →
  Z.of_nat (size (store_ r)) + 1 < 2 ^ 64 →
  writable d = true →
  ∃ r' d' r2,
    save iteration r d c = (r', d', None)
    ∧ new d' = Some r2
    ∧ store_ r2 = store_ r'
    ∧ (find_by_id r2 (id c)).1 = Some c
    ∧ ∀ rest, read_customer (write_customer c ++ rest) = Some (c, rest).
Proof.
  intros Hperm Hwf Hc Hsize Hw. unfold save.
  set (r' := {| store_ := <[id c := c]> (store_ r);
                index_ := BPlusTree.insert 4 (index_ r) (id c) (id c);
                cache_ := (LRUCache.put (cache_ r) (id c) c).1 |}).
  destruct (flush_then_load iteration Hperm r' d blank Hw) as (d' & r2 & Hf & Hl & Hs & Hca).
  - apply store_wf_insert; assumption.
  - simpl. pose proof (size_insert_le (store_ r) (id c) c). lia.
  - reflexivity.
  - exists r', d', r2. rewrite Hf. split_and!; try done.
    + rewrite (find_by_id_cold r2 (id c) Hca), Hs. simpl. apply lookup_insert_eq.
    + intros rest. apply read_write_customer. exact Hc.
Qed.

(** A customer used in the examples. *)
Definition sample_customer : Customer :=
  {| id := 7; name := [x41; x64; x61]; email := [x61; x40; x62]; phone := [];
     address := []; country := [x55; x53]; state := [x43; x41];
     tier := GOLD; status := ACTIVE; credit_score := 700;
     credit_limit := 4662219572839972864; current_balance := 0;
     total_spent := 4666723172467343360; created_at := 1704067200;
     updated_at := 1704067200 |}.

Lemma sample_customer_wf : customer_wf sample_customer.
Proof. split; simpl; lia. Qed.

Lemma save_then_restart_witness :
  writable (mkDisk None true) = true
  ∧ ∃ r' d' r2,
      save map_to_list blank (mkDisk None true) sample_customer = (r', d', None)
      ∧ new d' = Some r2
      ∧ store_ r2 = store_ r'
      ∧ (find_by_id r2 (id sample_customer)).1 = Some sample_customer
      ∧ ∀ rest, read_customer (write_customer sample_customer ++ rest)
                = Some (sample_customer, rest).
Proof.
  split; [reflexivity |].
  apply (save_then_restart map_to_list blank (mkDisk None true) sample_customer).
  - intros m. reflexivity.
  - intros k c Hl. simpl in Hl. rewrite lookup_empty in Hl. discriminate.
  - exact sample_customer_wf.
  - simpl. rewrite map_size_empty. lia.
  - reflexivity.
Defined.

(** *** Reachable repository states *)

Inductive rop : Type :=
| Save (customer : Customer)
| Update (customer : Customer)
| Remove (i : Z)
| FindById (i : Z)
| SetWritable (b : bool).

Section Reach.
Variable iteration : gmap Z Customer → list (Z * Customer).

(** One call on the repository, or a change of the data directory's
    permissions; an exception thrown by [flush] leaves the state the call
    had reached. *)
Definition rstep (s : t * Disk) (o : rop) : t * Disk :=
  match o with
  | Save c => let '(r', d', _) := save iteration s.1 s.2 c in (r', d')
  | Update c => let '(_, r', d', _) := update iteration s.1 s.2 c in (r', d')
  | Remove i => let '(_, r', d', _) := remove iteration s.1 s.2 i in (r', d')
  | FindById i => ((find_by_id s.1 i).2, s.2)
  | SetWritable b => (s.1, {| file := file s.2; writable := b |})
  end.

Definition rrun (s : t * Disk) (ops : list rop) : t * Disk := fold_left rstep ops s.

(** The cache mirrors the map: what it holds for an id is what the map
    holds. *)
Definition cache_ok (r : t) : Prop :=
  LRUFacts.wf (cache_ r)
  ∧ ∀ k v, LRUFacts.peek (cache_ r) k = Some v → store_ r !! k = Some v.

Lemma cache_ok_put r index k c :
  cache_ok r →
  cache_ok {| store_ := <[k := c]> (store_ r); index_ := index;
              cache_ := (LRUCache.put (cache_ r) k c).1 |}.
Proof.
  intros [Hwf Hm]. split; simpl; [apply LRUFacts.wf_put; exact Hwf |].
  destruct (LRUFacts.put_peek (cache_ r) k c Hwf) as [Heq Hne].
  intros k' v' Hp. destruct (decide (k' = k)) as [-> | Hk].
  - rewrite Heq in Hp. injection Hp as <-. apply lookup_insert_eq.
  - rewrite lookup_insert_ne by congruence. apply Hm. eapply Hne; eauto.
Qed.

Lemma flush_fst r d : ∃ d' e, flush iteration r d = (d', e).
Proof. destruct (flush iteration r d) as [d' e]. eauto. Qed.

Lemma rstep_cache_ok s o : cache_ok s.1 → cache_ok (rstep s o).1.
Proof.
  destruct s as [r d]. simpl. intros Hok. pose proof Hok as [Hwf Hm].
  destruct o as [c | c | i | i | b]; simpl.
  - unfold save. destruct (flush iteration _ d) as [d' e]. simpl.
    apply cache_ok_put. exact Hok.
  - unfold update. destruct (store_ r !! id c); [| exact Hok].
    destruct (flush iteration _ d) as [d' e]. simpl.
    apply cache_ok_put. exact Hok.
  - unfold remove. destruct (store_ r !! i); [| exact Hok].
    destruct (flush iteration _ d) as [d' e]. simpl.
    split; simpl; [apply LRUFacts.wf_evict; exact Hwf |].
    destruct (LRUFacts.evict_peek (cache_ r) i Hwf) as [Heq Hne].
    intros k' v' Hp. destruct (decide (k' = i)) as [-> | Hk]; [congruence |].
    rewrite lookup_delete_ne by congruence. apply Hm. eapply Hne; eauto.
  - unfold find_by_id.
    destruct (LRUFacts.get_peek (cache_ r) i Hwf) as [Hget Hsame].
    pose proof (LRUFacts.wf_get (cache_ r) i Hwf) as Hwf'.
    destruct (LRUCache.get (cache_ r) i) as [[c |] cache]; simpl in *.
    + split; simpl; [exact Hwf' |]. intros k v. rewrite Hsame. apply Hm.
    + destruct (store_ r !! i) as [c |] eqn:Hs; simpl.
      * assert (Hok' : cache_ok {| store_ := store_ r; index_ := index_ r; cache_ := cache |}).
        { split; simpl; [exact Hwf' |]. intros k v. rewrite Hsame. apply Hm. }
        pose proof (cache_ok_put _ (index_ r) i c Hok') as Hput. simpl in Hput.
        rewrite insert_id in Hput by exact Hs. exact Hput.
      * split; simpl; [exact Hwf' |]. intros k v. rewrite Hsame. apply Hm.
  - exact Hok.
Qed.

Lemma rrun_cache_ok ops : ∀ s, cache_ok s.1 → cache_ok (rrun s ops).1.
Proof.
  induction ops as [| o ops IH]; intros s Hok; simpl; [exact Hok |].
  apply IH, rstep_cache_ok, Hok.
Qed.

Lemma new_cache_ok d r : new d = Some r → cache_ok r.
Proof.
  rewrite new_load. unfold load_all.
  assert (Hblank : cache_ok blank).
  { split; [| intros k v; unfold LRUFacts.peek; simpl; rewrite lookup_empty; discriminate].
    split; simpl; try lia.
    - constructor.
    - intros k i. rewrite lookup_empty. split; [discriminate |].
      intros [v Hv]. inversion Hv.
    - intros i Hi. inversion Hi. }
  destruct (file d) as [f |]; [| intros [= <-]; exact Hblank].
  destruct (load_records _ blank (drop 8 f)) as [[r' f'] |] eqn:Hl; [| discriminate].
  intros [= <-]. apply load_records_cache in Hl.
  assert (Hempty : store_ blank = ∅) by reflexivity.
  destruct Hblank as [Hwf Hm]. split; rewrite Hl; [exact Hwf |].
  intros k v Hp. apply Hm in Hp. simpl in Hp. rewrite lookup_empty in Hp. discriminate.
Qed.

Lemma find_by_id_spec r i :
  cache_ok r →
  (find_by_id r i).1 = store_ r !! i
  ∧ store_ (find_by_id r i).2 = store_ r
  ∧ index_ (find_by_id r i).2 = index_ r
  ∧ (∀ c, store_ r !! i = Some c →
          LRUFacts.peek (cache_ (find_by_id r i).2) i = Some c
          ∧ LRUCache.contains (cache_ (find_by_id r i).2) i = true).
Proof.
  intros Hok. pose proof Hok as [Hwf Hm].
  pose proof (rstep_cache_ok (r, mkDisk None false) (FindById i) Hok) as [Hwf' _].
  simpl in Hwf'.
  assert (Hpeek : ∀ c, store_ r !! i = Some c →
                       LRUFacts.peek (cache_ (find_by_id r i).2) i = Some c).
  { unfold find_by_id.
    destruct (LRUFacts.get_peek (cache_ r) i Hwf) as [Hget Hsame].
    pose proof (LRUFacts.wf_get (cache_ r) i Hwf) as Hwfg.
    destruct (LRUCache.get (cache_ r) i) as [[c |] cache]; simpl in *.
    - intros c' Hc'. rewrite Hsame, <- Hget. symmetry in Hget.
      apply Hm in Hget. congruence.
    - intros c' Hc'. rewrite Hc'. simpl.
      apply (LRUFacts.put_peek cache i c' Hwfg). }
  split_and!.
  - unfold find_by_id.
    destruct (LRUFacts.get_peek (cache_ r) i Hwf) as [Hget _].
    destruct (LRUCache.get (cache_ r) i) as [[c |] cache]; simpl in *.
    + symmetry. apply Hm. symmetry. exact Hget.
    + destruct (store_ r !! i); reflexivity.
  - unfold find_by_id. destruct (LRUCache.get (cache_ r) i) as [[c |] cache];
      [reflexivity |]. destruct (store_ r !! i); reflexivity.
  - unfold find_by_id. destruct (LRUCache.get (cache_ r) i) as [[c |] cache];
      [reflexivity |]. destruct (store_ r !! i); reflexivity.
  - intros c Hc. split; [apply Hpeek; exact Hc |].
    apply LRUFacts.contains_peek; [exact Hwf' |]. rewrite (Hpeek c Hc). eauto.
Qed.

End Reach.

(** C8.  In every state a repository reaches from its construction by
    [save], [update], [remove] and [find_by_id] calls (with [flush]
    succeeding or throwing), [find_by_id i] returns what the authoritative
    map holds for [i]: nothing when [i] is absent, the stored record when it
    is present, whether or not the cache holds it; the map is unchanged, and
    afterwards the cache holds the record found.  The function has no
    throwing path. *)
Theorem find_by_id_contract (iteration : gmap Z Customer → list (Z * Customer))
  (d0 : Disk) (r0 : t) (ops : list rop) (i : Z) :
  new d0 = Some r0 →
  (find_by_id (rrun iteration (r0, d0) ops).1 i).1
  = store_ (rrun iteration (r0, d0) ops).1 !! i
  ∧ store_ (find_by_id (rrun iteration (r0, d0) ops).1 i).2
    = store_ (rrun iteration (r0, d0) ops).1
  ∧ (∀ c, store_ (rrun iteration (r0, d0) ops).1 !! i = Some c →
          LRUFacts.peek (cache_ (find_by_id (rrun iteration (r0, d0) ops).1 i).2) i
          = Some c
          ∧ LRUCache.contains
              (cache_ (find_by_id (rrun iteration (r0, d0) ops).1 i).2) i = true).
Proof.
  intros Hnew.
  pose proof (rrun_cache_ok iteration ops (r0, d0) (new_cache_ok d0 r0 Hnew)) as Hok.
  destruct (find_by_id_spec iteration _ i Hok) as (H1 & H2 & _ & H4). auto.
Qed.

Lemma find_by_id_contract_witness :
  new (mkDisk None true) = Some blank
  ∧ (find_by_id (rrun map_to_list (blank, mkDisk None true)
                   [Save sample_customer; FindById 7; Remove 7]).1 7).1
    = store_ (rrun map_to_list (blank, mkDisk None true)
                [Save sample_customer; FindById 7; Remove 7]).1 !! 7.
Proof.
  split; [reflexivity |].
  exact (proj1 (find_by_id_contract map_to_list (mkDisk None true) blank
                  [Save sample_customer; FindById 7; Remove 7] 7 eq_refl)).
Defined.

(** C9 fails on the code: [save] inserts the id into the index without
    looking whether the map already has it.  After two [save] calls with the
    same record the map has one entry, the index has the key twice and
    [find_range] returns the record twice; the repository rebuilt from the
    data file returns it once. *)
Lemma save_twice_duplicates_index :
  let s := rrun map_to_list (blank, mkDisk None true)
             [Save sample_customer; Save sample_customer] in
  size (store_ s.1) = 1%nat
  ∧ store_ s.1 !! 7 = Some sample_customer
  ∧ (BPlusTreeFacts.entries (BPlusTree.root_ (index_ s.1))).*1 = [7; 7]
  ∧ find_range 8 s.1 7 7 = Some [sample_customer; sample_customer]
  ∧ ∃ r2, new s.2 = Some r2 ∧ find_range 8 r2 7 7 = Some [sample_customer].
Proof.
  cbv zeta. split_and!; try (vm_compute; reflexivity).
  eexists. split; vm_compute; reflexivity.
Qed.

End RepositoryFacts.

(** ** More facts about the B+Tree: traversal, update, size, node shape *)

Module BPlusTreeMore.
Import BPlusTree BPlusTreeFacts.

Section Traversal.
Context {Value : Type}.
Variable Order : nat.
Local Abbreviation LeafCell := (nat * list (Z * Value) * option nat)%type.
Implicit Types (n c : Node Value) (cs : list (Node Value)) (ks : list Z).
Implicit Types (s E : list (Z * Value)) (tr : t Value).

Lemma leftmost_spec n :
  ∀ lo hi, ok lo hi n →
  ∃ a s nx (L2 : list LeafCell),
    leftmost n = Some (Leaf a s nx) ∧ leaves n = (a, s, nx) :: L2.
Proof.
  induction n as [a s nx | ks cs IH] using Node_ind'; intros lo hi Hok.
  - exists a, s, nx, []. split; reflexivity.
  - inversion Hok as [| ? ? ? ? Hcs]; subst.
    assert (Hc : ∃ c cs' lo' hi', cs = c :: cs' ∧ ok lo' hi' c).
    { inversion Hcs; subst; eauto 6. }
    destruct Hc as (c & cs' & lo' & hi' & -> & Hc).
    apply Forall_cons in IH as [IHc _].
    destruct (IHc lo' hi' Hc) as (a & s & nx & L2 & Hl & Hlv).
    exists a, s, nx, (L2 ++ children_leaves cs'). split; [exact Hl |].
    simpl. rewrite Hlv. reflexivity.
Qed.

Lemma for_each_walk_spec root (L2 : list LeafCell) :
  ∀ a s nx fuel calls,
  chain_sk (Some a) (skeleton ((a, s, nx) :: L2)) None →
  (∀ l, l ∈ L2 →
     leaf_at root (cell_addr l) = Some (Leaf (cell_addr l) (cell_slots l) (cell_next l))) →
  (length L2 < fuel)%nat →
  for_each_walk fuel root (Some (Leaf a s nx)) calls
  = Some (calls ++ s ++ leaf_slots L2).
Proof.
  induction L2 as [| l' L2 IH]; intros a s nx fuel calls Hch Hfind Hfuel;
    simpl in Hch; destruct Hch as [_ Hch].
  - subst nx. destruct fuel as [| fuel]; [simpl in Hfuel; lia |]. simpl.
    unfold leaf_slots. simpl. rewrite app_nil_r. reflexivity.
  - destruct l' as [[a' s'] nx']. simpl in Hch. destruct Hch as [-> Hch].
    destruct fuel as [| fuel]; [simpl in Hfuel; lia |].
    cbn [for_each_walk]. rewrite (Hfind (a', s', nx')) by left.
    unfold cell_addr, cell_slots, cell_next. cbn [fst snd].
    rewrite (IH a' s' nx' fuel (calls ++ s)).
    + rewrite leaf_slots_cons, <- app_assoc. reflexivity.
    + simpl. auto.
    + intros l Hl. apply Hfind. right. exact Hl.
    + simpl in Hfuel. lia.
Qed.

Lemma for_each_spec tr fuel :
  Inv tr → (length (leaves (root_ tr)) ≤ fuel)%nat →
  for_each fuel tr = Some (entries (root_ tr)).
Proof.
  intros [Hok [p Hch] Hnd Hheap Hsize] Hfuel.
  destruct (leftmost_spec (root_ tr) None None Hok) as (a & s & nx & L2 & Hl & Hlv).
  unfold for_each. rewrite Hl.
  assert (Hent : entries (root_ tr) = s ++ leaf_slots L2).
  { unfold entries. rewrite Hlv, leaf_slots_cons. reflexivity. }
  rewrite Hent. rewrite Hlv in Hch, Hnd, Hfuel.
  rewrite (for_each_walk_spec (root_ tr) L2 a s nx fuel []); [reflexivity | | |].
  - apply chain_from_sk in Hch. simpl in Hch |- *. destruct Hch as [_ Hch]. auto.
  - intros [[a' s'] nx'] Hin. unfold cell_addr, cell_slots, cell_next. simpl.
    rewrite leaf_at_find, Hlv.
    apply list_elem_of_split in Hin as (La & Lb & ->).
    change ((a, s, nx) :: La ++ (a', s', nx') :: Lb)
      with (((a, s, nx) :: La) ++ (a', s', nx') :: Lb) in Hnd |- *.
    apply find_cell_middle. exact Hnd.
  - simpl in Hfuel. lia.
Qed.

End Traversal.

(** X1.  [for_each] visits, once the fuel covers the leaf chain, exactly the
    stored pairs, each once, in strictly ascending key order. *)
Theorem for_each_ascending (Value : Type) (Order : nat) (t0 : t Value)
  (ops : list (op Value)) :
  (2 ≤ Order)%nat → new Order = inr t0 → distinct_inserts ∅ ops →
  ∃ l fuel0,
    (∀ fuel, (fuel0 ≤ fuel)%nat → for_each fuel (run Order t0 ops) = Some l)
    ∧ StronglySorted Z.lt l.*1
    ∧ ∀ k v, (k, v) ∈ l ↔ model ops !! k = Some v.
Proof.
  intros _ Hnew Hd. destruct (run_from_new Order t0 ops Hnew Hd) as [HI Hc].
  set (tr := run Order t0 ops) in *.
  exists (entries (root_ tr)), (length (leaves (root_ tr))). split_and!.
  - intros fuel Hfuel. apply for_each_spec; assumption.
  - apply (ok_sorted _ _ _ (inv_ok tr HI)).
  - intros k v. rewrite <- Hc. unfold contents.
    apply elem_of_list_to_map, Inv_NoDup, HI.
Qed.

Lemma for_each_ascending_witness :
  new (Value := Z) 4 = inr (mk (Leaf 0 [] None) 0 1)
  ∧ ∃ l fuel0,
      (∀ fuel, (fuel0 ≤ fuel)%nat →
         for_each fuel (run 4 (mk (Leaf 0 [] None) 0 1)
                          [Insert 5 5; Insert 3 3; Insert 8 8; Insert 1 1; Insert 7 7])
         = Some l)
      ∧ StronglySorted Z.lt l.*1
      ∧ ∀ k v, (k, v) ∈ l
               ↔ model [Insert 5 5; Insert 3 3; Insert 8 8; Insert 1 1; Insert 7 7] !! k
                 = Some v.
Proof.
  split; [reflexivity |].
  apply (for_each_ascending Z 4 _ _); [lia | reflexivity |].
  vm_compute. repeat split.
Defined.

(** X2.  [update key value] returns true exactly when the key is stored;
    then [search key] returns the new value; in both cases every other key
    keeps its value and [size] is unchanged. *)
Theorem update_contract (Value : Type) (Order : nat) (t0 : t Value)
  (ops : list (op Value)) (key : Z) (value : Value) :
  (2 ≤ Order)%nat → new Order = inr t0 → distinct_inserts ∅ ops →
  (update (run Order t0 ops) key value).1
  = bool_decide (is_Some (model ops !! key))
  ∧ search (update (run Order t0 ops) key value).2 key
    = (λ _, value) <$> model ops !! key
  ∧ (∀ key', key' ≠ key →
       search (update (run Order t0 ops) key value).2 key' = model ops !! key')
  ∧ BPlusTree.size (update (run Order t0 ops) key value).2 = BPlusTree.size (run Order t0 ops).
Proof.
  intros _ Hnew Hd. destruct (run_from_new Order t0 ops Hnew Hd) as [HI Hc].
  set (tr := run Order t0 ops) in *.
  destruct (update_spec tr key value HI) as (HI' & Hc' & Hflag & Hsize).
  split_and!.
  - rewrite Hflag. unfold found. rewrite <- contents_lookup, Hc.
    destruct (model ops !! key) eqn:Hm.
    + symmetry. apply bool_decide_eq_true. eauto.
    + symmetry. apply bool_decide_eq_false. intros [? ?]. discriminate.
  - rewrite search_contents, Hc', Hc by exact HI'. apply lookup_alter_eq.
  - intros key' Hne. rewrite search_contents, Hc', Hc by exact HI'.
    apply lookup_alter_ne. congruence.
  - exact Hsize.
Qed.

Lemma update_contract_witness :
  new (Value := Z) 4 = inr (mk (Leaf 0 [] None) 0 1)
  ∧ search (update (run 4 (mk (Leaf 0 [] None) 0 1) keys_1_20) 7 70).2 7
    = (λ _, 70) <$> model keys_1_20 !! 7.
Proof.
  split; [reflexivity |].
  refine (proj1 (proj2 (update_contract Z 4 _ keys_1_20 7 70 _ eq_refl _))).
  - lia.
  - vm_compute. repeat split.
Defined.

(** X3.  [size] is the number of stored keys, and [empty] tells whether
    there is none, after any sequence of [insert] (of keys not in the tree),
    [update] and [remove]. *)
Theorem size_counts_keys (Value : Type) (Order : nat) (t0 : t Value)
  (ops : list (op Value)) :
  (2 ≤ Order)%nat → new Order = inr t0 → distinct_inserts ∅ ops →
  BPlusTree.size (run Order t0 ops) = base.size (model ops)
  ∧ (empty (run Order t0 ops) = true ↔ model ops = ∅).
Proof.
  intros _ Hnew Hd. destruct (run_from_new Order t0 ops Hnew Hd) as [HI Hc].
  set (tr := run Order t0 ops) in *.
  assert (Hsize : BPlusTree.size tr = base.size (model ops)).
  { unfold BPlusTree.size. rewrite (inv_size tr HI), <- Hc. unfold contents.
    rewrite map_size_list_to_map by (apply Inv_NoDup; exact HI). reflexivity. }
  split; [exact Hsize |].
  unfold empty. unfold BPlusTree.size in Hsize. rewrite Hsize.
  rewrite Nat.eqb_eq. apply map_size_empty_iff.
Qed.

Lemma size_counts_keys_witness :
  new (Value := Z) 4 = inr (mk (Leaf 0 [] None) 0 1)
  ∧ BPlusTree.size (run 4 (mk (Leaf 0 [] None) 0 1) keys_1_20) = base.size (model keys_1_20).
Proof.
  split; [reflexivity |].
  refine (proj1 (size_counts_keys Z 4 _ keys_1_20 _ eq_refl _)).
  - lia.
  - vm_compute. repeat split.
Defined.

(** *** Node shape *)

Set Warnings "-register-all".

(** [shaped Order h n]: every leaf below [n] is at depth [h], no node holds
    more than [Order - 1] keys, and an internal node with [k] keys has
    [k + 1] children. *)
Inductive shaped {Value : Type} (Order : nat) : nat → Node Value → Prop :=
| shaped_leaf a s nx :
    (length s ≤ Order - 1)%nat → shaped Order 0 (Leaf a s nx)
| shaped_internal h ks cs :
    (length ks ≤ Order - 1)%nat → length cs = S (length ks) →
    Forall (shaped Order h) cs →
    shaped Order (S h) (Internal ks cs).

Section Shape.
Context {Value : Type}.
Variable Order : nat.
Hypothesis Order_ge_2 : (2 ≤ Order)%nat.
Implicit Types (n c : Node Value) (cs : list (Node Value)) (ks : list Z).
Implicit Types (s : list (Z * Value)) (tr : t Value).

Lemma upper_bound_idx_le ks key : (upper_bound_idx ks key ≤ length ks)%nat.
Proof.
  induction ks as [| k ks IH]; simpl; [lia |]. destruct (key >=? k); simpl; lia.
Qed.

Lemma half_bounds : (1 ≤ Order / 2 ∧ Order / 2 ≤ Order - 1)%nat.
Proof.
  split.
  - apply Nat.div_le_lower_bound; lia.
  - assert (Order / 2 < Order)%nat by (apply Nat.div_lt; lia). lia.
Qed.

Lemma split_leaf_shaped a s nx heap n' res heap' :
  length s = Order →
  split_leaf Order (Leaf a s nx) heap = (n', res, heap') →
  shaped Order 0 n' ∧ ∃ sib pk, res = Some (sib, pk) ∧ shaped Order 0 sib.
Proof.
  intros Hlen. unfold split_leaf. intros [= <- <- <-].
  change (Nat.divmod Order 1 0 1).1 with (Order / 2)%nat.
  pose proof half_bounds as [H1 H2].
  split; [| eexists _, _; split; [reflexivity |]]; constructor.
  - rewrite length_take. lia.
  - rewrite length_take, length_drop. lia.
Qed.

Lemma split_internal_shaped h ks cs heap n' res heap' :
  length ks = Order → length cs = S Order → Forall (shaped Order h) cs →
  split_internal (Internal ks cs) heap = (n', res, heap') →
  shaped Order (S h) n' ∧ ∃ sib pk, res = Some (sib, pk) ∧ shaped Order (S h) sib.
Proof.
  intros Hks Hcs Hall. unfold split_internal. intros [= <- <- <-].
  change (Nat.divmod (length ks) 1 0 1).1 with (length ks / 2)%nat.
  pose proof half_bounds as [H1 H2]. rewrite Hks.
  split; [| eexists _, _; split; [reflexivity |]]; constructor.
  - rewrite length_take. lia.
  - rewrite !length_take. lia.
  - apply Forall_take. exact Hall.
  - rewrite length_take, length_drop. lia.
  - rewrite !length_take, !length_drop. lia.
  - apply Forall_take, Forall_drop. exact Hall.
Qed.

Lemma insert_recursive_shaped n :
  ∀ h key value heap n' res heap',
  shaped Order h n →
  insert_recursive Order n key value heap = (n', res, heap') →
  shaped Order h n'
  ∧ match res with Some (sib, _) => shaped Order h sib | None => True end.
Proof.
  induction n as [a s nx | ks cs IH] using Node_ind';
    intros h key value heap n' res heap' Hsh Hins.
  - inversion Hsh as [? ? ? Hlen |]; subst. cbn [insert_recursive] in Hins.
    fold (slots_insert s key value) in Hins.
    pose proof (length_slots_insert s key value) as Hlen'.
    destruct (Nat.ltb_spec (length (slots_insert s key value)) Order) as [Hlt | Hge].
    + injection Hins as <- <- <-. split; [constructor; lia | exact I].
    + apply split_leaf_shaped in Hins as (Hn' & sib & pk & -> & Hsib); [auto | lia].
  - inversion Hsh as [| h' ? ? Hks Hcs Hall]; subst.
    pose proof (upper_bound_idx_le ks key) as Hi.
    destruct (lookup_lt_is_Some_2 cs (upper_bound_idx ks key)) as [c Hc]; [lia |].
    rewrite Forall_lookup in IH, Hall.
    cbn [insert_recursive] in Hins. rewrite list_lookup_fmap, Hc in Hins.
    cbn [fmap option_fmap option_map] in Hins.
    destruct (insert_recursive Order c key value heap) as [[c' resc] heapc] eqn:Hic.
    destruct (IH _ _ Hc h' key value heap c' resc heapc (Hall _ _ Hc) Hic) as [Hc' Hres].
    rewrite <- Forall_lookup in Hall.
    assert (Hall' : Forall (shaped Order h') (<[upper_bound_idx ks key := c']> cs)).
    { apply Forall_insert; assumption. }
    destruct resc as [[sib pk] |].
    + set (i := upper_bound_idx ks key) in *.
      assert (Hlk : length (take i ks ++ pk :: drop i ks) = S (length ks)).
      { rewrite length_app, length_take. cbn [length]. rewrite length_drop. lia. }
      assert (Hlc : length (take (S i) (<[i := c']> cs) ++ sib :: drop (S i) cs)
                    = S (S (length ks))).
      { rewrite length_app, length_take, length_insert. cbn [length].
        rewrite length_drop. lia. }
      assert (Hallc : Forall (shaped Order h')
                        (take (S i) (<[i := c']> cs) ++ sib :: drop (S i) cs)).
      { apply Forall_app. split; [apply Forall_take; exact Hall' |].
        constructor; [exact Hres | apply Forall_drop; exact Hall]. }
      destruct (Nat.ltb_spec (length (take i ks ++ pk :: drop i ks)) Order) as [Hlt | Hge].
      * injection Hins as <- <- <-. split; [| exact I].
        constructor; [lia | lia | exact Hallc].
      * apply split_internal_shaped with (h := h') in Hins
          as (Hn' & sib' & pk' & -> & Hsib'); [auto | lia | lia | exact Hallc].
    + injection Hins as <- <- <-. split; [| exact I].
      constructor; [exact Hks | rewrite length_insert; exact Hcs | exact Hall'].
Qed.

Lemma modify_node_shaped (f : list (Z * Value) → list (Z * Value) * bool) key n :
  (∀ s, (length (f s).1 ≤ length s)%nat) →
  ∀ h, shaped Order h n → shaped Order h (modify_node f n key).1.
Proof.
  intros Hf. induction n as [a s nx | ks cs IH] using Node_ind'; intros h Hsh.
  - inversion Hsh as [? ? ? Hlen |]; subst. simpl.
    specialize (Hf s). destruct (f s) as [s' b]. simpl in *. constructor. lia.
  - inversion Hsh as [| h' ? ? Hks Hcs Hall]; subst. simpl.
    rewrite list_lookup_fmap.
    destruct (cs !! upper_bound_idx ks key) as [c |] eqn:Hc; simpl; [| exact Hsh].
    rewrite Forall_lookup in IH. specialize (IH _ _ Hc h').
    destruct (modify_node f c key) as [c' b]. simpl in *.
    constructor; [exact Hks | rewrite length_insert; exact Hcs |].
    apply Forall_insert; [exact Hall |]. apply IH.
    rewrite Forall_lookup in Hall. eauto.
Qed.

Lemma remove_slot_shorter s key : (length (remove_slot s key).1 ≤ length s)%nat.
Proof.
  induction s as [| [k v] s IH]; simpl; [lia |].
  destruct (k =? key); simpl; [lia |].
  destruct (remove_slot s key) as [s' b]. simpl in *. lia.
Qed.

Lemma step_shaped tr o h :
  shaped Order h (root_ tr) → ∃ h', shaped Order h' (root_ (step Order tr o)).
Proof.
  intros Hsh. destruct o as [k v | k v | k]; simpl.
  - unfold insert.
    destruct (insert_recursive Order (root_ tr) k v (heap_ tr)) as [[r res] heap'] eqn:Hins.
    destruct (insert_recursive_shaped _ _ _ _ _ _ _ _ Hsh Hins) as [Hr Hres].
    destruct res as [[sib pk] |]; simpl.
    + exists (S h). constructor; [simpl; lia | reflexivity |].
      repeat constructor; assumption.
    + exists h. exact Hr.
  - unfold update. rewrite update_node_modify.
    pose proof (modify_node_shaped (λ s, update_slots s k v) k (root_ tr)) as Hm.
    destruct (modify_node _ (root_ tr) k) as [r b]. simpl in *.
    exists h. apply Hm; [| exact Hsh]. intros s. rewrite length_update_slots. lia.
  - unfold remove. rewrite remove_recursive_modify.
    pose proof (modify_node_shaped (λ s, remove_slot s k) k (root_ tr)
                  (λ s, remove_slot_shorter s k) h Hsh) as Hm.
    destruct (modify_node _ (root_ tr) k) as [r b]. simpl in *.
    destruct b; simpl; [| eauto].
    destruct r as [a s nx | [| k' ks] [| c cs]]; eauto.
    inversion Hm as [| h' ? ? _ _ Hall]; subst.
    apply Forall_cons in Hall as [Hc _]. eauto.
Qed.

Lemma run_shaped ops : ∀ tr h,
  shaped Order h (root_ tr) → ∃ h', shaped Order h' (root_ (run Order tr ops)).
Proof.
  induction ops as [| o ops IH]; intros tr h Hsh; simpl; [eauto |].
  destruct (step_shaped tr o h Hsh) as [h' Hsh']. eapply IH. exact Hsh'.
Qed.

End Shape.

(** X4.  For [Order >= 2], after any sequence of [insert], [update] and
    [remove] (duplicate keys included) all leaves of the tree are at one
    depth, no node holds more than [Order - 1] keys, and an internal node
    with [k] keys has [k + 1] children: the arrays of [Order] keys and
    [Order + 1] children are never overrun. *)
Theorem nodes_stay_in_shape (Value : Type) (Order : nat) (t0 : t Value)
  (ops : list (op Value)) :
  (2 ≤ Order)%nat → new Order = inr t0 →
  ∃ h, shaped Order h (root_ (run Order t0 ops)).
Proof.
  intros HO [= <-]. apply (run_shaped Order HO ops _ 0%nat).
  constructor. simpl. lia.
Qed.

Lemma nodes_stay_in_shape_witness :
  new (Value := Z) 4 = inr (mk (Leaf 0 [] None) 0 1)
  ∧ ∃ h, shaped 4 h (root_ (run 4 (mk (Leaf 0 [] None) 0 1) keys_1_20)).
Proof.
  split; [reflexivity |].
  apply (nodes_stay_in_shape Z 4 _ keys_1_20); [lia | reflexivity].
Defined.

(** X5.  Inserting a key that is not stored and removing it again gives
    back a tree in which [search] answers every key as before, with the
    same [size]. *)
Theorem insert_then_remove (Value : Type) (Order : nat) (t0 : t Value)
  (ops : list (op Value)) (key : Z) (value : Value) :
  (2 ≤ Order)%nat → new Order = inr t0 → distinct_inserts ∅ ops →
  model ops !! key = None →
  (remove (insert Order (run Order t0 ops) key value) key).1 = true
  ∧ (∀ key', search (remove (insert Order (run Order t0 ops) key value) key).2 key'
             = search (run Order t0 ops) key')
  ∧ BPlusTree.size (remove (insert Order (run Order t0 ops) key value) key).2
    = BPlusTree.size (run Order t0 ops).
Proof.
  intros _ Hnew Hd Hfresh. destruct (run_from_new Order t0 ops Hnew Hd) as [HI Hc].
  set (tr := run Order t0 ops) in *. rewrite <- Hc in Hfresh.
  destruct (insert_spec Order tr key value HI Hfresh) as (HI1 & Hc1 & Hs1).
  destruct (remove_spec (insert Order tr key value) key HI1)
    as (HI2 & Hc2 & Hflag & Hsize & _).
  assert (Hb : (remove (insert Order tr key value) key).1 = true).
  { rewrite Hflag. unfold found. rewrite <- contents_lookup, Hc1, lookup_insert_eq.
    reflexivity. }
  split_and!.
  - exact Hb.
  - intros key'. rewrite !search_contents, Hc2, Hc1 by assumption.
    rewrite delete_insert_eq, delete_id by exact Hfresh. reflexivity.
  - specialize (Hsize Hb). unfold BPlusTree.size. rewrite Hs1 in Hsize. lia.
Qed.

Lemma insert_then_remove_witness :
  new (Value := Z) 4 = inr (mk (Leaf 0 [] None) 0 1)
  ∧ (remove (insert 4 (run 4 (mk (Leaf 0 [] None) 0 1) keys_1_20) 42 0) 42).1 = true.
Proof.
  split; [reflexivity |].
  refine (proj1 (insert_then_remove Z 4 _ keys_1_20 42 0 _ eq_refl _ _)).
  - lia.
  - vm_compute. repeat split.
  - vm_compute. reflexivity.
Defined.

End BPlusTreeMore.

(** ** Construction-time validation *)

Module ConstructionFacts.

(** C7 (as stated) fails for the B+Tree: with [Order = 2], below 3, the
    constructor returns an empty tree and raises nothing. *)
Lemma bplus_tree_order_2_constructs :
  (2 < 3)%nat
  ∧ BPlusTree.new (Value := Z) 2
    = inr (BPlusTree.mk (BPlusTree.Leaf 0 [] None) 0 1).
Proof. split; [lia | reflexivity]. Qed.

(** C7 (as amended).  An [LRUCache] with capacity 0 and a
    [SnowflakeGenerator] with a worker id outside [0, 1023] raise
    [invalid_argument] at construction, and every other parameter is kept as
    given.  The [BPlusTree] constructor checks nothing: with [Order = 2],
    below 3, it returns an empty tree, and that tree then works as a B+Tree
    of order 2: under [insert], [update] and [remove] all leaves stay at one
    depth, no node holds more than one key, and [search] returns what the
    operations stored. *)
Theorem constructors_fail_fast :
  (∀ (Key : Type) `{Countable Key} (Value : Type),
      LRUCache.new (Key := Key) (Value := Value) 0
      = inl (invalid_argument "LRU capacity must be > 0")
      ∧ ∀ capacity, capacity ≠ 0%nat →
          ∃ c, LRUCache.new (Key := Key) (Value := Value) capacity = inr c
               ∧ LRUCache.capacity c = capacity)
  ∧ (∀ worker_id,
      (worker_id < 0 ∨ 1023 < worker_id →
       SnowflakeGenerator.new worker_id
       = inl (invalid_argument "Worker ID out of range [0, 1023]"))
      ∧ (0 ≤ worker_id ≤ 1023 →
         ∃ g, SnowflakeGenerator.new worker_id = inr g
              ∧ SnowflakeGenerator.worker_id_ g = worker_id))
  ∧ (∀ (Value : Type),
      ∃ tr, BPlusTree.new (Value := Value) 2 = inr tr
            ∧ BPlusTree.empty tr = true
            ∧ ∀ ops, BPlusTreeFacts.distinct_inserts ∅ ops →
                (∃ h, BPlusTreeMore.shaped 2 h
                        (BPlusTree.root_ (BPlusTreeFacts.run 2 tr ops)))
                ∧ ∀ key, BPlusTree.search (BPlusTreeFacts.run 2 tr ops) key
                         = BPlusTreeFacts.model ops !! key).
Proof.
  split_and!.
  - intros Key ? ? Value. split; [reflexivity |].
    intros capacity Hne. unfold LRUCache.new.
    destruct (Nat.eqb_spec capacity 0); [contradiction |].
    eexists. split; reflexivity.
  - intros w. unfold SnowflakeGenerator.new.
    change SnowflakeGenerator.MAX_WORKER with 1023.
    destruct (Z.ltb_spec w 0), (Z.gtb_spec w 1023); simpl; split; intros Hw;
      try lia; try reflexivity.
    eexists. split; reflexivity.
  - intros Value. eexists. split; [reflexivity |]. split; [reflexivity |].
    intros ops Hd. split.
    + apply (BPlusTreeMore.run_shaped 2 (le_n 2) ops _ 0%nat).
      constructor. simpl. lia.
    + intros key.
      destruct (BPlusTreeFacts.run_from_new 2 _ ops eq_refl Hd) as [HI Hc].
      rewrite BPlusTreeFacts.search_contents by exact HI. rewrite Hc. reflexivity.
Qed.

Lemma constructors_fail_fast_witness :
  (1023 < 1024)
  ∧ SnowflakeGenerator.new 1024
    = inl (invalid_argument "Worker ID out of range [0, 1023]").
Proof.
  split; [lia |].
  apply (proj1 (proj1 (proj2 constructors_fail_fast) 1024)). right. lia.
Defined.

End ConstructionFacts.

(** ** More facts about the LRU cache *)

Module LRUMore.
Import LRUCache LRUFacts.
Local Open Scope nat_scope.

Section LRUMore.
Context {Key : Type} `{Countable Key} {Value : Type}.
Implicit Types (l : list (ListIter * (Key * Value))) (c : t Key Value).

Lemma run_wf cap c0 (ops : list (op Key Value)) :
  new cap = inr c0 → wf (run c0 ops) ∧ capacity_ (run c0 ops) = cap.
Proof. intros Hnew. destruct (run_invariant cap c0 ops Hnew) as (? & ? & _). auto. Qed.

Lemma evict_peek_ne c k k' :
  wf c → k' ≠ k → peek (evict c k).2 k' = peek c k'.
Proof.
  intros Hwf Hne. pose proof (wf_evict c k Hwf) as Hwf'.
  destruct (peek c k') as [v' |] eqn:Hp.
  - apply (peek_elem _ k' v' Hwf'). apply (peek_elem c k' v' Hwf) in Hp as [i Hi].
    exists i. unfold evict. destruct (map_ c !! k) as [it |] eqn:Hm; simpl; [| exact Hi].
    apply erase_elem; [apply (wf_ids c Hwf) |]. split; [exact Hi |].
    intros ->. apply (wf_map c Hwf) in Hm as [w Hw].
    pose proof (elem_same_id _ _ _ _ (wf_ids c Hwf) Hi Hw). congruence.
  - destruct (peek (evict c k).2 k') as [v' |] eqn:Hp'; [| reflexivity].
    apply (evict_peek c k Hwf) in Hp'. congruence.
Qed.

Lemma put_cached_peek_ne c k v k' it :
  wf c → map_ c !! k = Some it → k' ≠ k → peek (put c k v).1 k' = peek c k'.
Proof.
  intros Hwf Hm Hne. pose proof (wf_put c k v Hwf) as Hwf'.
  destruct (put_cached c k v it Hwf Hm) as (Hl & Hmap & _).
  destruct (peek c k') as [v' |] eqn:Hp.
  - apply (peek_elem _ k' v' Hwf'). apply (peek_elem c k' v' Hwf) in Hp as [i Hi].
    exists i. rewrite Hl. right.
    apply erase_elem; [apply (wf_ids c Hwf) |]. split; [exact Hi |].
    intros ->. apply (wf_map c Hwf) in Hm as [w Hw].
    pose proof (elem_same_id _ _ _ _ (wf_ids c Hwf) Hi Hw). congruence.
  - destruct (peek (put c k v).1 k') as [v' |] eqn:Hp'; [| reflexivity].
    apply (put_peek c k v Hwf) in Hp'; [congruence | exact Hne].
Qed.

Lemma wf_keys c :
  wf c →
  NoDup (keys (list_ c))
  ∧ dom (map_ c) = list_to_set (keys (list_ c))
  ∧ length (list_ c) = base.size (map_ c).
Proof.
  intros Hwf.
  assert (Hnd : NoDup (keys (list_ c))).
  { unfold keys. apply NoDup_fmap_2_strong.
    - intros [i [k v]] [j [k' v']] Hx Hy Hk. simpl in Hk. subst k'.
      assert (i = j) by (eapply wf_same_key; eauto). subst j.
      f_equal. eapply elem_same_id; [apply (wf_ids c Hwf) | eauto | eauto].
    - eapply NoDup_fmap_1. apply (wf_ids c Hwf). }
  assert (Hdom : dom (map_ c) = list_to_set (keys (list_ c))).
  { apply set_eq. intros k. rewrite elem_of_dom, elem_of_list_to_set. unfold keys.
    rewrite list_elem_of_fmap. split.
    - intros [i Hi]. apply (wf_map c Hwf) in Hi as [v Hv]. exists (i, (k, v)). auto.
    - intros ([i [k' v]] & -> & He). exists i. apply (wf_map c Hwf). eauto. }
  split_and!; [exact Hnd | exact Hdom |].
  rewrite <- size_dom, Hdom, size_list_to_set by exact Hnd.
  unfold keys. rewrite length_fmap. reflexivity.
Qed.

(** Number of [Get] calls in a sequence. *)
Definition is_get (o : op Key Value) : bool :=
  match o with Get _ => true | _ => false end.

Definition gets (ops : list (op Key Value)) : nat :=
  length (filter (λ o, is_get o = true) ops).

Lemma step_counters c o :
  ((hits_ (step c o) + misses_ (step c o)) mod 2 ^ 64
   = (hits_ c + misses_ c + (if is_get o then 1 else 0)) mod 2 ^ 64)%Z.
Proof.
  destruct o as [k | k v | k | |]; simpl; rewrite ?Z.add_0_r; try reflexivity.
  - unfold get. destruct (map_ c !! k); simpl; unfold wrap_size.
    + rewrite Zplus_mod_idemp_l. f_equal. lia.
    + rewrite Zplus_mod_idemp_r. f_equal. lia.
  - unfold put. destruct (map_ c !! k); [reflexivity |].
    destruct (length (list_ c) =? capacity_ c); [| reflexivity].
    destruct (last (list_ c)) as [[? [? ?]] |]; reflexivity.
  - unfold evict. destruct (map_ c !! k); reflexivity.
Qed.

End LRUMore.

Arguments is_get {Key Value}.
Arguments gets {Key Value}.

(** X6.  A value stored with [put] is what the next [get] of that key
    returns, in any state the cache can reach. *)
Theorem put_then_get :
  ∀ (Key : Type) `{Countable Key} (Value : Type)
    (cap : nat) (c0 : t Key Value) (ops : list (op Key Value)) (k : Key) (v : Value),
    new cap = inr c0 →
    (get (put (run c0 ops) k v).1 k).1 = Some v.
Proof.
  intros Key ? ? Value cap c0 ops k v Hnew.
  destruct (run_wf cap c0 ops Hnew) as [Hwf _].
  pose proof (wf_put _ k v Hwf) as Hwf'.
  rewrite (proj1 (get_peek _ k Hwf')). apply (put_peek _ k v Hwf).
Qed.

Lemma put_then_get_witness :
  new (Key := Z) (Value := Z) 3 = inr (mk 3 [] ∅ false 0%Z 0%Z 0)
  ∧ (get (put (run (mk 3 [] ∅ false 0%Z 0%Z 0) eviction_scenario) 9%Z 90%Z).1 9%Z).1
    = Some 90%Z.
Proof.
  split; [reflexivity |].
  exact (put_then_get Z Z 3 _ eviction_scenario 9%Z 90%Z eq_refl).
Defined.

(** X7.  [evict key] returns whether the key was cached; afterwards the key
    is not cached, every other key holds what it held, and [size] went down
    by one exactly when the key was cached. *)
Theorem evict_contract :
  ∀ (Key : Type) `{Countable Key} (Value : Type)
    (cap : nat) (c0 : t Key Value) (ops : list (op Key Value)) (k : Key),
    new cap = inr c0 →
    (evict (run c0 ops) k).1 = contains (run c0 ops) k
    ∧ contains (evict (run c0 ops) k).2 k = false
    ∧ (∀ k', k' ≠ k → peek (evict (run c0 ops) k).2 k' = peek (run c0 ops) k')
    ∧ size (evict (run c0 ops) k).2 + (if contains (run c0 ops) k then 1 else 0)
      = size (run c0 ops).
Proof.
  intros Key ? ? Value cap c0 ops k Hnew.
  destruct (run_wf cap c0 ops Hnew) as [Hwf _]. set (c := run c0 ops) in *.
  pose proof (wf_evict c k Hwf) as Hwf'.
  assert (Hflag : (evict c k).1 = contains c k).
  { unfold evict, contains. destruct (map_ c !! k) as [it |]; reflexivity. }
  split_and!.
  - exact Hflag.
  - apply contains_false, (peek_None _ k Hwf'), (evict_peek c k Hwf).
  - intros k' Hne. apply evict_peek_ne; assumption.
  - rewrite <- Hflag. unfold evict, size.
    destruct (map_ c !! k) as [it |] eqn:Hm; simpl; [| lia].
    destruct (wf_lookup c k it Hwf Hm) as [v Hd].
    pose proof (erase_length _ _ _ Hd). lia.
Qed.

Lemma evict_contract_witness :
  new (Key := Z) (Value := Z) 3 = inr (mk 3 [] ∅ false 0%Z 0%Z 0)
  ∧ (evict (run (mk 3 [] ∅ false 0%Z 0%Z 0) eviction_scenario) 1%Z).1
    = contains (run (mk 3 [] ∅ false 0%Z 0%Z 0) eviction_scenario) 1%Z.
Proof.
  split; [reflexivity |].
  exact (proj1 (evict_contract Z Z 3 _ eviction_scenario 1%Z eq_refl)).
Defined.

(** X8.  [put] of a key that is already cached replaces its value and
    evicts nothing: no callback call, the same [size], and every other key
    holds what it held. *)
Theorem put_cached_key :
  ∀ (Key : Type) `{Countable Key} (Value : Type)
    (cap : nat) (c0 : t Key Value) (ops : list (op Key Value)) (k : Key) (v : Value),
    new cap = inr c0 →
    contains (run c0 ops) k = true →
    (put (run c0 ops) k v).2 = []
    ∧ size (put (run c0 ops) k v).1 = size (run c0 ops)
    ∧ peek (put (run c0 ops) k v).1 k = Some v
    ∧ ∀ k', k' ≠ k → peek (put (run c0 ops) k v).1 k' = peek (run c0 ops) k'.
Proof.
  intros Key ? ? Value cap c0 ops k v Hnew Hin.
  destruct (run_wf cap c0 ops Hnew) as [Hwf _]. set (c := run c0 ops) in *.
  unfold contains in Hin. apply bool_decide_eq_true in Hin as [it Hm].
  destruct (put_cached c k v it Hwf Hm) as (Hl & _ & _ & _ & Hcalls).
  destruct (wf_lookup c k it Hwf Hm) as [v0 Hd].
  split_and!.
  - exact Hcalls.
  - unfold size. rewrite Hl. simpl. apply (erase_length _ _ _ Hd).
  - apply (put_peek c k v Hwf).
  - intros k' Hne. eapply put_cached_peek_ne; eauto.
Qed.

Lemma put_cached_key_witness :
  new (Key := Z) (Value := Z) 3 = inr (mk 3 [] ∅ false 0%Z 0%Z 0)
  ∧ contains (run (mk 3 [] ∅ false 0%Z 0%Z 0) eviction_scenario) 1%Z = true
  ∧ (put (run (mk 3 [] ∅ false 0%Z 0%Z 0) eviction_scenario) 1%Z 100%Z).2 = [].
Proof.
  split; [reflexivity |].
  assert (Hin : contains (run (mk 3 [] ∅ false 0%Z 0%Z 0) eviction_scenario) 1%Z = true)
    by (vm_compute; reflexivity).
  split; [exact Hin |].
  exact (proj1 (put_cached_key Z Z 3 _ eviction_scenario 1%Z 100%Z eq_refl Hin)).
Defined.

(** X9.  In every state the cache can reach, the map and the list describe
    the same keys: each cached key is in the list once, the keys of the map
    are the keys of the list, and [size] is the number of keys of the map. *)
Theorem map_and_list_agree :
  ∀ (Key : Type) `{Countable Key} (Value : Type)
    (cap : nat) (c0 : t Key Value) (ops : list (op Key Value)),
    new cap = inr c0 →
    NoDup (keys (list_ (run c0 ops)))
    ∧ dom (map_ (run c0 ops)) = list_to_set (keys (list_ (run c0 ops)))
    ∧ size (run c0 ops) = base.size (map_ (run c0 ops)).
Proof.
  intros Key ? ? Value cap c0 ops Hnew.
  destruct (run_wf cap c0 ops Hnew) as [Hwf _]. apply wf_keys. exact Hwf.
Qed.

Lemma map_and_list_agree_witness :
  new (Key := Z) (Value := Z) 3 = inr (mk 3 [] ∅ false 0%Z 0%Z 0)
  ∧ NoDup (keys (list_ (run (mk 3 [] ∅ false 0%Z 0%Z 0) eviction_scenario))).
Proof.
  split; [reflexivity |].
  exact (proj1 (map_and_list_agree Z Z 3 _ eviction_scenario eq_refl)).
Defined.

(** X10.  Every [get] raises exactly one of the two counters: after any
    sequence of operations [hits + misses] is the number of [get] calls
    (modulo 2^64, the width of the counters). *)
Theorem hits_plus_misses :
  ∀ (Key : Type) `{Countable Key} (Value : Type)
    (cap : nat) (c0 : t Key Value) (ops : list (op Key Value)),
    new cap = inr c0 →
    ((hits (run c0 ops) + misses (run c0 ops)) mod 2 ^ 64
     = Z.of_nat (gets ops) mod 2 ^ 64)%Z.
Proof.
  intros Key ? ? Value cap c0 ops Hnew.
  assert (H0 : hits_ c0 = 0%Z ∧ misses_ c0 = 0%Z).
  { unfold new in Hnew. destruct (cap =? 0); [discriminate |].
    injection Hnew as <-. split; reflexivity. }
  unfold hits, misses.
  induction ops as [| o ops IH] using rev_ind.
  - simpl. destruct H0 as [-> ->]. reflexivity.
  - rewrite run_snoc, step_counters.
    rewrite <- Zplus_mod_idemp_l, IH, Zplus_mod_idemp_l.
    unfold gets. rewrite filter_app, length_app.
    destruct o; simpl; f_equal; lia.
Qed.

Lemma hits_plus_misses_witness :
  new (Key := Z) (Value := Z) 3 = inr (mk 3 [] ∅ false 0%Z 0%Z 0)
  ∧ ((hits (run (mk 3%nat [] ∅ false 0%Z 0%Z 0%nat) eviction_scenario)
      + misses (run (mk 3%nat [] ∅ false 0%Z 0%Z 0%nat) eviction_scenario)) mod 2 ^ 64
     = Z.of_nat (gets eviction_scenario) mod 2 ^ 64)%Z.
Proof.
  split; [reflexivity |].
  exact (hits_plus_misses Z Z 3 _ eviction_scenario eq_refl).
Defined.

(** X22.  [put] of a key that is not cached while the cache holds fewer
    entries than its capacity evicts nothing: no callback call, [size] goes
    up by one, the key holds the value and every other key holds what it
    held. *)
Theorem put_new_key_with_room :
  ∀ (Key : Type) `{Countable Key} (Value : Type)
    (cap : nat) (c0 : t Key Value) (ops : list (op Key Value)) (k : Key) (v : Value),
    new cap = inr c0 →
    contains (run c0 ops) k = false →
    size (run c0 ops) < cap →
    (put (run c0 ops) k v).2 = []
    ∧ size (put (run c0 ops) k v).1 = S (size (run c0 ops))
    ∧ peek (put (run c0 ops) k v).1 k = Some v
    ∧ ∀ k', k' ≠ k → peek (put (run c0 ops) k v).1 k' = peek (run c0 ops) k'.
Proof.
  intros Key ? ? Value cap c0 ops k v Hnew Hout Hroom.
  destruct (run_wf cap c0 ops Hnew) as [Hwf Hcap]. set (c := run c0 ops) in *.
  apply contains_false in Hout. unfold size in Hroom.
  assert (Hlen : length (list_ c) ≠ capacity_ c) by lia.
  pose proof (wf_put c k v Hwf) as Hwf'.
  pose proof (put_new_room c k v Hout Hlen) as Hput.
  split_and!.
  - rewrite Hput. reflexivity.
  - rewrite Hput. reflexivity.
  - apply (put_peek c k v Hwf).
  - intros k' Hne. destruct (peek c k') as [v' |] eqn:Hp.
    + apply (peek_elem _ k' v' Hwf'). apply (peek_elem c k' v' Hwf) in Hp as [i Hi].
      exists i. rewrite Hput. simpl. right. exact Hi.
    + destruct (peek (put c k v).1 k') as [v' |] eqn:Hp'; [| reflexivity].
      apply (put_peek c k v Hwf) in Hp'; [congruence | exact Hne].
Qed.

Lemma put_new_key_with_room_witness :
  new (Key := Z) (Value := Z) 3 = inr (mk 3 [] ∅ false 0%Z 0%Z 0)
  ∧ contains (run (mk 3 [] ∅ false 0%Z 0%Z 0) [Put 1%Z 10%Z; Get 1%Z]) 2%Z = false
  ∧ size (run (mk 3 [] ∅ false 0%Z 0%Z 0) [Put 1%Z 10%Z; Get 1%Z]) < 3
  ∧ (put (run (mk 3 [] ∅ false 0%Z 0%Z 0) [Put 1%Z 10%Z; Get 1%Z]) 2%Z 20%Z).2 = [].
Proof.
  assert (Hout : contains (run (mk 3 [] ∅ false 0%Z 0%Z 0) [Put 1%Z 10%Z; Get 1%Z]) 2%Z
                 = false) by (vm_compute; reflexivity).
  assert (Hroom : size (run (mk 3 [] ∅ false 0%Z 0%Z 0) [Put 1%Z 10%Z; Get 1%Z]) < 3)
    by (vm_compute; lia).
  split; [reflexivity |]. split; [exact Hout |]. split; [exact Hroom |].
  exact (proj1 (put_new_key_with_room Z Z 3 _ [Put 1%Z 10%Z; Get 1%Z] 2%Z 20%Z
                  eq_refl Hout Hroom)).
Defined.

End LRUMore.

(** ** More facts about the Snowflake generator: runs of [next] *)

Module SnowflakeMore.
Import SnowflakeGenerator SnowflakeFacts.

Section Issue.
Variable current_ms : nat → Z.

(** [n] calls of [next] on one generator, one after the other; the
    identifiers in the order they were issued. *)
Fixpoint next_n (fuel n : nat) (g : t) (reads : nat) : option (list Z * t * nat) :=
  match n with
  | O => Some ([], g, reads)
  | S n' =>
      match next current_ms fuel g reads with
      | None => None
      | Some (id, g', reads') =>
          match next_n fuel n' g' reads' with
          | None => None
          | Some (ids, g'', reads'') => Some (id :: ids, g'', reads'')
          end
      end
  end.

(** The identifier the fields of a generator stand for. *)
Definition rank (g : t) : Z :=
  (last_ts_ g - EPOCH) * 2 ^ 22 + worker_id_ g * 2 ^ 12 + sequence_ g.

Lemma spin_reads fuel :
  ∀ reads last ts reads',
    spin current_ms fuel reads last = Some (ts, reads') → (reads < reads')%nat.
Proof.
  induction fuel as [| fuel IH]; intros reads last ts reads'; simpl; [discriminate |].
  destruct (_ <=? _).
  - intros H. apply IH in H. lia.
  - intros [= _ <-]. lia.
Qed.

Lemma next_reads fuel g reads id g' reads' :
  next current_ms fuel g reads = Some (id, g', reads') → (reads < reads')%nat.
Proof.
  unfold next. destruct (_ =? last_ts_ g).
  - destruct (_ =? 0).
    + destruct (spin current_ms fuel (S reads) (last_ts_ g)) as [[ts r] |] eqn:Hs;
        [| discriminate].
      intros [= _ _ <-]. apply spin_reads in Hs. lia.
    + intros [= _ _ <-]. lia.
  - intros [= _ _ <-]. lia.
Qed.

Lemma next_n_reads fuel n :
  ∀ g reads ids g' reads',
    next_n fuel n g reads = Some (ids, g', reads') → (reads ≤ reads')%nat.
Proof.
  induction n as [| n IH]; intros g reads ids g' reads'; simpl.
  - intros [= _ _ <-]. lia.
  - destruct (next current_ms fuel g reads) as [[[id g1] r1] |] eqn:Hn; [| discriminate].
    destruct (next_n fuel n g1 r1) as [[[ids1 g2] r2] |] eqn:Hr; [| discriminate].
    intros [= _ _ <-]. apply next_reads in Hn. apply IH in Hr. lia.
Qed.

Lemma next_n_length fuel n :
  ∀ g reads ids g' reads',
    next_n fuel n g reads = Some (ids, g', reads') → length ids = n.
Proof.
  induction n as [| n IH]; intros g reads ids g' reads'; simpl.
  - intros [= <- _ _]. reflexivity.
  - destruct (next current_ms fuel g reads) as [[[id g1] r1] |]; [| discriminate].
    destruct (next_n fuel n g1 r1) as [[[ids1 g2] r2] |] eqn:Hr; [| discriminate].
    intros [= <- _ _]. simpl. f_equal. eapply IH. exact Hr.
Qed.

Section Monotone.
Hypothesis clock_mono : ∀ i j, (i ≤ j)%nat → current_ms i ≤ current_ms j.

(** One call: the identifier is the rank of the new state, and the rank
    went up when the previous timestamp is not ahead of the clock. *)
Lemma next_rank fuel g reads id g' reads' :
  wf g →
  (∀ i, (reads ≤ i < reads')%nat → in_window (current_ms i)) →
  next current_ms fuel g reads = Some (id, g', reads') →
  wf g' ∧ id = rank g' ∧ last_ts_ g' ≤ current_ms reads'
  ∧ (last_ts_ g ≤ current_ms reads → rank g < rank g').
Proof.
  intros Hwf Hwin Hn.
  destruct (next_spec current_ms fuel g reads id g' reads' Hwf Hn)
    as (Hwf' & Hw & -> & (m & -> & Hm & Hts) & Hord).
  pose proof Hwf as [Hwk Hsq]. pose proof Hwf' as [Hwk' Hsq'].
  split_and!.
  - exact Hwf'.
  - apply pack_window; [| assumption | assumption].
    rewrite Hts. apply Hwin. lia.
  - rewrite Hts. apply clock_mono. lia.
  - intros Hlast. unfold rank. rewrite Hw.
    destruct (Hord Hlast) as [[-> ->] | Hlt]; lia.
Qed.

Lemma next_n_sorted fuel n :
  ∀ g reads ids g' reads',
    wf g → last_ts_ g ≤ current_ms reads →
    (∀ i, (reads ≤ i < reads')%nat → in_window (current_ms i)) →
    next_n fuel n g reads = Some (ids, g', reads') →
    Forall (λ id, rank g < id) ids ∧ StronglySorted Z.lt ids.
Proof.
  induction n as [| n IH]; intros g reads ids g' reads' Hwf Hlast Hwin; simpl.
  - intros [= <- _ _]. split; constructor.
  - destruct (next current_ms fuel g reads) as [[[id g1] r1] |] eqn:Hn; [| discriminate].
    destruct (next_n fuel n g1 r1) as [[[ids1 g2] r2] |] eqn:Hr; [| discriminate].
    intros [= <- <- <-].
    pose proof (next_reads _ _ _ _ _ _ Hn) as Hr1.
    pose proof (next_n_reads _ _ _ _ _ _ _ Hr) as Hr2.
    destruct (next_rank fuel g reads id g1 r1 Hwf) as (Hwf1 & -> & Hlast1 & Hup);
      [intros i Hi; apply Hwin; lia | exact Hn |].
    specialize (Hup Hlast).
    destruct (IH g1 r1 ids1 g2 r2 Hwf1 Hlast1) as [Hall Hsorted];
      [intros i Hi; apply Hwin; lia | exact Hr |].
    split.
    + constructor; [exact Hup |].
      eapply Forall_impl; [exact Hall |]. simpl. intros x Hx. lia.
    + constructor; assumption.
Qed.

End Monotone.

(** More fuel does not change what a call returns. *)
Lemma spin_fuel fuel fuel' reads last x :
  (fuel ≤ fuel')%nat →
  spin current_ms fuel reads last = Some x → spin current_ms fuel' reads last = Some x.
Proof.
  revert fuel' reads. induction fuel as [| fuel IH]; intros fuel' reads Hle;
    simpl; [discriminate |].
  destruct fuel' as [| fuel']; [lia |]. simpl.
  destruct (_ <=? _); [| auto]. apply IH. lia.
Qed.

Lemma next_fuel fuel fuel' g reads x :
  (fuel ≤ fuel')%nat →
  next current_ms fuel g reads = Some x → next current_ms fuel' g reads = Some x.
Proof.
  intros Hle. unfold next. destruct (_ =? last_ts_ g); [| auto].
  destruct (_ =? 0); [| auto].
  destruct (spin current_ms fuel (S reads) (last_ts_ g)) as [[ts r] |] eqn:Hs;
    [| discriminate].
  rewrite (spin_fuel fuel fuel' _ _ _ Hle Hs). auto.
Qed.

Lemma next_n_fuel fuel fuel' n :
  (fuel ≤ fuel')%nat →
  ∀ g reads x, next_n fuel n g reads = Some x → next_n fuel' n g reads = Some x.
Proof.
  intros Hle. induction n as [| n IH]; intros g reads x; simpl; [auto |].
  destruct (next current_ms fuel g reads) as [[[id g1] r1] |] eqn:Hn; [| discriminate].
  rewrite (next_fuel fuel fuel' _ _ _ Hle Hn).
  destruct (next_n fuel n g1 r1) as [[[ids1 g2] r2] |] eqn:Hr; [| discriminate].
  rewrite (IH _ _ _ Hr). auto.
Qed.

Lemma next_n_total :
  (∀ i, ∃ j, (i < j)%nat ∧ current_ms i < current_ms j) →
  ∀ n g reads, ∃ fuel, is_Some (next_n fuel n g reads).
Proof.
  intros Hadv. induction n as [| n IH]; intros g reads.
  - exists 0%nat. simpl. eauto.
  - destruct (Hadv reads) as (m & Hm & Hlt).
    destruct (next_total current_ms (m - reads) g reads m Hm Hlt) as [[[id g1] r1] Hn];
      [lia |].
    destruct (IH g1 r1) as (fuel2 & [[ids1 g2] r2] & Hr).
    exists (Nat.max (m - reads) fuel2). simpl.
    rewrite (next_fuel (m - reads) _ _ _ _ (Nat.le_max_l _ _) Hn).
    rewrite (next_n_fuel fuel2 _ n (Nat.le_max_r _ _) _ _ _ Hr). eauto.
Qed.

End Issue.

(** A clock that moves on by one millisecond every fourth reading. *)
Definition slow_clock (n : nat) : Z := EPOCH + Z.of_nat (n / 4).

(** A clock that moves on by one millisecond at every reading. *)
Definition ticking_clock (n : nat) : Z := EPOCH + Z.of_nat n.

(** X11.  With a non-decreasing clock whose readings stay inside the
    41-bit window, the identifiers issued by any number of consecutive
    [next] calls on one generator are strictly increasing in the order
    issued, hence pairwise different. *)
Theorem issued_ids_increase (current_ms : nat → Z) (fuel n : nat) (g : t)
  (reads : nat) (ids : list Z) (g' : t) (reads' : nat) :
  (∀ i j, (i ≤ j)%nat → current_ms i ≤ current_ms j) →
  wf g →
  next_n current_ms fuel n g reads = Some (ids, g', reads') →
  (∀ i, (reads ≤ i < reads')%nat → in_window (current_ms i)) →
  StronglySorted Z.lt ids ∧ NoDup ids.
Proof.
  intros Hmono Hwf Hrun Hwin.
  assert (Hsorted : StronglySorted Z.lt ids).
  { destruct n as [| n]; simpl in Hrun.
    - injection Hrun as <- _ _. constructor.
    - destruct (next current_ms fuel g reads) as [[[id g1] r1] |] eqn:Hn; [| discriminate].
      destruct (next_n current_ms fuel n g1 r1) as [[[ids1 g2] r2] |] eqn:Hr;
        [| discriminate].
      injection Hrun as <- <- <-.
      pose proof (next_reads _ _ _ _ _ _ _ Hn) as Hr1.
      pose proof (next_n_reads _ _ _ _ _ _ _ _ Hr) as Hr2.
      destruct (next_rank current_ms Hmono fuel g reads id g1 r1 Hwf)
        as (Hwf1 & -> & Hlast1 & _);
        [intros i Hi; apply Hwin; lia | exact Hn |].
      destruct (next_n_sorted current_ms Hmono fuel n g1 r1 ids1 g2 r2 Hwf1 Hlast1)
        as [Hall Hs]; [intros i Hi; apply Hwin; lia | exact Hr |].
      constructor; assumption. }
  split; [exact Hsorted |].
  clear -Hsorted. induction Hsorted as [| x l Hs IH Hall]; constructor; [| exact IH].
  intros Hin. rewrite Forall_forall in Hall. specialize (Hall x Hin). lia.
Qed.

Lemma issued_ids_increase_witness :
  next_n slow_clock 8 6 (mk 1 0 (-1)) 0
  = Some ([4096; 4097; 4098; 4099; 4198400; 4198401], mk 1 1 (EPOCH + 1), 6%nat)
  ∧ StronglySorted Z.lt [4096; 4097; 4098; 4099; 4198400; 4198401]
  ∧ NoDup [4096; 4097; 4098; 4099; 4198400; 4198401].
Proof.
  assert (Hrun : next_n slow_clock 8 6 (mk 1 0 (-1)) 0
                 = Some ([4096; 4097; 4098; 4099; 4198400; 4198401],
                         mk 1 1 (EPOCH + 1), 6%nat)) by (vm_compute; reflexivity).
  split; [exact Hrun |].
  refine (issued_ids_increase slow_clock 8 6 (mk 1 0 (-1)) 0 _ _ 6 _ _ Hrun _).
  - unfold slow_clock. intros i j Hij.
    pose proof (Nat.Div0.div_le_mono i j 4 Hij). lia.
  - unfold wf. simpl. lia.
  - unfold slow_clock, in_window. intros i Hi.
    pose proof (Nat.Div0.div_le_upper_bound i 4 6). lia.
Defined.

(** X12.  As long as the clock moves on after every reading at some later
    reading, any number of consecutive [next] calls return: the wait for the
    next millisecond after 4096 identifiers in one millisecond ends. *)
Theorem next_calls_return (current_ms : nat → Z) (n : nat) (g : t) (reads : nat) :
  (∀ i, ∃ j, (i < j)%nat ∧ current_ms i < current_ms j) →
  ∃ fuel ids g' reads',
    next_n current_ms fuel n g reads = Some (ids, g', reads') ∧ length ids = n.
Proof.
  intros Hadv.
  destruct (next_n_total current_ms Hadv n g reads) as (fuel & [[ids g'] reads'] & Hrun).
  exists fuel, ids, g', reads'. split; [exact Hrun |].
  eapply next_n_length. exact Hrun.
Qed.

Lemma next_calls_return_witness :
  (∀ i, ∃ j, (i < j)%nat ∧ ticking_clock i < ticking_clock j)
  ∧ ∃ fuel ids g' reads',
      next_n ticking_clock fuel 3 (mk 1 0 (-1)) 0 = Some (ids, g', reads')
      ∧ length ids = 3%nat.
Proof.
  assert (Hadv : ∀ i, ∃ j, (i < j)%nat ∧ ticking_clock i < ticking_clock j).
  { intros i. exists (S i). unfold ticking_clock. lia. }
  split; [exact Hadv |].
  exact (next_calls_return ticking_clock 3 (mk 1 0 (-1)) 0 Hadv).
Defined.

(** X13.  [decode] of an identifier issued by [next] gives back the state
    the call left: the timestamp is [last_ts_], which is a reading of the
    clock taken during the call, the worker id is the generator's, and the
    sequence number is [sequence_]; the sequence number is 0 whenever the
    first reading of the call differs from the timestamp of the call
    before. *)
Theorem decode_issued (current_ms : nat → Z) (fuel : nat) (g : t) (reads : nat)
  (id : Z) (g' : t) (reads' : nat) :
  wf g →
  next current_ms fuel g reads = Some (id, g', reads') →
  (∀ i, (reads ≤ i < reads')%nat → in_window (current_ms i)) →
  decode id = {| timestamp_ms := last_ts_ g'; worker_id := worker_id_ g;
                 sequence := sequence_ g' |}
  ∧ (∃ m, (reads ≤ m < reads')%nat ∧ last_ts_ g' = current_ms m)
  ∧ (current_ms reads ≠ last_ts_ g →
     sequence_ g' = 0 ∧ last_ts_ g' = current_ms reads).
Proof.
  intros Hwf Hn Hwin.
  destruct (next_spec current_ms fuel g reads id g' reads' Hwf Hn)
    as ([Hwk' Hsq'] & Hw & -> & (m & -> & Hm & Hts) & _).
  assert (Hin : in_window (last_ts_ g')) by (rewrite Hts; apply Hwin; lia).
  split_and!.
  - rewrite pack_window by assumption.
    destruct (decode_sum (last_ts_ g' - EPOCH) (worker_id_ g') (sequence_ g') Hwk' Hsq')
      as (Ht & Hwk & Hs).
    unfold decode in *. simpl in *. rewrite Ht, Hwk, Hs, Hw. f_equal.
    unfold in_window in Hin. rewrite wrap64_id; unfold EPOCH in *; lia.
  - exists m. split; [lia | exact Hts].
  - intros Hne. unfold next in Hn.
    destruct (Z.eqb_spec (current_ms reads) (last_ts_ g)) as [Heq | _]; [contradiction |].
    injection Hn as _ <- _. split; reflexivity.
Qed.

Lemma decode_issued_witness :
  next slow_clock 8 (mk 1 0 (-1)) 0 = Some (4096, mk 1 0 EPOCH, 1%nat)
  ∧ decode 4096 = {| timestamp_ms := EPOCH; worker_id := 1; sequence := 0 |}.
Proof.
  assert (Hn : next slow_clock 8 (mk 1 0 (-1)) 0 = Some (4096, mk 1 0 EPOCH, 1%nat))
    by (vm_compute; reflexivity).
  split; [exact Hn |].
  refine (proj1 (decode_issued slow_clock 8 (mk 1 0 (-1)) 0 4096 (mk 1 0 EPOCH) 1 _ Hn _)).
  - unfold wf. simpl. lia.
  - unfold slow_clock, in_window. intros i Hi.
    pose proof (Nat.Div0.div_le_upper_bound i 4 1). lia.
Defined.

(** X14.  Generators built with different worker ids never issue the same
    identifier, whatever their clocks do (also outside the 41-bit window):
    the worker field of an identifier is the worker id of its generator. *)
Theorem workers_never_collide (clock1 clock2 : nat → Z) (w1 w2 : Z)
  (g1 g2 : t) (reads1 reads2 fuel1 fuel2 : nat)
  (id1 id2 : Z) (g1' g2' : t) (reads1' reads2' : nat) :
  w1 ≠ w2 →
  gen_state clock1 w1 g1 reads1 →
  gen_state clock2 w2 g2 reads2 →
  next clock1 fuel1 g1 reads1 = Some (id1, g1', reads1') →
  next clock2 fuel2 g2 reads2 = Some (id2, g2', reads2') →
  id1 ≠ id2.
Proof.
  intros Hne Hs1 Hs2 Hn1 Hn2 Heq.
  assert (Hworker : ∀ clock w g reads fuel id g' reads',
             gen_state clock w g reads →
             next clock fuel g reads = Some (id, g', reads') →
             worker_id (decode id) = w).
  { clear. intros clock w g reads fuel id g' reads' Hst Hn.
    apply gen_state_wf in Hst as [Hwf Hw].
    destruct (next_spec clock fuel g reads id g' reads' Hwf Hn)
      as ([Hwk' Hsq'] & Hw' & -> & _).
    destruct (pack_sum (last_ts_ g') (worker_id_ g') (sequence_ g') Hwk' Hsq')
      as (a & -> & _).
    destruct (decode_sum a (worker_id_ g') (sequence_ g') Hwk' Hsq') as (_ & -> & _).
    congruence. }
  pose proof (Hworker _ _ _ _ _ _ _ _ Hs1 Hn1) as H1.
  pose proof (Hworker _ _ _ _ _ _ _ _ Hs2 Hn2) as H2.
  rewrite Heq in H1. congruence.
Qed.

Lemma workers_never_collide_witness :
  (1 ≠ 2)
  ∧ next slow_clock 8 (mk 1 0 (-1)) 0 = Some (4096, mk 1 0 EPOCH, 1%nat)
  ∧ next slow_clock 8 (mk 2 0 (-1)) 0 = Some (8192, mk 2 0 EPOCH, 1%nat)
  ∧ 4096 ≠ 8192.
Proof.
  assert (H1 : next slow_clock 8 (mk 1 0 (-1)) 0 = Some (4096, mk 1 0 EPOCH, 1%nat))
    by (vm_compute; reflexivity).
  assert (H2 : next slow_clock 8 (mk 2 0 (-1)) 0 = Some (8192, mk 2 0 EPOCH, 1%nat))
    by (vm_compute; reflexivity).
  assert (Hne : 1 ≠ 2) by lia.
  split_and!; [exact Hne | exact H1 | exact H2 |].
  refine (workers_never_collide slow_clock slow_clock 1 2 _ _ 0 0 8 8 _ _ _ _ _ _
            Hne _ _ H1 H2).
  - apply gen_new. reflexivity.
  - apply gen_new. reflexivity.
Defined.

End SnowflakeMore.

(** ** More facts about the customer repository *)

Module RepositoryMore.
Import Codec CodecFacts CustomerRepository RepositoryFacts.

(** Every record sits under its own id. *)
Definition keyed (m : gmap Z Customer) : Prop :=
  ∀ k c, m !! k = Some c → id c = k.

(** The index holds exactly the ids of the map, each once. *)
Definition index_ok (r : t) : Prop :=
  BPlusTreeFacts.Inv (index_ r)
  ∧ BPlusTreeFacts.contents (index_ r) = id <$> store_ r.

Definition repo_ok (r : t) : Prop := cache_ok r ∧ index_ok r ∧ keyed (store_ r).

(** What a sequence of calls may hold for the data file to follow the map:
    records of the C++ field types, and a directory that stays writable. *)
Definition rop_wf (o : rop) : Prop :=
  match o with
  | Save c | Update c => customer_wf c
  | SetWritable b => b = true
  | _ => True
  end.

Section More.
Variable iteration : gmap Z Customer → list (Z * Customer).

(** Every [save] of the sequence is called with an id the repository does
    not hold at that moment. *)
Fixpoint fresh_saves (s : t * Disk) (ops : list rop) : Prop :=
  match ops with
  | [] => True
  | o :: ops' =>
      match o with
      | Save c => store_ s.1 !! id c = None
      | _ => True
      end ∧ fresh_saves (rstep iteration s o) ops'
  end.

Lemma flush_cases r d :
  (writable d = true ∧ ∃ d', flush iteration r d = (d', None) ∧ writable d' = true)
  ∨ (writable d = false
     ∧ flush iteration r d
       = (d, Some (runtime_error "Cannot open customer data file for writing"))).
Proof.
  unfold flush. destruct (writable d) eqn:Hw; [left | right]; eauto.
Qed.

Lemma repo_save_spec r d c :
  cache_ok r →
  ∃ r' d' e,
    save iteration r d c = (r', d', e)
    ∧ cache_ok r'
    ∧ store_ r' = <[id c := c]> (store_ r)
    ∧ index_ r' = BPlusTree.insert 4 (index_ r) (id c) (id c)
    ∧ flush iteration r' d = (d', e).
Proof.
  intros Hok. unfold save.
  destruct (flush iteration _ d) as [d' e] eqn:Hf.
  eexists _, d', e. split; [reflexivity |]. split_and!; try reflexivity.
  - apply cache_ok_put. exact Hok.
  - exact Hf.
Qed.

Lemma update_absent r d c :
  store_ r !! id c = None → update iteration r d c = (false, r, d, None).
Proof. intros Hs. unfold update. rewrite Hs. reflexivity. Qed.

Lemma repo_update_spec r d c c0 :
  cache_ok r → store_ r !! id c = Some c0 →
  ∃ r' d' e,
    update iteration r d c = (true, r', d', e)
    ∧ cache_ok r'
    ∧ store_ r' = <[id c := c]> (store_ r)
    ∧ index_ r' = (BPlusTree.update (index_ r) (id c) (id c)).2
    ∧ flush iteration r' d = (d', e).
Proof.
  intros Hok Hs. unfold update. rewrite Hs.
  destruct (flush iteration _ d) as [d' e] eqn:Hf.
  eexists _, d', e. split; [reflexivity |]. split_and!; try reflexivity.
  - apply cache_ok_put. exact Hok.
  - exact Hf.
Qed.

Lemma remove_absent r d i :
  store_ r !! i = None → remove iteration r d i = (false, r, d, None).
Proof. intros Hs. unfold remove. rewrite Hs. reflexivity. Qed.

Lemma repo_remove_spec r d i c0 :
  cache_ok r → store_ r !! i = Some c0 →
  ∃ r' d' e,
    remove iteration r d i = (true, r', d', e)
    ∧ cache_ok r'
    ∧ store_ r' = delete i (store_ r)
    ∧ index_ r' = (BPlusTree.remove (index_ r) i).2
    ∧ flush iteration r' d = (d', e).
Proof.
  intros Hok Hs.
  pose proof (rstep_cache_ok iteration (r, d) (Remove i) Hok) as Hok'.
  simpl in Hok'. unfold remove in *. rewrite Hs in *.
  destruct (flush iteration _ d) as [d' e] eqn:Hf.
  eexists _, d', e. split; [reflexivity |]. split_and!; try reflexivity.
  - exact Hok'.
  - exact Hf.
Qed.

(** *** The index follows the map *)

Lemma keyed_insert m c : keyed m → keyed (<[id c := c]> m).
Proof.
  intros Hk k c' Hl. apply lookup_insert_Some in Hl as [[<- <-] | [_ Hl]]; auto.
Qed.

Lemma keyed_delete m i : keyed m → keyed (delete i m).
Proof. intros Hk k c' Hl. apply lookup_delete_Some in Hl as [_ Hl]. auto. Qed.

Lemma index_step s o :
  index_ok s.1 → keyed (store_ s.1) →
  match o with Save c => store_ s.1 !! id c = None | _ => True end →
  index_ok (rstep iteration s o).1 ∧ keyed (store_ (rstep iteration s o).1).
Proof.
  destruct s as [r d]. simpl. intros Hix Hk Hfresh. pose proof Hix as [HI Hc].
  destruct o as [c | c | i | i | b]; simpl.
  - unfold save. destruct (flush iteration _ d) as [d' e]. simpl. split.
    + unfold index_ok. simpl.
      destruct (BPlusTreeFacts.insert_spec 4 (index_ r) (id c) (id c) HI)
        as (HI' & Hc' & _).
      * rewrite Hc, lookup_fmap, Hfresh. reflexivity.
      * split; [exact HI' |]. rewrite Hc', Hc, fmap_insert. reflexivity.
    + apply keyed_insert. exact Hk.
  - unfold update. destruct (store_ r !! id c) as [c0 |] eqn:Hs; [| split; assumption].
    destruct (flush iteration _ d) as [d' e]. simpl. split.
    + unfold index_ok. simpl.
      destruct (BPlusTreeFacts.update_spec (index_ r) (id c) (id c) HI)
        as (HI' & Hc' & _).
      split; [exact HI' |]. rewrite Hc', Hc. apply map_eq. intros k.
      destruct (decide (k = id c)) as [-> | Hne].
      * rewrite lookup_alter_eq, !lookup_fmap, Hs, lookup_insert_eq. reflexivity.
      * rewrite lookup_alter_ne, !lookup_fmap, lookup_insert_ne by congruence.
        reflexivity.
    + apply keyed_insert. exact Hk.
  - unfold remove. destruct (store_ r !! i) as [c0 |] eqn:Hs; [| split; assumption].
    destruct (flush iteration _ d) as [d' e]. simpl. split.
    + unfold index_ok. simpl.
      destruct (BPlusTreeFacts.remove_spec (index_ r) i HI) as (HI' & Hc' & _).
      split; [exact HI' |]. rewrite Hc', Hc, fmap_delete. reflexivity.
    + apply keyed_delete. exact Hk.
  - unfold find_by_id. destruct (LRUCache.get (cache_ r) i) as [[c |] cache]; simpl;
      [split; assumption |].
    destruct (store_ r !! i); simpl; split; assumption.
  - split; assumption.
Qed.

Lemma index_run ops :
  ∀ s, index_ok s.1 → keyed (store_ s.1) → fresh_saves s ops →
       index_ok (rrun iteration s ops).1 ∧ keyed (store_ (rrun iteration s ops).1).
Proof.
  induction ops as [| o ops IH]; intros s Hix Hk Hfresh; simpl; [split; assumption |].
  destruct Hfresh as [Ho Hrest].
  destruct (index_step s o Hix Hk Ho) as [Hix' Hk'].
  apply IH; assumption.
Qed.

Lemma omap_ids (m : gmap Z Customer) (es : list (Z * Z)) :
  keyed m → Forall (λ e, is_Some (m !! e.1)) es →
  id <$> omap (λ e, m !! e.1) es = es.*1.
Proof.
  intros Hk. induction es as [| e es IH]; intros Hall; [reflexivity |].
  apply Forall_cons in Hall as [[c Hc] Hall]. csimpl. rewrite Hc. csimpl.
  f_equal; [exact (Hk _ _ Hc) | exact (IH Hall)].
Qed.

Lemma find_range_spec r lo hi :
  index_ok r → keyed (store_ r) →
  ∃ l,
    (∀ fuel, (length (BPlusTreeFacts.leaves (BPlusTree.root_ (index_ r))) ≤ fuel)%nat →
             find_range fuel r lo hi = Some l)
    ∧ StronglySorted Z.lt (id <$> l)
    ∧ ∀ c, c ∈ l ↔ store_ r !! id c = Some c ∧ lo ≤ id c ≤ hi.
Proof.
  intros [HI Hc] Hk.
  set (E := BPlusTreeFacts.entries (BPlusTree.root_ (index_ r))).
  assert (HE : ∀ k v, (k, v) ∈ E ↔ v = k ∧ is_Some (store_ r !! k)).
  { intros k v. unfold E.
    rewrite (elem_of_list_to_map (M := gmap Z) _ k v)
      by (apply BPlusTreeFacts.Inv_NoDup; exact HI).
    fold (BPlusTreeFacts.contents (index_ r)). rewrite Hc, lookup_fmap.
    destruct (store_ r !! k) as [c |] eqn:Hs; simpl.
    - rewrite (Hk _ _ Hs). split; [intros [= <-]; eauto | intros [-> _]; reflexivity].
    - split; [discriminate | intros [_ [? ?]]; discriminate]. }
  exists (omap (λ e, store_ r !! e.1) (filter (BPlusTreeFacts.in_range lo hi) E)).
  split_and!.
  - intros fuel Hfuel. unfold find_range.
    rewrite (BPlusTreeFacts.range_spec (index_ r) lo hi fuel HI Hfuel). reflexivity.
  - rewrite omap_ids.
    + eapply BPlusTreeFacts.StronglySorted_sublist_lt;
        [| apply (BPlusTreeFacts.ok_sorted _ _ _ (BPlusTreeFacts.inv_ok _ HI))].
      apply fmap_sublist, sublist_filter.
    + exact Hk.
    + rewrite Forall_forall. intros [k v] Hin.
      apply list_elem_of_filter in Hin as [_ Hin]. apply HE in Hin as [_ Hin]. exact Hin.
  - intros c. rewrite list_elem_of_omap. split.
    + intros ([k v] & Hin & Hl). simpl in Hl.
      apply list_elem_of_filter in Hin as [Hr Hin].
      unfold BPlusTreeFacts.in_range in Hr. simpl in Hr.
      rewrite (Hk _ _ Hl). split; [exact Hl | exact Hr].
    + intros [Hl Hr]. exists (id c, id c). split; [| exact Hl].
      apply list_elem_of_filter. split; [exact Hr |].
      apply HE. split; [reflexivity | eauto].
Qed.

(** *** The data file follows the map *)

Definition in_sync (s : t * Disk) : Prop :=
  writable s.2 = true ∧ store_wf (store_ s.1)
  ∧ ∃ r2, new s.2 = Some r2 ∧ store_ r2 = store_ s.1.

Hypothesis iteration_perm : ∀ m, iteration m ≡ₚ map_to_list m.

Lemma flush_sync r d :
  writable d = true → store_wf (store_ r) → Z.of_nat (size (store_ r)) < 2 ^ 64 →
  ∃ d', flush iteration r d = (d', None) ∧ in_sync (r, d').
Proof.
  intros Hw Hwf Hsize.
  destruct (flush_then_load iteration iteration_perm r d blank Hw Hwf Hsize eq_refl)
    as (d' & r2 & Hf & Hl & Hs & _).
  exists d'. split; [exact Hf |]. split_and!; simpl.
  - unfold flush in Hf. rewrite Hw in Hf. injection Hf as <-. reflexivity.
  - exact Hwf.
  - exists r2. rewrite new_load. split; assumption.
Qed.

Lemma sync_step s o n :
  in_sync s → rop_wf o → (size (store_ s.1) ≤ n)%nat → Z.of_nat (S n) < 2 ^ 64 →
  in_sync (rstep iteration s o) ∧ (size (store_ (rstep iteration s o).1) ≤ S n)%nat.
Proof.
  destruct s as [r d]. intros Hsync Ho Hn Hbound.
  pose proof Hsync as (Hw & Hwf & r2 & Hnew & Hs). simpl in *.
  destruct o as [c | c | i | i | b]; simpl in *.
  - unfold save.
    set (r' := {| store_ := <[id c := c]> (store_ r);
                  index_ := BPlusTree.insert 4 (index_ r) (id c) (id c);
                  cache_ := (LRUCache.put (cache_ r) (id c) c).1 |}).
    pose proof (size_insert_le (store_ r) (id c) c) as Hle.
    destruct (flush_sync r' d Hw) as (d' & -> & Hsync').
    + apply store_wf_insert; assumption.
    + simpl. lia.
    + split; [exact Hsync' | simpl; lia].
  - unfold update. destruct (store_ r !! id c) as [c0 |] eqn:Hc0;
      [| split; [exact Hsync | simpl; lia]].
    set (r' := {| store_ := <[id c := c]> (store_ r);
                  index_ := (BPlusTree.update (index_ r) (id c) (id c)).2;
                  cache_ := (LRUCache.put (cache_ r) (id c) c).1 |}).
    pose proof (size_insert_le (store_ r) (id c) c) as Hle.
    destruct (flush_sync r' d Hw) as (d' & -> & Hsync').
    + apply store_wf_insert; assumption.
    + simpl. lia.
    + split; [exact Hsync' | simpl; lia].
  - unfold remove. destruct (store_ r !! i) as [c0 |] eqn:Hc0;
      [| split; [exact Hsync | simpl; lia]].
    set (r' := {| store_ := delete i (store_ r);
                  index_ := (BPlusTree.remove (index_ r) i).2;
                  cache_ := (LRUCache.evict (cache_ r) i).2 |}).
    assert (Hle : (size (delete i (store_ r)) ≤ size (store_ r))%nat).
    { rewrite map_size_delete_Some by eauto. lia. }
    destruct (flush_sync r' d Hw) as (d' & -> & Hsync').
    + apply store_wf_delete; assumption.
    + simpl. lia.
    + split; [exact Hsync' | simpl; lia].
  - assert (Hst : store_ (find_by_id r i).2 = store_ r).
    { unfold find_by_id. destruct (LRUCache.get (cache_ r) i) as [[c |] cache];
        [reflexivity |]. destruct (store_ r !! i); reflexivity. }
    split; [| rewrite Hst; lia]. unfold in_sync. simpl. rewrite Hst.
    split_and!; [exact Hw | exact Hwf | eauto].
  - subst b. split; [| lia]. unfold in_sync. simpl.
    destruct d as [f w]. simpl in *. subst w. split_and!; [reflexivity | exact Hwf | eauto].
Qed.

Lemma sync_run ops :
  ∀ s n, in_sync s → Forall rop_wf ops →
         (size (store_ s.1) ≤ n)%nat → Z.of_nat (n + length ops) < 2 ^ 64 →
         in_sync (rrun iteration s ops).
Proof.
  induction ops as [| o ops IH]; intros s n Hsync Hwf Hn Hbound; simpl; [exact Hsync |].
  apply Forall_cons in Hwf as [Ho Hwf]. simpl in Hbound.
  destruct (sync_step s o n Hsync Ho Hn) as [Hsync' Hn']; [lia |].
  apply (IH _ (S n)); try assumption. lia.
Qed.

(** *** Scans of the map *)

Lemma find_all_elem r c : c ∈ find_all iteration r ↔ ∃ k, store_ r !! k = Some c.
Proof.
  unfold find_all. rewrite list_elem_of_fmap. split.
  - intros ([k c'] & -> & Hin). exists k. apply (iteration_elem iteration iteration_perm).
    exact Hin.
  - intros [k Hk]. exists (k, c). split; [reflexivity |].
    apply (iteration_elem iteration iteration_perm). exact Hk.
Qed.

Lemma find_all_length r : length (find_all iteration r) = count r.
Proof.
  unfold find_all, count. rewrite length_fmap, iteration_perm.
  apply length_map_to_list.
Qed.

End More.

(** A second customer used in the examples. *)
Definition other_customer : Customer :=
  {| id := 9; name := [x42; x6f; x62]; email := [x62; x40; x63]; phone := [];
     address := []; country := [x44; x45]; state := [];
     tier := BRONZE; status := ACTIVE; credit_score := 640;
     credit_limit := 4656510908468559872; current_balance := 0;
     total_spent := 0; created_at := 1704067300;
     updated_at := 1704067300 |}.

Lemma other_customer_wf : customer_wf other_customer.
Proof. split; simpl; lia. Qed.

Lemma blank_ok : repo_ok blank.
Proof.
  split_and!.
  - apply (new_cache_ok (mkDisk None true)). reflexivity.
  - destruct (BPlusTreeFacts.Inv_new (Value := Z) 4 (index_ blank) eq_refl) as [HI Hc].
    split; [exact HI |]. rewrite Hc. simpl. rewrite fmap_empty. reflexivity.
  - intros k c Hl. simpl in Hl. rewrite lookup_empty in Hl. discriminate.
Qed.


(** X15.  In a repository built on an empty data directory and used with
    [save] only for ids it does not hold (with any [update], [remove] and
    [find_by_id] calls, [flush] succeeding or throwing), the index holds
    exactly the ids of the map: its [size] is [count], [search] finds an id
    exactly when the map has it, and [find_range lo hi] returns the stored
    records with [lo <= id <= hi], each once, in ascending order of id. *)
Theorem find_range_after_fresh_saves
  (iteration : gmap Z Customer → list (Z * Customer))
  (d0 : Disk) (r0 : t) (ops : list rop) (lo hi : Z) :
  file d0 = None → new d0 = Some r0 → fresh_saves iteration (r0, d0) ops →
  let s := rrun iteration (r0, d0) ops in
  BPlusTree.size (index_ s.1) = count s.1
  ∧ (∀ i, BPlusTree.search (index_ s.1) i = id <$> store_ s.1 !! i)
  ∧ ∃ l fuel0,
      (∀ fuel, (fuel0 ≤ fuel)%nat → find_range fuel s.1 lo hi = Some l)
      ∧ StronglySorted Z.lt (id <$> l)
      ∧ ∀ c, c ∈ l ↔ store_ s.1 !! id c = Some c ∧ lo ≤ id c ≤ hi.
Proof.
  intros Hfile Hnew Hfresh s.
  assert (Hr0 : r0 = blank).
  { rewrite new_load in Hnew. unfold load_all in Hnew. rewrite Hfile in Hnew.
    congruence. }
  destruct blank_ok as (_ & Hix0 & Hk0). rewrite <- Hr0 in Hix0, Hk0.
  destruct (index_run iteration ops (r0, d0) Hix0 Hk0 Hfresh) as [Hix Hk].
  fold s in Hix, Hk. pose proof Hix as [HI Hc].
  split_and!.
  - unfold BPlusTree.size, count. rewrite (BPlusTreeFacts.inv_size _ HI).
    rewrite <- (map_size_fmap id (store_ s.1)), <- Hc. unfold BPlusTreeFacts.contents.
    rewrite map_size_list_to_map by (apply BPlusTreeFacts.Inv_NoDup; exact HI).
    reflexivity.
  - intros i. rewrite BPlusTreeFacts.search_contents by exact HI.
    rewrite Hc. apply lookup_fmap.
  - destruct (find_range_spec s.1 lo hi Hix Hk) as (l & Hl & Hsorted & Hmem).
    exists l, (length (BPlusTreeFacts.leaves (BPlusTree.root_ (index_ s.1)))).
    split_and!; assumption.
Qed.

Lemma find_range_after_fresh_saves_witness :
  file (mkDisk None true) = None
  ∧ new (mkDisk None true) = Some blank
  ∧ fresh_saves map_to_list (blank, mkDisk None true)
      [Save other_customer; Save sample_customer; Update other_customer]
  ∧ BPlusTree.size
      (index_ (rrun map_to_list (blank, mkDisk None true)
                 [Save other_customer; Save sample_customer; Update other_customer]).1)
    = count (rrun map_to_list (blank, mkDisk None true)
               [Save other_customer; Save sample_customer; Update other_customer]).1.
Proof.
  assert (Hfresh : fresh_saves map_to_list (blank, mkDisk None true)
                     [Save other_customer; Save sample_customer; Update other_customer]).
  { cbn [fresh_saves]. split; [vm_compute; reflexivity |].
    split; [vm_compute; reflexivity |]. split; exact I. }
  split; [reflexivity |]. split; [reflexivity |]. split; [exact Hfresh |].
  exact (proj1 (find_range_after_fresh_saves map_to_list (mkDisk None true) blank
                  [Save other_customer; Save sample_customer; Update other_customer]
                  0 10 eq_refl eq_refl Hfresh)).
Defined.

(** X16.  [save] changes the map, the index and the cache before it writes
    the file: in every reachable state, after [save c] the record is found
    under its id and every other id answers as before, whether [flush]
    succeeded or threw; when the file cannot be opened for writing the call
    throws [runtime_error] and the file is left as it was. *)
Theorem repo_save_contract (iteration : gmap Z Customer → list (Z * Customer))
  (d0 : Disk) (r0 : t) (ops : list rop) (c : Customer) :
  new d0 = Some r0 →
  let s := rrun iteration (r0, d0) ops in
  ∃ r' d' e,
    save iteration s.1 s.2 c = (r', d', e)
    ∧ (find_by_id r' (id c)).1 = Some c
    ∧ (∀ i, i ≠ id c → (find_by_id r' i).1 = (find_by_id s.1 i).1)
    ∧ (writable s.2 = true → e = None)
    ∧ (writable s.2 = false →
       d' = s.2
       ∧ e = Some (runtime_error "Cannot open customer data file for writing")).
Proof.
  intros Hnew s.
  pose proof (rrun_cache_ok iteration ops (r0, d0) (new_cache_ok d0 r0 Hnew)) as Hok.
  fold s in Hok.
  destruct (repo_save_spec iteration s.1 s.2 c Hok) as (r' & d' & e & Hsave & Hok' & Hst & _ & Hf).
  exists r', d', e. split; [exact Hsave |].
  split_and!.
  - rewrite (proj1 (find_by_id_spec iteration r' (id c) Hok')), Hst.
    apply lookup_insert_eq.
  - intros i Hne.
    rewrite (proj1 (find_by_id_spec iteration r' i Hok')), Hst.
    rewrite (proj1 (find_by_id_spec iteration s.1 i Hok)).
    apply lookup_insert_ne. congruence.
  - intros Hw. destruct (flush_cases iteration r' s.2) as [(_ & d2 & Hf2 & _) | [Hw2 _]];
      congruence.
  - intros Hw. destruct (flush_cases iteration r' s.2) as [[Hw2 _] | [_ Hf2]];
      [congruence |]. rewrite Hf2 in Hf. injection Hf as <- <-. split; reflexivity.
Qed.

Lemma repo_save_contract_witness :
  new (mkDisk None false) = Some blank
  ∧ ∃ r' d' e,
      save map_to_list
        (rrun map_to_list (blank, mkDisk None false) [Save other_customer]).1
        (rrun map_to_list (blank, mkDisk None false) [Save other_customer]).2
        sample_customer = (r', d', e)
      ∧ (find_by_id r' (id sample_customer)).1 = Some sample_customer.
Proof.
  split; [reflexivity |].
  destruct (repo_save_contract map_to_list (mkDisk None false) blank [Save other_customer]
              sample_customer eq_refl) as (r' & d' & e & Hs & Hf & _).
  exists r', d', e. split; [exact Hs | exact Hf].
Defined.

(** X17.  [update c] on an id the map does not hold returns false and
    changes nothing, not even the file; on an id it holds it returns true,
    [find_by_id] then returns [c] for that id (the cache is refreshed) and
    what it returned before for every other id, and [count] is unchanged; it
    throws only when the file cannot be opened for writing. *)
Theorem repo_update_contract (iteration : gmap Z Customer → list (Z * Customer))
  (d0 : Disk) (r0 : t) (ops : list rop) (c : Customer) :
  new d0 = Some r0 →
  let s := rrun iteration (r0, d0) ops in
  (store_ s.1 !! id c = None → update iteration s.1 s.2 c = (false, s.1, s.2, None))
  ∧ (is_Some (store_ s.1 !! id c) →
     ∃ r' d' e,
       update iteration s.1 s.2 c = (true, r', d', e)
       ∧ (find_by_id r' (id c)).1 = Some c
       ∧ (∀ i, i ≠ id c → (find_by_id r' i).1 = (find_by_id s.1 i).1)
       ∧ count r' = count s.1
       ∧ (writable s.2 = true → e = None)).
Proof.
  intros Hnew s.
  pose proof (rrun_cache_ok iteration ops (r0, d0) (new_cache_ok d0 r0 Hnew)) as Hok.
  fold s in Hok. split; [apply update_absent |].
  intros [c0 Hc0].
  destruct (repo_update_spec iteration s.1 s.2 c c0 Hok Hc0)
    as (r' & d' & e & Hup & Hok' & Hst & _ & Hf).
  exists r', d', e. split; [exact Hup |].
  split_and!.
  - rewrite (proj1 (find_by_id_spec iteration r' (id c) Hok')), Hst.
    apply lookup_insert_eq.
  - intros i Hne.
    rewrite (proj1 (find_by_id_spec iteration r' i Hok')), Hst.
    rewrite (proj1 (find_by_id_spec iteration s.1 i Hok)).
    apply lookup_insert_ne. congruence.
  - unfold count. rewrite Hst. apply map_size_insert_Some. eauto.
  - intros Hw. destruct (flush_cases iteration r' s.2) as [(_ & d2 & Hf2 & _) | [Hw2 _]];
      congruence.
Qed.

Lemma repo_update_contract_witness :
  new (mkDisk None true) = Some blank
  ∧ update map_to_list
      (rrun map_to_list (blank, mkDisk None true) [Save other_customer]).1
      (rrun map_to_list (blank, mkDisk None true) [Save other_customer]).2
      sample_customer
    = (false,
       (rrun map_to_list (blank, mkDisk None true) [Save other_customer]).1,
       (rrun map_to_list (blank, mkDisk None true) [Save other_customer]).2, None).
Proof.
  split; [reflexivity |].
  apply (proj1 (repo_update_contract map_to_list (mkDisk None true) blank [Save other_customer]
                  sample_customer eq_refl)).
  vm_compute. reflexivity.
Defined.



(** X19.  As long as the data directory stays writable and the records hold
    values of their C++ field types, the data file follows the map through
    any sequence of [save], [update], [remove] and [find_by_id] calls: the
    repository a restart builds from the file has the same map and answers
    every [find_by_id] as the running one does. *)
Theorem restart_after_run (iteration : gmap Z Customer → list (Z * Customer))
  (d0 : Disk) (r0 : t) (ops : list rop) :
  (∀ m, iteration m ≡ₚ map_to_list m) →
  new d0 = Some r0 → writable d0 = true → store_wf (store_ r0) →
  Forall rop_wf ops →
  Z.of_nat (size (store_ r0) + length ops) < 2 ^ 64 →
  let s := rrun iteration (r0, d0) ops in
  ∃ r2, new s.2 = Some r2
        ∧ store_ r2 = store_ s.1
        ∧ ∀ i, (find_by_id r2 i).1 = (find_by_id s.1 i).1.
Proof.
  intros Hperm Hnew Hw Hwf Hops Hbound s.
  assert (Hsync0 : in_sync (r0, d0)).
  { split_and!; [exact Hw | exact Hwf | exists r0; split; [exact Hnew | reflexivity]]. }
  destruct (sync_run iteration Hperm ops (r0, d0) (size (store_ r0)) Hsync0 Hops)
    as (_ & _ & r2 & Hnew2 & Hst); [simpl; lia | exact Hbound |].
  fold s in Hnew2, Hst. exists r2. split_and!; [exact Hnew2 | exact Hst |].
  intros i.
  pose proof (rrun_cache_ok iteration ops (r0, d0) (new_cache_ok d0 r0 Hnew)) as Hok.
  fold s in Hok.
  rewrite (proj1 (find_by_id_spec iteration r2 i (new_cache_ok _ _ Hnew2))).
  rewrite (proj1 (find_by_id_spec iteration s.1 i Hok)), Hst. reflexivity.
Qed.

Lemma restart_after_run_witness :
  new (mkDisk None true) = Some blank
  ∧ writable (mkDisk None true) = true
  ∧ Forall rop_wf [Save other_customer; Save sample_customer; Remove 9]
  ∧ ∃ r2,
      new (rrun map_to_list (blank, mkDisk None true)
             [Save other_customer; Save sample_customer; Remove 9]).2 = Some r2
      ∧ store_ r2
        = store_ (rrun map_to_list (blank, mkDisk None true)
                    [Save other_customer; Save sample_customer; Remove 9]).1.
Proof.
  assert (Hops : Forall rop_wf [Save other_customer; Save sample_customer; Remove 9]).
  { apply Forall_cons. split; [exact other_customer_wf |].
    apply Forall_cons. split; [exact sample_customer_wf |].
    apply Forall_cons. split; [exact I | apply Forall_nil_2]. }
  split; [reflexivity |]. split; [reflexivity |]. split; [exact Hops |].
  destruct (restart_after_run map_to_list (mkDisk None true) blank
              [Save other_customer; Save sample_customer; Remove 9])
    as (r2 & Hnew2 & Hst & _).
  - intros m. reflexivity.
  - reflexivity.
  - reflexivity.
  - intros k c Hl. simpl in Hl. rewrite lookup_empty in Hl. discriminate.
  - exact Hops.
  - simpl. rewrite map_size_empty. simpl. lia.
  - exists r2. split; [exact Hnew2 | exact Hst].
Defined.

(** X20.  [find_by_email] returns a stored record with the given address
    when there is one (the first in the iteration order of the map), and
    nothing exactly when no stored record has that address. *)
Theorem find_by_email_contract (iteration : gmap Z Customer → list (Z * Customer))
  (r : t) (e : list byte) :
  (∀ m, iteration m ≡ₚ map_to_list m) →
  (∀ c, find_by_email iteration r e = Some c →
        email c = e ∧ ∃ k, store_ r !! k = Some c)
  ∧ (find_by_email iteration r e = None ↔
     ∀ k c, store_ r !! k = Some c → email c ≠ e).
Proof.
  intros Hperm. unfold find_by_email. split.
  - intros c Hc.
    destruct (head (filter _ (iteration (store_ r)))) as [[k c'] |] eqn:Hh; [| discriminate].
    injection Hc as <-. apply head_Some_elem_of in Hh.
    apply list_elem_of_filter in Hh as [He Hin]. simpl in He.
    apply (iteration_elem iteration Hperm) in Hin. eauto.
  - split.
    + intros Hn k c Hs He.
      destruct (head (filter _ (iteration (store_ r)))) as [[k' c'] |] eqn:Hh;
        [discriminate |].
      apply head_None in Hh.
      assert (Hin : (k, c) ∈ filter (λ kc : Z * Customer, email kc.2 = e)
                                   (iteration (store_ r))).
      { apply list_elem_of_filter. split; [exact He |].
        apply (iteration_elem iteration Hperm). exact Hs. }
      rewrite Hh in Hin. inversion Hin.
    + intros Hall.
      destruct (head (filter _ (iteration (store_ r)))) as [[k c] |] eqn:Hh;
        [| reflexivity].
      apply head_Some_elem_of in Hh. apply list_elem_of_filter in Hh as [He Hin].
      apply (iteration_elem iteration Hperm) in Hin. exfalso. exact (Hall k c Hin He).
Qed.

Lemma find_by_email_contract_witness :
  find_by_email map_to_list
    (rrun map_to_list (blank, mkDisk None true) [Save sample_customer]).1 [x62; x40; x63]
  = None
  ↔ ∀ k c,
      store_ (rrun map_to_list (blank, mkDisk None true) [Save sample_customer]).1 !! k
      = Some c →
      email c ≠ [x62; x40; x63].
Proof.
  apply (find_by_email_contract map_to_list
           (rrun map_to_list (blank, mkDisk None true) [Save sample_customer]).1
           [x62; x40; x63]).
  intros m. reflexivity.
Defined.

(** X21.  [find_all] returns the records of the map, each once, in the
    iteration order of the map, so its length is [count]; [find_by_tier]
    returns, in the same order, exactly the stored records of that tier. *)
Theorem scans_contract (iteration : gmap Z Customer → list (Z * Customer))
  (r : t) (tr : CustomerTier) :
  (∀ m, iteration m ≡ₚ map_to_list m) →
  find_all iteration r ≡ₚ (map_to_list (store_ r)).*2
  ∧ length (find_all iteration r) = count r
  ∧ (∀ c, c ∈ find_by_tier iteration r tr ↔ tier c = tr ∧ ∃ k, store_ r !! k = Some c)
  ∧ find_by_tier iteration r tr `sublist_of` find_all iteration r.
Proof.
  intros Hperm. split_and!.
  - unfold find_all. rewrite Hperm. reflexivity.
  - apply find_all_length. exact Hperm.
  - intros c. unfold find_by_tier. fold (find_all iteration r).
    rewrite list_elem_of_filter, (find_all_elem iteration Hperm). reflexivity.
  - unfold find_by_tier. fold (find_all iteration r). apply sublist_filter.
Qed.

Lemma scans_contract_witness :
  length (find_all map_to_list
            (rrun map_to_list (blank, mkDisk None true)
               [Save sample_customer; Save other_customer]).1)
  = count (rrun map_to_list (blank, mkDisk None true)
             [Save sample_customer; Save other_customer]).1.
Proof.
  refine (proj1 (proj2 (scans_contract map_to_list
            (rrun map_to_list (blank, mkDisk None true)
               [Save sample_customer; Save other_customer]).1 GOLD _))).
  intros m. reflexivity.
Defined.

End RepositoryMore.

(** ** The customer service on top of the repository *)

Module ServiceFacts.
Import Codec CodecFacts CustomerRepository RepositoryFacts RepositoryMore.
Import CustomerService.

(** No two stored records share an email address. *)
Definition unique_emails (m : gmap Z Customer) : Prop :=
  ∀ k1 k2 c1 c2, m !! k1 = Some c1 → m !! k2 = Some c2 → email c1 = email c2 → k1 = k2.

(** What the caller of a [bool] method gets: the value returned, or the
    exception thrown; the flag a throwing call had computed is not
    delivered. *)
Definition outcome (r : bool * World * option exn) : exn + bool :=
  match r.2 with
  | Some x => inl x
  | None => inr r.1.1
  end.

(** One call on the service, or a change of the data directory's
    permissions. *)
Inductive sop : Type :=
| Create (fuel : nat) (g : SnowflakeGenerator.t) (reads : nat)
         (req : CustomerCreateRequest.t) (now : Z)
| Get (i : Z)
| UpdateProfile (i : Z) (new_name new_phone new_address : list byte) (now : Z)
| RecalculateCredit (i : Z) (payment_amount : Z) (on_time : bool) (now : Z)
| Suspend (i : Z) (now : Z)
| Activate (i : Z) (now : Z)
| RemoveCustomer (i : Z)
| Chmod (b : bool).

Section Service.
Variable iteration : gmap Z Customer → list (Z * Customer).
Variable current_ms : nat → Z.
Variable compute_credit_limit : Z → CustomerTier → Z.
Variable compute_tier : Z → CustomerTier.
Variable add_double : Z → Z → Z.
Variable above_1000 : Z → bool.

Local Abbreviation create := (create iteration current_ms compute_credit_limit).
Local Abbreviation recalculate_credit :=
  (recalculate_credit iteration compute_credit_limit compute_tier add_double above_1000).

(** The state a call leaves, also when it ends in an exception; [None] when
    [create] has not returned. *)
Definition sstep (w : World) (o : sop) : option World :=
  match o with
  | Create fuel g reads req now =>
      match create fuel g reads w req now with
      | Some (_, w', _, _) => Some w'
      | None => None
      end
  | Get i => Some (get w i).2
  | UpdateProfile i n p a now => Some (update_profile iteration w i n p a now).1.2
  | RecalculateCredit i amount on_time now =>
      Some (recalculate_credit w i amount on_time now).1.2
  | Suspend i now => Some (suspend iteration w i now).1.2
  | Activate i now => Some (activate iteration w i now).1.2
  | RemoveCustomer i => Some (remove iteration w i).1.2
  | Chmod b => Some (w.1, {| file := file w.2; writable := b |})
  end.

Fixpoint srun (w : World) (ops : list sop) : option World :=
  match ops with
  | [] => Some w
  | o :: ops' =>
      match sstep w o with
      | Some w' => srun w' ops'
      | None => None
      end
  end.

Definition winv (w : World) : Prop := cache_ok w.1 ∧ keyed (store_ w.1).

Lemma find_by_id_world r i :
  cache_ok r →
  (find_by_id r i).1 = store_ r !! i
  ∧ store_ (find_by_id r i).2 = store_ r
  ∧ cache_ok (find_by_id r i).2.
Proof.
  intros Hok. destruct (find_by_id_spec iteration r i Hok) as (H1 & H2 & _).
  split_and!; [exact H1 | exact H2 |].
  exact (rstep_cache_ok iteration (r, mkDisk None false) (FindById i) Hok).
Qed.

(** The shape shared by [update_profile], [recalculate_credit], [suspend]
    and [activate]. *)
Lemma modify_spec w i change :
  winv w → (∀ c, id (change c) = id c) →
  ∃ b w' e,
    modify iteration w i change = (b, w', e)
    ∧ winv w'
    ∧ (store_ w.1 !! i = None →
       b = false ∧ store_ w'.1 = store_ w.1 ∧ w'.2 = w.2 ∧ e = None)
    ∧ (∀ c, store_ w.1 !! i = Some c →
            b = true ∧ store_ w'.1 = <[i := change c]> (store_ w.1)
            ∧ (writable w.2 = true → e = None)
            ∧ (writable w.2 = false →
               e = Some (runtime_error "Cannot open customer data file for writing") ∧ w'.2 = w.2)).
Proof.
  intros [Hok Hk] Hid. destruct w as [r d]. simpl in *.
  destruct (find_by_id_world r i Hok) as (Hfind & Hst & Hok1).
  unfold modify. simpl.
  destruct (find_by_id r i) as [o r1] eqn:Hf. simpl in *.
  destruct o as [c |].
  - symmetry in Hfind. pose proof (Hk _ _ Hfind) as Hidc.
    assert (Hs1 : store_ r1 !! id (change c) = Some c)
      by (rewrite Hid, Hidc, Hst; exact Hfind).
    destruct (repo_update_spec iteration r1 d (change c) c Hok1 Hs1)
      as (r' & d' & e & Hup & Hok' & Hst' & _ & Hfl).
    rewrite Hup. exists true, (r', d'), e. split; [reflexivity |].
    rewrite Hid, Hidc, Hst in Hst'.
    split_and!.
    + split; simpl; [exact Hok' |]. rewrite Hst'.
      intros k c' Hl. apply lookup_insert_Some in Hl as [[<- <-] | [_ Hl]].
      * rewrite Hid. exact Hidc.
      * apply (Hk _ _ Hl).
    + intros Hnone. congruence.
    + intros c' Hc'. assert (c' = c) by congruence. subst c'. simpl.
      split_and!; [reflexivity | exact Hst' | |].
      * intros Hw.
        destruct (flush_cases iteration r' d) as [(_ & d2 & Hf2 & _) | [Hw2 _]];
          congruence.
      * intros Hw.
        destruct (flush_cases iteration r' d) as [[Hw2 _] | [_ Hf2]]; [congruence |].
        rewrite Hf2 in Hfl. injection Hfl as <- <-. split; reflexivity.
  - exists false, (r1, d), None. split; [reflexivity |]. split_and!.
    + split; simpl; [exact Hok1 | rewrite Hst; exact Hk].
    + intros _. simpl. split_and!; try reflexivity. exact Hst.
    + intros c Hc. congruence.
Qed.

Lemma unique_insert_same m i c c' :
  unique_emails m → m !! i = Some c → email c' = email c →
  unique_emails (<[i := c']> m).
Proof.
  intros Hu Hc He k1 k2 c1 c2 H1 H2 Heq.
  apply lookup_insert_Some in H1 as [[<- <-] | [Hn1 H1]];
    apply lookup_insert_Some in H2 as [[<- <-] | [Hn2 H2]].
  - reflexivity.
  - apply (Hu i k2 c c2 Hc H2). congruence.
  - apply (Hu k1 i c1 c H1 Hc). congruence.
  - apply (Hu k1 k2 c1 c2 H1 H2 Heq).
Qed.

Lemma unique_insert_new m i c :
  unique_emails m → (∀ k c0, m !! k = Some c0 → email c0 ≠ email c) →
  unique_emails (<[i := c]> m).
Proof.
  intros Hu Hnew k1 k2 c1 c2 H1 H2 Heq.
  apply lookup_insert_Some in H1 as [[<- <-] | [Hn1 H1]];
    apply lookup_insert_Some in H2 as [[<- <-] | [Hn2 H2]].
  - reflexivity.
  - exfalso. apply (Hnew k2 c2 H2). congruence.
  - exfalso. apply (Hnew k1 c1 H1). congruence.
  - apply (Hu k1 k2 c1 c2 H1 H2 Heq).
Qed.

Lemma unique_delete m i : unique_emails m → unique_emails (delete i m).
Proof.
  intros Hu k1 k2 c1 c2 H1 H2. apply lookup_delete_Some in H1 as [_ H1].
  apply lookup_delete_Some in H2 as [_ H2]. apply (Hu k1 k2 c1 c2 H1 H2).
Qed.

Lemma modify_unique w i change :
  winv w → unique_emails (store_ w.1) →
  (∀ c, id (change c) = id c) → (∀ c, email (change c) = email c) →
  winv (modify iteration w i change).1.2
  ∧ unique_emails (store_ (modify iteration w i change).1.2.1).
Proof.
  intros Hinv Hu Hid Hem.
  destruct (modify_spec w i change Hinv Hid) as (b & w' & e & -> & Hinv' & Hnone & Hsome).
  simpl. split; [exact Hinv' |].
  destruct (store_ w.1 !! i) as [c |] eqn:Hs.
  - destruct (Hsome c eq_refl) as (_ & -> & _).
    eapply unique_insert_same; [exact Hu | exact Hs | apply Hem].
  - destruct (Hnone eq_refl) as (_ & -> & _). exact Hu.
Qed.

Lemma remove_world w i :
  winv w →
  winv (remove iteration w i).1.2
  ∧ (store_ (remove iteration w i).1.2.1 = delete i (store_ w.1)).
Proof.
  intros [Hok Hk]. destruct w as [r d]. unfold remove. simpl in *.
  destruct (store_ r !! i) as [c0 |] eqn:Hs.
  - destruct (repo_remove_spec iteration r d i c0 Hok Hs)
      as (r' & d' & e & -> & Hok' & Hst & _). simpl.
    split; [| exact Hst]. split; simpl; [exact Hok' |].
    rewrite Hst. apply keyed_delete. exact Hk.
  - rewrite (remove_absent iteration r d i Hs). simpl.
    split; [split; assumption |]. rewrite delete_id by exact Hs. reflexivity.
Qed.

Section Emails.
Hypothesis iteration_perm : ∀ m, iteration m ≡ₚ map_to_list m.

Lemma find_by_email_None r e :
  find_by_email iteration r e = None → ∀ k c, store_ r !! k = Some c → email c ≠ e.
Proof.
  unfold find_by_email. intros Hn k c Hs He.
  destruct (head (filter _ (iteration (store_ r)))) as [[k' c'] |] eqn:Hh;
    [discriminate |].
  apply head_None in Hh.
  assert (Hin : (k, c) ∈ filter (λ kc : Z * Customer, email kc.2 = e)
                               (iteration (store_ r))).
  { apply list_elem_of_filter. split; [exact He |].
    apply (iteration_elem iteration iteration_perm). exact Hs. }
  rewrite Hh in Hin. inversion Hin.
Qed.

Lemma find_by_email_Some r e c :
  find_by_email iteration r e = Some c → email c = e ∧ ∃ k, store_ r !! k = Some c.
Proof.
  unfold find_by_email. intros Hc.
  destruct (head (filter _ (iteration (store_ r)))) as [[k c'] |] eqn:Hh; [| discriminate].
  injection Hc as <-. apply head_Some_elem_of in Hh.
  apply list_elem_of_filter in Hh as [He Hin]. simpl in He.
  apply (iteration_elem iteration iteration_perm) in Hin. eauto.
Qed.

Lemma find_by_email_is_Some r e k c :
  store_ r !! k = Some c → email c = e → is_Some (find_by_email iteration r e).
Proof.
  intros Hs He. destruct (find_by_email iteration r e) as [c' |] eqn:Hf; [eauto |].
  exfalso. exact (find_by_email_None r e Hf k c Hs He).
Qed.

Lemma sstep_inv w o w' :
  winv w → unique_emails (store_ w.1) → sstep w o = Some w' →
  winv w' ∧ unique_emails (store_ w'.1).
Proof.
  intros Hinv Hu. pose proof Hinv as [Hok Hk].
  destruct o as [fuel g reads req now | i | i n p a now | i amount on_time now
                 | i now | i now | i | b]; simpl.
  - unfold CustomerService.create.
    destruct (_ || _); [intros [= <-]; split; assumption |].
    destruct (find_by_email iteration w.1 (CustomerCreateRequest.email req)) eqn:Hfe;
      [intros [= <-]; split; assumption |].
    destruct (SnowflakeGenerator.next current_ms fuel g reads) as [[[new_id g'] reads'] |];
      [| discriminate].
    set (c := {| id := new_id; email := CustomerCreateRequest.email req |}).
    destruct (repo_save_spec iteration w.1 w.2 c Hok)
      as (r' & d' & e & -> & Hok' & Hst & _).
    intros [= <-]. simpl. split.
    + split; simpl; [exact Hok' |]. rewrite Hst. apply keyed_insert. exact Hk.
    + rewrite Hst. apply unique_insert_new; [exact Hu |].
      intros k c0 Hc0. apply (find_by_email_None _ _ Hfe k c0 Hc0).
  - intros [= <-]. unfold get.
    destruct (find_by_id_world w.1 i Hok) as (_ & Hst & Hok1).
    destruct (find_by_id w.1 i) as [o r1]. simpl in *.
    rewrite Hst. split; [split; simpl; [exact Hok1 | rewrite Hst; exact Hk] | exact Hu].
  - intros [= <-]. apply modify_unique; auto.
  - intros [= <-]. apply modify_unique; auto.
  - intros [= <-]. apply modify_unique; auto.
  - intros [= <-]. apply modify_unique; auto.
  - intros [= <-]. destruct (remove_world w i Hinv) as [Hinv' Hst].
    split; [exact Hinv' |]. rewrite Hst. apply unique_delete. exact Hu.
  - intros [= <-]. split; assumption.
Qed.

Lemma srun_inv ops :
  ∀ w w', winv w → unique_emails (store_ w.1) → srun w ops = Some w' →
          winv w' ∧ unique_emails (store_ w'.1).
Proof.
  induction ops as [| o ops IH]; intros w w' Hinv Hu; simpl.
  - intros [= <-]. split; assumption.
  - destruct (sstep w o) as [w1 |] eqn:Hs; [| discriminate].
    destruct (sstep_inv w o w1 Hinv Hu Hs) as [Hinv1 Hu1]. apply IH; assumption.
Qed.

End Emails.

Lemma modify_winv w i change :
  winv w → (∀ c, id (change c) = id c) → winv (modify iteration w i change).1.2.
Proof.
  intros Hinv Hid.
  destruct (modify_spec w i change Hinv Hid) as (b & w' & e & -> & Hinv' & _).
  exact Hinv'.
Qed.

Lemma sstep_winv w o w' : winv w → sstep w o = Some w' → winv w'.
Proof.
  intros Hinv. pose proof Hinv as [Hok Hk].
  destruct o as [fuel g reads req now | i | i n p a now | i amount on_time now
                 | i now | i now | i | b]; simpl.
  - unfold CustomerService.create.
    destruct (_ || _); [intros [= <-]; assumption |].
    destruct (find_by_email iteration w.1 (CustomerCreateRequest.email req));
      [intros [= <-]; assumption |].
    destruct (SnowflakeGenerator.next current_ms fuel g reads) as [[[new_id g'] reads'] |];
      [| discriminate].
    set (c := {| id := new_id; email := CustomerCreateRequest.email req |}).
    destruct (repo_save_spec iteration w.1 w.2 c Hok)
      as (r' & d' & e & -> & Hok' & Hst & _).
    intros [= <-]. split; simpl; [exact Hok' |]. rewrite Hst. apply keyed_insert. exact Hk.
  - intros [= <-]. unfold get.
    destruct (find_by_id_world w.1 i Hok) as (_ & Hst & Hok1).
    destruct (find_by_id w.1 i) as [o r1]. simpl in *.
    split; simpl; [exact Hok1 | rewrite Hst; exact Hk].
  - intros [= <-]. apply modify_winv; auto.
  - intros [= <-]. apply modify_winv; auto.
  - intros [= <-]. apply modify_winv; auto.
  - intros [= <-]. apply modify_winv; auto.
  - intros [= <-]. apply remove_world. exact Hinv.
  - intros [= <-]. exact Hinv.
Qed.

Lemma srun_winv ops : ∀ w w', winv w → srun w ops = Some w' → winv w'.
Proof.
  induction ops as [| o ops IH]; intros w w' Hinv; simpl.
  - intros [= <-]. exact Hinv.
  - destruct (sstep w o) as [w1 |] eqn:Hs; [| discriminate].
    apply IH. eapply sstep_winv; eauto.
Qed.

End Service.

Lemma load_records_keyed n :
  ∀ r f r' f', load_records n r f = Some (r', f') → keyed (store_ r) → keyed (store_ r').
Proof.
  induction n as [| n IH]; intros r f r' f'; simpl.
  - unfold ret. intros [= <- _]. auto.
  - unfold bind. destruct (read_customer f) as [[c f1] |]; [| discriminate].
    intros Hl Hk. apply IH in Hl; [exact Hl |]. simpl. apply keyed_insert. exact Hk.
Qed.

Lemma new_winv d r : new d = Some r → winv (r, d).
Proof.
  intros Hnew. split; simpl; [eapply new_cache_ok; exact Hnew |].
  rewrite new_load in Hnew. unfold load_all in Hnew.
  assert (Hb : keyed (store_ blank))
    by (intros k c Hl; simpl in Hl; rewrite lookup_empty in Hl; discriminate).
  destruct (file d) as [f |]; [| injection Hnew as <-; exact Hb].
  destruct (load_records _ blank (drop 8 f)) as [[r' f'] |] eqn:Hl; [| discriminate].
  injection Hnew as <-. eapply load_records_keyed; eauto.
Qed.


Lemma get_fst (w : World) i : (get w i).1 = (find_by_id w.1 i).1.
Proof. unfold get. destruct (find_by_id w.1 i). reflexivity. Qed.

Lemma get_store (iteration : gmap Z Customer → list (Z * Customer)) (w : World) i : winv w → (get w i).1 = store_ w.1 !! i.
Proof.
  intros [Hok _]. rewrite get_fst.
  apply (find_by_id_world iteration w.1 i Hok).
Qed.

Lemma modify_get (iteration : gmap Z Customer → list (Z * Customer)) (w : World) i change c :
  winv w → (∀ c, id (change c) = id c) → store_ w.1 !! i = Some c →
  ∃ b w' e,
    modify iteration w i change = (b, w', e)
    ∧ outcome (b, w', e)
      = (if writable w.2 then inr true
         else inl (runtime_error "Cannot open customer data file for writing"))
    ∧ (writable w.2 = false → w'.2 = w.2)
    ∧ (get w' i).1 = Some (change c)
    ∧ (∀ j, j ≠ i → (get w' j).1 = (get w j).1)
    ∧ count w' = count w.
Proof.
  intros Hinv Hid Hc.
  destruct (modify_spec iteration w i change Hinv Hid)
    as (b & w' & e & Hm & Hinv' & _ & Hsome).
  destruct (Hsome c Hc) as (-> & Hst & He & Hthrow).
  exists true, w', e. split; [exact Hm |]. split_and!.
  - unfold outcome. simpl. destruct (writable w.2).
    + rewrite (He eq_refl). reflexivity.
    + destruct (Hthrow eq_refl) as [-> _]. reflexivity.
  - intros Hw. apply (Hthrow Hw).
  - rewrite (get_store iteration w' i Hinv'), Hst. apply lookup_insert_eq.
  - intros j Hne.
    rewrite (get_store iteration w' j Hinv'), (get_store iteration w j Hinv), Hst.
    apply lookup_insert_ne. congruence.
  - unfold count, CustomerRepository.count. rewrite Hst.
    apply map_size_insert_Some. eauto.
Qed.

(** The parameters used in the examples: a clock that moves on at every
    reading, and placeholders for the arithmetic on [double]. *)
Definition demo_clock (n : nat) : Z := SnowflakeGenerator.EPOCH + Z.of_nat n.
Definition demo_limit (score : Z) (tr : CustomerTier) : Z := 0.
Definition demo_tier (spent : Z) : CustomerTier := BRONZE.
Definition demo_add (a b : Z) : Z := 0.
Definition demo_above (a : Z) : bool := false.

Definition alice : CustomerCreateRequest.t :=
  CustomerCreateRequest.mk [x41; x6c] [x61; x40; x62] [] [] [x55; x53] [x43; x41].

Definition demo_ops : list sop :=
  [Create 4 (SnowflakeGenerator.mk 1 0 (-1)) 0 alice 1704067200;
   Create 4 (SnowflakeGenerator.mk 1 0 SnowflakeGenerator.EPOCH) 1 alice 1704067201;
   Suspend 4096 1704067202].

(** X23.  The service keeps email addresses unique: starting from a
    repository in which no two records share an address, after any sequence
    of [create], [get], [update_profile], [recalculate_credit], [suspend],
    [activate] and [remove] calls (ending normally or in an exception, with
    any identifiers handed out by the generator) no two stored records
    share an address. *)
Theorem emails_stay_unique
  (iteration : gmap Z Customer → list (Z * Customer)) (current_ms : nat → Z)
  (compute_credit_limit : Z → CustomerTier → Z) (compute_tier : Z → CustomerTier)
  (add_double : Z → Z → Z) (above_1000 : Z → bool)
  (d0 : Disk) (r0 : CustomerRepository.t) (ops : list sop) (w : World) :
  (∀ m, iteration m ≡ₚ map_to_list m) →
  new d0 = Some r0 →
  unique_emails (store_ r0) →
  srun iteration current_ms compute_credit_limit compute_tier add_double above_1000
    (r0, d0) ops = Some w →
  unique_emails (store_ w.1).
Proof.
  intros Hperm Hnew Hu Hrun.
  destruct (srun_inv iteration current_ms compute_credit_limit compute_tier add_double
              above_1000 Hperm ops (r0, d0) w (new_winv d0 r0 Hnew) Hu Hrun) as [_ H].
  exact H.
Qed.

Lemma emails_stay_unique_witness :
  new (mkDisk None true) = Some blank
  ∧ ∃ w, srun map_to_list demo_clock demo_limit demo_tier demo_add demo_above
           (blank, mkDisk None true) demo_ops = Some w
         ∧ unique_emails (store_ w.1).
Proof.
  split; [reflexivity |].
  assert (Hrun : ∃ w, srun map_to_list demo_clock demo_limit demo_tier demo_add demo_above
                        (blank, mkDisk None true) demo_ops = Some w).
  { eexists. vm_compute. reflexivity. }
  destruct Hrun as [w Hrun]. exists w. split; [exact Hrun |].
  refine (emails_stay_unique map_to_list demo_clock demo_limit demo_tier demo_add
            demo_above (mkDisk None true) blank demo_ops w _ eq_refl _ Hrun).
  - intros m. reflexivity.
  - intros k1 k2 c1 c2 H1. simpl in H1. rewrite lookup_empty in H1. discriminate.
Defined.

(** X24.  [create] refuses a request without a name or an email address
    ([invalid_argument]) and a request whose address a stored record has
    ([runtime_error]); both leave the repository, the file and the
    generator as they were.  Otherwise it takes one identifier from the
    generator and saves a BRONZE, ACTIVE record with credit score 650 and
    both time stamps equal; [get] then finds that record under the new
    identifier, and the call returns it when the file can be written. *)
Theorem create_contract
  (iteration : gmap Z Customer → list (Z * Customer)) (current_ms : nat → Z)
  (compute_credit_limit : Z → CustomerTier → Z) (compute_tier : Z → CustomerTier)
  (add_double : Z → Z → Z) (above_1000 : Z → bool)
  (d0 : Disk) (r0 : CustomerRepository.t) (ops : list sop) (w : World)
  (fuel : nat) (g : SnowflakeGenerator.t) (reads : nat)
  (req : CustomerCreateRequest.t) (now : Z) :
  (∀ m, iteration m ≡ₚ map_to_list m) →
  new d0 = Some r0 →
  srun iteration current_ms compute_credit_limit compute_tier add_double above_1000
    (r0, d0) ops = Some w →
  (CustomerCreateRequest.name req = [] ∨ CustomerCreateRequest.email req = [] →
   create iteration current_ms compute_credit_limit fuel g reads w req now
   = Some (inl (invalid_argument "Name and email are required"), w, g, reads))
  ∧ (CustomerCreateRequest.name req ≠ [] → CustomerCreateRequest.email req ≠ [] →
     (∃ k c0, store_ w.1 !! k = Some c0 ∧ email c0 = CustomerCreateRequest.email req) →
     create iteration current_ms compute_credit_limit fuel g reads w req now
     = Some (inl (runtime_error
                    ("Email already registered: "
                     ++ string_of_list_byte (CustomerCreateRequest.email req))),
             w, g, reads))
  ∧ (CustomerCreateRequest.name req ≠ [] → CustomerCreateRequest.email req ≠ [] →
     (∀ k c0, store_ w.1 !! k = Some c0 → email c0 ≠ CustomerCreateRequest.email req) →
     ∀ new_id g' reads',
       SnowflakeGenerator.next current_ms fuel g reads = Some (new_id, g', reads') →
       ∃ res w',
         create iteration current_ms compute_credit_limit fuel g reads w req now
         = Some (res, w', g', reads')
         ∧ (∀ c, (get w' new_id).1 = Some c →
                 id c = new_id
                 ∧ name c = CustomerCreateRequest.name req
                 ∧ email c = CustomerCreateRequest.email req
                 ∧ tier c = BRONZE ∧ status c = ACTIVE ∧ credit_score c = 650
                 ∧ created_at c = now ∧ updated_at c = now)
         ∧ is_Some (get w' new_id).1
         ∧ (writable w.2 = true → ∃ c, res = inr c ∧ (get w' new_id).1 = Some c)).
Proof.
  intros Hperm Hnew Hrun.
  pose proof (srun_winv iteration current_ms compute_credit_limit compute_tier add_double
                above_1000 ops (r0, d0) w (new_winv d0 r0 Hnew) Hrun) as Hinv.
  pose proof Hinv as [Hok Hk].
  split_and!.
  - intros Hempty. unfold create.
    destruct Hempty as [-> | ->]; simpl; [reflexivity |].
    rewrite orb_true_r. reflexivity.
  - intros Hn He (k & c0 & Hc0 & Hem). unfold create.
    destruct (CustomerCreateRequest.name req) as [| n ns]; [contradiction |].
    destruct (CustomerCreateRequest.email req) as [| b bs] eqn:Heq; [contradiction |].
    simpl.
    destruct (find_by_email_is_Some iteration Hperm w.1 (b :: bs) k c0 Hc0 Hem) as [c1 ->].
    reflexivity.
  - intros Hn He Hfree new_id g' reads' Hnext. unfold create.
    destruct (CustomerCreateRequest.name req) as [| n ns] eqn:Hname; [contradiction |].
    destruct (CustomerCreateRequest.email req) as [| b bs] eqn:Heq; [contradiction |].
    simpl.
    destruct (find_by_email iteration w.1 (b :: bs)) as [c1 |] eqn:Hfe.
    { apply (find_by_email_Some iteration Hperm) in Hfe as [He1 [k Hk1]].
      exfalso. exact (Hfree k c1 Hk1 He1). }
    rewrite Hnext.
    set (c := {| id := new_id; email := b :: bs |}).
    destruct (repo_save_spec iteration w.1 w.2 c Hok)
      as (r' & d' & e & -> & Hok' & Hst & _ & Hfl).
    eexists _, (r', d'). split; [reflexivity |].
    assert (Hinv' : winv (r', d')).
    { split; simpl; [exact Hok' |]. rewrite Hst. apply keyed_insert. exact Hk. }
    assert (Hget : (get (r', d') new_id).1 = Some c).
    { rewrite (get_store iteration _ _ Hinv'). simpl. rewrite Hst.
      apply (lookup_insert_eq (store_ w.1) (id c)). }
    split_and!.
    + intros c' Hc'. rewrite Hget in Hc'. injection Hc' as <-.
      subst c. simpl. split_and!; reflexivity.
    + rewrite Hget. eauto.
    + intros Hw. exists c. split; [| exact Hget].
      destruct (flush_cases iteration r' w.2) as [(_ & d2 & Hf2 & _) | [Hw2 _]];
        [| congruence].
      rewrite Hf2 in Hfl. injection Hfl as _ <-. reflexivity.
Qed.

Lemma create_contract_witness :
  new (mkDisk None true) = Some blank
  ∧ srun map_to_list demo_clock demo_limit demo_tier demo_add demo_above
      (blank, mkDisk None true) [] = Some (blank, mkDisk None true)
  ∧ create map_to_list demo_clock demo_limit 4 (SnowflakeGenerator.mk 1 0 (-1)) 0
      (blank, mkDisk None true)
      (CustomerCreateRequest.mk [] [x61; x40; x62] [] [] [] []) 1704067200
    = Some (inl (invalid_argument "Name and email are required"),
            (blank, mkDisk None true), SnowflakeGenerator.mk 1 0 (-1), 0%nat).
Proof.
  split; [reflexivity |]. split; [reflexivity |].
  refine (proj1 (create_contract map_to_list demo_clock demo_limit demo_tier demo_add
                   demo_above (mkDisk None true) blank [] (blank, mkDisk None true)
                   4 (SnowflakeGenerator.mk 1 0 (-1)) 0
                   (CustomerCreateRequest.mk [] [x61; x40; x62] [] [] [] []) 1704067200
                   _ eq_refl eq_refl) _).
  - intros m. reflexivity.
  - left. reflexivity.
Defined.

(** X25.  [suspend] and [activate] return false for an id the repository
    does not hold and leave the records and the file as they were.  For an
    id it holds they return true when the data file can be written; when it
    cannot, they throw [runtime_error] and leave the file as it was.  In
    both cases the record has been changed in memory: [get] then returns it
    with the new status and [updated_at] and every other field as it was,
    every other id answers as before and [count] is unchanged. *)
Theorem suspend_activate_contract
  (iteration : gmap Z Customer → list (Z * Customer)) (current_ms : nat → Z)
  (compute_credit_limit : Z → CustomerTier → Z) (compute_tier : Z → CustomerTier)
  (add_double : Z → Z → Z) (above_1000 : Z → bool)
  (d0 : Disk) (r0 : CustomerRepository.t) (ops : list sop) (w : World)
  (i : Z) (now : Z) :
  new d0 = Some r0 →
  srun iteration current_ms compute_credit_limit compute_tier add_double above_1000
    (r0, d0) ops = Some w →
  (store_ w.1 !! i = None →
   ∃ w1 w2,
     suspend iteration w i now = (false, w1, None)
     ∧ activate iteration w i now = (false, w2, None)
     ∧ store_ w1.1 = store_ w.1 ∧ w1.2 = w.2
     ∧ store_ w2.1 = store_ w.1 ∧ w2.2 = w.2)
  ∧ (∀ c, store_ w.1 !! i = Some c →
       (∃ b w' e,
          suspend iteration w i now = (b, w', e)
          ∧ outcome (b, w', e)
            = (if writable w.2 then inr true
               else inl (runtime_error "Cannot open customer data file for writing"))
          ∧ (writable w.2 = false → w'.2 = w.2)
          ∧ (get w' i).1 = Some (set_status SUSPENDED now c)
          ∧ (∀ j, j ≠ i → (get w' j).1 = (get w j).1)
          ∧ count w' = count w)
       ∧ (∃ b w' e,
            activate iteration w i now = (b, w', e)
            ∧ outcome (b, w', e)
              = (if writable w.2 then inr true
                 else inl (runtime_error "Cannot open customer data file for writing"))
            ∧ (writable w.2 = false → w'.2 = w.2)
            ∧ (get w' i).1 = Some (set_status ACTIVE now c)
            ∧ (∀ j, j ≠ i → (get w' j).1 = (get w j).1)
            ∧ count w' = count w)).
Proof.
  intros Hnew Hrun.
  pose proof (srun_winv iteration current_ms compute_credit_limit compute_tier add_double
                above_1000 ops (r0, d0) w (new_winv d0 r0 Hnew) Hrun) as Hinv.
  split.
  - intros Hnone. unfold suspend, activate.
    destruct (modify_spec iteration w i (set_status SUSPENDED now) Hinv (λ c, eq_refl))
      as (b1 & w1 & e1 & -> & _ & H1 & _).
    destruct (modify_spec iteration w i (set_status ACTIVE now) Hinv (λ c, eq_refl))
      as (b2 & w2 & e2 & -> & _ & H2 & _).
    destruct (H1 Hnone) as (-> & Hs1 & Hd1 & ->).
    destruct (H2 Hnone) as (-> & Hs2 & Hd2 & ->).
    exists w1, w2. split_and!; auto.
  - intros c Hc. unfold suspend, activate. split.
    + exact (modify_get iteration w i (set_status SUSPENDED now) c Hinv (λ c, eq_refl) Hc).
    + exact (modify_get iteration w i (set_status ACTIVE now) c Hinv (λ c, eq_refl) Hc).
Qed.

(** A customer is created, then the data directory becomes read-only:
    [suspend] of that customer throws, and the record is suspended in
    memory all the same. *)
Lemma suspend_activate_contract_witness :
  new (mkDisk None true) = Some blank
  ∧ ∃ w c,
      srun map_to_list demo_clock demo_limit demo_tier demo_add demo_above
        (blank, mkDisk None true)
        [Create 4 (SnowflakeGenerator.mk 1 0 (-1)) 0 alice 1704067200; Chmod false]
      = Some w
      ∧ store_ w.1 !! 4096 = Some c
      ∧ writable w.2 = false
      ∧ ∃ b w' e,
          suspend map_to_list w 4096 1704067300 = (b, w', e)
          ∧ outcome (b, w', e)
            = inl (runtime_error "Cannot open customer data file for writing")
          ∧ (get w' 4096).1 = Some (set_status SUSPENDED 1704067300 c).
Proof.
  split; [reflexivity |].
  assert (Hw : ∃ w c,
             srun map_to_list demo_clock demo_limit demo_tier demo_add demo_above
               (blank, mkDisk None true)
               [Create 4 (SnowflakeGenerator.mk 1 0 (-1)) 0 alice 1704067200; Chmod false]
             = Some w
             ∧ store_ w.1 !! 4096 = Some c
             ∧ writable w.2 = false).
  { eexists _, _. split; [vm_compute; reflexivity |].
    split; [vm_compute; reflexivity | reflexivity]. }
  destruct Hw as (w & c & Hrun & Hc & Hro).
  exists w, c. split; [exact Hrun |]. split; [exact Hc |]. split; [exact Hro |].
  destruct (proj1 (proj2 (suspend_activate_contract map_to_list demo_clock demo_limit
                            demo_tier demo_add demo_above (mkDisk None true) blank _ w
                            4096 1704067300 eq_refl Hrun) c Hc))
    as (b & w' & e & Hm & Hout & _ & Hg & _).
  rewrite Hro in Hout.
  exists b, w', e. split; [exact Hm |]. split; [exact Hout | exact Hg].
Defined.

(** X26.  [recalculate_credit] on a stored record whose score plus the
    adjustment is an [int] returns true when the data file can be written;
    when it cannot, it throws [runtime_error] and leaves the file as it
    was.  In both cases the record in memory then has a credit score
    between 300 and 850: the old score moved by +5 or +8 (on time) or by
    -15 or -20 (late) and clamped; id, name, email and status are
    untouched, and every other id answers as before. *)
Theorem recalculate_credit_contract
  (iteration : gmap Z Customer → list (Z * Customer)) (current_ms : nat → Z)
  (compute_credit_limit : Z → CustomerTier → Z) (compute_tier : Z → CustomerTier)
  (add_double : Z → Z → Z) (above_1000 : Z → bool)
  (d0 : Disk) (r0 : CustomerRepository.t) (ops : list sop) (w : World)
  (i : Z) (payment_amount : Z) (on_time : bool) (now : Z) (c : Customer) :
  new d0 = Some r0 →
  srun iteration current_ms compute_credit_limit compute_tier add_double above_1000
    (r0, d0) ops = Some w →
  store_ w.1 !! i = Some c →
  - 2 ^ 31 + 20 ≤ credit_score c < 2 ^ 31 - 8 →
  ∃ b w' e c',
    recalculate_credit iteration compute_credit_limit compute_tier add_double above_1000
      w i payment_amount on_time now = (b, w', e)
    ∧ outcome (b, w', e)
      = (if writable w.2 then inr true
         else inl (runtime_error "Cannot open customer data file for writing"))
    ∧ (writable w.2 = false → w'.2 = w.2)
    ∧ (get w' i).1 = Some c'
    ∧ 300 ≤ credit_score c' ≤ 850
    ∧ (∃ delta, (if on_time then delta = 5 ∨ delta = 8 else delta = -15 ∨ delta = -20)
                ∧ credit_score c' = Z.max 300 (Z.min 850 (credit_score c + delta)))
    ∧ id c' = id c ∧ name c' = name c ∧ email c' = email c ∧ status c' = status c
    ∧ (∀ j, j ≠ i → (get w' j).1 = (get w j).1).
Proof.
  intros Hnew Hrun Hc Hint.
  pose proof (srun_winv iteration current_ms compute_credit_limit compute_tier add_double
                above_1000 ops (r0, d0) w (new_winv d0 r0 Hnew) Hrun) as Hinv.
  unfold recalculate_credit.
  match goal with
  | |- context [modify _ _ _ ?f] =>
      destruct (modify_get iteration w i f c Hinv (λ c, eq_refl) Hc)
        as (b & w' & e & Hm & Hout & Hdisk & Hg & Ho & _)
  end.
  eexists b, w', e, _. split; [exact Hm |]. split; [exact Hout |].
  split; [exact Hdisk |]. split; [exact Hg |]. simpl.
  split_and!; try reflexivity.
  - lia.
  - lia.
  - destruct on_time, (above_1000 payment_amount).
    + exists 8. split; [auto | reflexivity].
    + exists 5. split; [auto | reflexivity].
    + exists (-20). split; [auto | reflexivity].
    + exists (-15). split; [auto | reflexivity].
  - exact Ho.
Qed.

(** A late payment on a freshly created customer, with a writable data
    directory: the call returns true and the score goes from 650 to 635. *)
Lemma recalculate_credit_contract_witness :
  new (mkDisk None true) = Some blank
  ∧ ∃ w c,
      srun map_to_list demo_clock demo_limit demo_tier demo_add demo_above
        (blank, mkDisk None true)
        [Create 4 (SnowflakeGenerator.mk 1 0 (-1)) 0 alice 1704067200] = Some w
      ∧ store_ w.1 !! 4096 = Some c
      ∧ credit_score c = 650
      ∧ writable w.2 = true
      ∧ ∃ b w' e c',
          recalculate_credit map_to_list demo_limit demo_tier demo_add demo_above
            w 4096 0 false 1704067300 = (b, w', e)
          ∧ outcome (b, w', e) = inr true
          ∧ (get w' 4096).1 = Some c'
          ∧ 300 ≤ credit_score c' ≤ 850.
Proof.
  split; [reflexivity |].
  assert (Hw : ∃ w c,
             srun map_to_list demo_clock demo_limit demo_tier demo_add demo_above
               (blank, mkDisk None true)
               [Create 4 (SnowflakeGenerator.mk 1 0 (-1)) 0 alice 1704067200] = Some w
             ∧ store_ w.1 !! 4096 = Some c
             ∧ credit_score c = 650
             ∧ writable w.2 = true).
  { eexists _, _. split; [vm_compute; reflexivity |].
    split; [vm_compute; reflexivity |]. split; reflexivity. }
  destruct Hw as (w & c & Hrun & Hc & Hscore & Hrw).
  exists w, c. split; [exact Hrun |]. split; [exact Hc |]. split; [exact Hscore |].
  split; [exact Hrw |].
  destruct (recalculate_credit_contract map_to_list demo_clock demo_limit demo_tier
              demo_add demo_above (mkDisk None true) blank _ w 4096 0 false 1704067300 c
              eq_refl Hrun Hc) as (b & w' & e & c' & Hm & Hout & _ & Hg & Hs & _).
  - rewrite Hscore. lia.
  - rewrite Hrw in Hout.
    exists b, w', e, c'. split; [exact Hm |]. split; [exact Hout |].
    split; [exact Hg | exact Hs].
Defined.

End ServiceFacts.

(** ** Range queries across a restart *)

Module RestartFacts.
Import Codec CodecFacts CustomerRepository RepositoryFacts RepositoryMore.

(** The count at the head of the data file is the number of records of the
    map; without a file the map is empty. *)
Definition disk_counts (s : t * Disk) : Prop :=
  match file s.2 with
  | None => store_ s.1 = ∅
  | Some f => Z.to_nat (decode_le (take 8 f)) = size (store_ s.1)
  end.

Lemma load_records_size n :
  ∀ r f r' f', load_records n r f = Some (r', f') →
               (size (store_ r') ≤ size (store_ r) + n)%nat.
Proof.
  induction n as [| n IH]; intros r f r' f'; simpl.
  - unfold ret. intros [= <- _]. lia.
  - unfold bind. destruct (read_customer f) as [[c f1] |]; [| discriminate].
    intros Hl. apply IH in Hl. simpl in Hl.
    pose proof (size_insert_le (store_ r) (id c) c). lia.
Qed.

(** Replaying [n] records that all carry new ids keeps the index in step
    with the map. *)
Lemma load_records_index n :
  ∀ r f r' f', load_records n r f = Some (r', f') →
               index_ok r → keyed (store_ r) →
               size (store_ r') = (size (store_ r) + n)%nat →
               index_ok r' ∧ keyed (store_ r').
Proof.
  induction n as [| n IH]; intros r f r' f'; simpl.
  - unfold ret. intros [= <- _]. auto.
  - unfold bind. destruct (read_customer f) as [[c f1] |]; [| discriminate].
    intros Hl [HI Hc] Hk Hsize.
    pose proof (load_records_size _ _ _ _ _ Hl) as Hle. simpl in Hle.
    assert (Hfresh : store_ r !! id c = None).
    { destruct (store_ r !! id c) as [c0 |] eqn:Hs; [| reflexivity].
      rewrite map_size_insert_Some in Hle by eauto. lia. }
    apply IH in Hl; [exact Hl | | |]; simpl.
    + destruct (BPlusTreeFacts.insert_spec 4 (index_ r) (id c) (id c) HI)
        as (HI' & Hc' & _).
      * rewrite Hc, lookup_fmap, Hfresh. reflexivity.
      * split; [exact HI' |]. simpl. rewrite Hc', Hc, fmap_insert. reflexivity.
    + apply keyed_insert. exact Hk.
    + rewrite map_size_insert_None by exact Hfresh. lia.
Qed.

Lemma new_index_ok d r2 :
  new d = Some r2 →
  match file d with
  | None => True
  | Some f => size (store_ r2) = Z.to_nat (decode_le (take 8 f))
  end →
  index_ok r2 ∧ keyed (store_ r2).
Proof.
  rewrite new_load. unfold load_all. destruct blank_ok as (_ & Hix & Hk).
  destruct (file d) as [f |]; [| intros [= <-] _; split; assumption].
  destruct (load_records _ blank (drop 8 f)) as [[r' f'] |] eqn:Hl; [| discriminate].
  intros [= <-] Hsize.
  apply (load_records_index _ _ _ _ _ Hl Hix Hk). rewrite Hsize. reflexivity.
Qed.

Lemma sorted_by_id (l : list Customer) :
  StronglySorted Z.lt (id <$> l) → StronglySorted (λ c1 c2, id c1 < id c2) l.
Proof.
  induction l as [| c l IH]; intros Hs; [constructor |].
  change (id <$> c :: l) with (id c :: (id <$> l)) in Hs.
  apply StronglySorted_inv in Hs as [Hs Hall]. constructor; [apply IH; exact Hs |].
  rewrite Forall_fmap in Hall. exact Hall.
Qed.

Lemma sorted_ids_NoDup (l : list Customer) : StronglySorted Z.lt (id <$> l) → NoDup l.
Proof.
  intros Hs. apply (NoDup_fmap_1 id). apply BPlusTreeFacts.sorted_NoDup. exact Hs.
Qed.

(** Two repositories in step that hold the same map answer every range
    query alike. *)
Lemma find_range_agree r1 r2 lo hi :
  index_ok r1 → keyed (store_ r1) → index_ok r2 → keyed (store_ r2) →
  store_ r1 = store_ r2 →
  ∃ l fuel0, ∀ fuel, (fuel0 ≤ fuel)%nat →
    find_range fuel r1 lo hi = Some l ∧ find_range fuel r2 lo hi = Some l.
Proof.
  intros Hix1 Hk1 Hix2 Hk2 Hst.
  destruct (find_range_spec r1 lo hi Hix1 Hk1) as (l1 & Hl1 & Hs1 & Hm1).
  destruct (find_range_spec r2 lo hi Hix2 Hk2) as (l2 & Hl2 & Hs2 & Hm2).
  assert (Heq : l1 = l2).
  { apply (StronglySorted_unique_strong (λ c1 c2 : Customer, id c1 < id c2)).
    - intros x1 x2 _ _ H12 H21. lia.
    - apply sorted_by_id. exact Hs1.
    - apply sorted_by_id. exact Hs2.
    - apply NoDup_Permutation; [apply sorted_ids_NoDup; exact Hs1
                               | apply sorted_ids_NoDup; exact Hs2 |].
      intros c. rewrite Hm1, Hm2, Hst. reflexivity. }
  subst l2.
  exists l1, (Nat.max (length (BPlusTreeFacts.leaves (BPlusTree.root_ (index_ r1))))
                      (length (BPlusTreeFacts.leaves (BPlusTree.root_ (index_ r2))))).
  intros fuel Hfuel. split; [apply Hl1 | apply Hl2]; lia.
Qed.

Section Restart.
Variable iteration : gmap Z Customer → list (Z * Customer).
Hypothesis iteration_perm : ∀ m, iteration m ≡ₚ map_to_list m.

Lemma flush_counts r d d' :
  writable d = true → Z.of_nat (size (store_ r)) < 2 ^ 64 →
  flush iteration r d = (d', None) → disk_counts (r, d').
Proof.
  intros Hw Hsize. unfold flush. rewrite Hw. intros Hf.
  apply (f_equal fst) in Hf. cbn [fst] in Hf. rewrite <- Hf.
  unfold disk_counts. cbn [file snd fst].
  rewrite take_app_length' by (symmetry; apply length_encode_le).
  rewrite decode_encode_le, Z.mod_small by (change (8 * Z.of_nat 8) with 64; lia).
  apply Nat2Z.id.
Qed.

Lemma counts_step s o n :
  in_sync s → disk_counts s → rop_wf o →
  (size (store_ s.1) ≤ n)%nat → Z.of_nat (S n) < 2 ^ 64 →
  disk_counts (rstep iteration s o).
Proof.
  destruct s as [r d]. intros (Hw & Hwf & _) Hcount Ho Hn Hbound. simpl in *.
  destruct o as [c | c | i | i | b]; simpl in *.
  - unfold save.
    set (r' := {| store_ := <[id c := c]> (store_ r);
                  index_ := BPlusTree.insert 4 (index_ r) (id c) (id c);
                  cache_ := (LRUCache.put (cache_ r) (id c) c).1 |}).
    pose proof (size_insert_le (store_ r) (id c) c) as Hle.
    destruct (flush_cases iteration r' d) as [(_ & d' & Hf & _) | [Hw2 _]]; [| congruence].
    rewrite Hf. apply (flush_counts r' d d' Hw); [simpl; lia | exact Hf].
  - unfold update. destruct (store_ r !! id c) as [c0 |] eqn:Hc0; [| exact Hcount].
    set (r' := {| store_ := <[id c := c]> (store_ r);
                  index_ := (BPlusTree.update (index_ r) (id c) (id c)).2;
                  cache_ := (LRUCache.put (cache_ r) (id c) c).1 |}).
    pose proof (size_insert_le (store_ r) (id c) c) as Hle.
    destruct (flush_cases iteration r' d) as [(_ & d' & Hf & _) | [Hw2 _]]; [| congruence].
    rewrite Hf. apply (flush_counts r' d d' Hw); [simpl; lia | exact Hf].
  - unfold remove. destruct (store_ r !! i) as [c0 |] eqn:Hc0; [| exact Hcount].
    set (r' := {| store_ := delete i (store_ r);
                  index_ := (BPlusTree.remove (index_ r) i).2;
                  cache_ := (LRUCache.evict (cache_ r) i).2 |}).
    assert (Hle : (size (delete i (store_ r)) ≤ size (store_ r))%nat).
    { rewrite map_size_delete_Some by eauto. lia. }
    destruct (flush_cases iteration r' d) as [(_ & d' & Hf & _) | [Hw2 _]]; [| congruence].
    rewrite Hf. apply (flush_counts r' d d' Hw); [simpl; lia | exact Hf].
  - assert (Hst : store_ (find_by_id r i).2 = store_ r).
    { unfold find_by_id. destruct (LRUCache.get (cache_ r) i) as [[c |] cache];
        [reflexivity |]. destruct (store_ r !! i); reflexivity. }
    unfold disk_counts in *. simpl in *. rewrite Hst. exact Hcount.
  - exact Hcount.
Qed.

Lemma counts_run ops :
  ∀ s n, in_sync s → disk_counts s → Forall rop_wf ops →
         (size (store_ s.1) ≤ n)%nat → Z.of_nat (n + length ops) < 2 ^ 64 →
         in_sync (rrun iteration s ops) ∧ disk_counts (rrun iteration s ops).
Proof.
  induction ops as [| o ops IH]; intros s n Hsync Hcount Hwf Hn Hbound; simpl;
    [split; assumption |].
  apply Forall_cons in Hwf as [Ho Hwf]. simpl in Hbound.
  destruct (sync_step iteration iteration_perm s o n Hsync Ho Hn) as [Hsync' Hn']; [lia |].
  pose proof (counts_step s o n Hsync Hcount Ho Hn) as Hcount'.
  apply (IH _ (S n)); try assumption; [apply Hcount' |]; lia.
Qed.

End Restart.

(** X27.  In a repository built on an empty, writable data directory and
    used with [save] only for ids it does not hold, with records of the C++
    field types, a restart changes no range query: the repository rebuilt
    from the data file returns for every [find_range lo hi] the list the
    running repository returns. *)
Theorem restart_keeps_find_range
  (iteration : gmap Z Customer → list (Z * Customer))
  (d0 : Disk) (r0 : t) (ops : list rop) :
  (∀ m, iteration m ≡ₚ map_to_list m) →
  file d0 = None → writable d0 = true → new d0 = Some r0 →
  Forall rop_wf ops → fresh_saves iteration (r0, d0) ops →
  Z.of_nat (length ops) < 2 ^ 64 →
  let s := rrun iteration (r0, d0) ops in
  ∃ r2, new s.2 = Some r2
        ∧ ∀ lo hi, ∃ l fuel0, ∀ fuel, (fuel0 ≤ fuel)%nat →
            find_range fuel s.1 lo hi = Some l ∧ find_range fuel r2 lo hi = Some l.
Proof.
  intros Hperm Hfile Hw Hnew Hwf Hfresh Hbound s.
  assert (Hr0 : r0 = blank).
  { rewrite new_load in Hnew. unfold load_all in Hnew. rewrite Hfile in Hnew.
    congruence. }
  destruct blank_ok as (_ & Hix0 & Hk0). rewrite <- Hr0 in Hix0, Hk0.
  assert (Hsync0 : in_sync (r0, d0)).
  { split_and!; [exact Hw | | exists r0; split; [exact Hnew | reflexivity]].
    rewrite Hr0. intros k c Hl. simpl in Hl. rewrite lookup_empty in Hl. discriminate. }
  assert (Hcount0 : disk_counts (r0, d0)).
  { unfold disk_counts. simpl. rewrite Hfile, Hr0. reflexivity. }
  destruct (counts_run iteration Hperm ops (r0, d0) 0%nat Hsync0 Hcount0 Hwf)
    as [(_ & _ & r2 & Hnew2 & Hst) Hcount].
  { simpl. rewrite Hr0. simpl. rewrite map_size_empty. lia. }
  { simpl. exact Hbound. }
  fold s in Hnew2, Hst, Hcount.
  destruct (index_run iteration ops (r0, d0) Hix0 Hk0 Hfresh) as [Hix Hk].
  fold s in Hix, Hk.
  destruct (new_index_ok s.2 r2 Hnew2) as [Hix2 Hk2].
  { unfold disk_counts in Hcount. destruct (file s.2) as [f |]; [| exact I].
    rewrite Hst. symmetry. exact Hcount. }
  exists r2. split; [exact Hnew2 |].
  intros lo hi. apply find_range_agree; auto.
Qed.

Lemma restart_keeps_find_range_witness :
  file (mkDisk None true) = None
  ∧ writable (mkDisk None true) = true
  ∧ new (mkDisk None true) = Some blank
  ∧ ∃ r2,
      new (rrun map_to_list (blank, mkDisk None true)
             [Save other_customer; Save sample_customer; Remove 9]).2 = Some r2
      ∧ ∀ lo hi, ∃ l fuel0, ∀ fuel, (fuel0 ≤ fuel)%nat →
          find_range fuel
            (rrun map_to_list (blank, mkDisk None true)
               [Save other_customer; Save sample_customer; Remove 9]).1 lo hi = Some l
          ∧ find_range fuel r2 lo hi = Some l.
Proof.
  split; [reflexivity |]. split; [reflexivity |]. split; [reflexivity |].
  apply (restart_keeps_find_range map_to_list (mkDisk None true) blank
           [Save other_customer; Save sample_customer; Remove 9]).
  - intros m. reflexivity.
  - reflexivity.
  - reflexivity.
  - reflexivity.
  - apply Forall_cons. split; [exact other_customer_wf |].
    apply Forall_cons. split; [exact sample_customer_wf |].
    apply Forall_cons. split; [exact I | apply Forall_nil_2].
  - cbn [fresh_saves]. split; [vm_compute; reflexivity |].
    split; [vm_compute; reflexivity |]. split; exact I.
  - simpl. lia.
Defined.

End RestartFacts.
